(** * A predictive-text engine: compressed trie, bounded edit distance
    and n-gram language model.

    Shallow embedding of [levenshtein.js], the [Trie] class and
    [ngram.js].  JavaScript strings are sequences of UTF-16 code units,
    JavaScript objects are property lists in enumeration order living in
    a store of mutable objects.  The comparator of [closest] is in
    double arithmetic; the probabilities of the language model are kept
    as the exact quotients of the counts, and the doubles the code
    stores are their roundings. *)

From Stdlib Require Import ZArith List String Ascii Bool Lia QArith Qround.
From Stdlib Require Import Sorted Lqa Qpower Qabs.
From stdpp Require Import base list.
Import ListNotations.
Open Scope Z_scope.

(** ** JavaScript strings *)

Module JsString.

(** A string value: its UTF-16 code units. *)
Definition jsstring := list N.

(** The string written as an ASCII literal. *)
Definition js (s : string) : jsstring :=
  map N_of_ascii (list_ascii_of_string s).

(** [a === b] on strings. *)
Fixpoint str_eqb (a b : jsstring) : bool :=
  match a, b with
  | [], [] => true
  | c :: a', d :: b' => (c =? d)%N && str_eqb a' b'
  | _, _ => false
  end.

(** [s.startsWith(p)] *)
Fixpoint startsWith (s p : jsstring) : bool :=
  match p, s with
  | [], _ => true
  | _ :: _, [] => false
  | c :: p', d :: s' => (c =? d)%N && startsWith s' p'
  end.

(** [s.endsWith(p)] *)
Definition endsWith (s p : jsstring) : bool := startsWith (rev s) (rev p).

(** [s.substring(k)] and [s.substring(0, k)] for an index [k >= 0]. *)
Definition substring_from (k : nat) (s : jsstring) : jsstring := drop k s.
Definition substring_to (k : nat) (s : jsstring) : jsstring := take k s.

(** [s.charAt(i)]: the empty string out of range. *)
Definition charAt (s : jsstring) (i : nat) : jsstring :=
  match s !! i with Some c => [c] | None => [] end.

(** The text [sep]-joined, as [Array.prototype.join]. *)
Fixpoint join (sep : jsstring) (l : list jsstring) : jsstring :=
  match l with
  | [] => []
  | [x] => x
  | x :: rest => x ++ sep ++ join sep rest
  end.

(** The code points of a string, as the string iterator yields them: a
    high surrogate followed by a low surrogate is one element. *)
Definition isHighSurrogate (c : N) : bool := ((55296 <=? c) && (c <=? 56319))%N.
Definition isLowSurrogate (c : N) : bool := ((56320 <=? c) && (c <=? 57343))%N.

Fixpoint codePoints (s : jsstring) : list jsstring :=
  match s with
  | [] => []
  | c :: rest =>
      match rest with
      | d :: rest' =>
          if isHighSurrogate c && isLowSurrogate d
          then [c; d] :: codePoints rest'
          else [c] :: codePoints rest
      | [] => [[c]]
      end
  end.

(** [String.prototype.toLowerCase] is a built-in of the host; the
    development is parametric in it. *)
Class CaseMapping := toLowerCase : jsstring -> jsstring.

(** The built-in on the Latin-1 range: A-Z and the accented capitals
    U+00C0..U+00DE (but the multiplication sign) move 32 up. *)
Definition lowerUnit (c : N) : N :=
  if ((65 <=? c) && (c <=? 90))%N then (c + 32)%N
  else if ((192 <=? c) && (c <=? 222) && negb (c =? 215))%N then (c + 32)%N
  else c.

Definition latin1 : CaseMapping := map lowerUnit.

(** What a function that can throw returns. *)
Inductive result (A : Type) : Type :=
  | Ok (a : A)
  | Throw (message : string).
Arguments Ok {A} a.
Arguments Throw {A} message.

End JsString.
Export JsString.

(** ** JavaScript objects

    The trie's nodes are plain objects.  An object is the list of its
    own properties in enumeration order; objects are mutable and shared
    by reference, so they live in a store and a value refers to one by
    its address. *)

Module JsObject.

Inductive value : Type :=
  | VUndef
  | VTrue
  | VNum (n : Z)
  | VRef (address : nat).

Definition obj := list (jsstring * value).
Abbreviation store := (list obj) (only parsing).

(** Truthiness of a value, as [if (v)] and [!!v] take it. *)
Definition truthy (v : value) : bool :=
  match v with
  | VUndef => false
  | VTrue => true
  | VNum n => negb (n =? 0)
  | VRef _ => true
  end.

(** A key that is a canonical array index (decimal digits, no leading
    zero, below 2^32 - 1): such keys are enumerated first, in numeric
    order. *)
Definition isDigit (c : N) : bool := ((48 <=? c) && (c <=? 57))%N.

Definition arrayIndex (k : jsstring) : option N :=
  match k with
  | [] => None
  | d :: rest =>
      if forallb isDigit k && (negb (d =? 48)%N || str_eqb rest [])
      then
        let n := fold_left (fun acc c => (acc * 10 + (c - 48))%N) k 0%N in
        if (n <? 4294967295)%N then Some n else None
      else None
  end.

(** [o[k]] on an object's own properties. *)
Fixpoint getOwn (o : obj) (k : jsstring) : value :=
  match o with
  | [] => VUndef
  | (k', v) :: rest => if str_eqb k' k then v else getOwn rest k
  end.

Definition hasOwn (o : obj) (k : jsstring) : bool :=
  existsb (fun p => str_eqb (fst p) k) o.

(** Where a new property goes: an array index before the first key that
    is no array index or a larger one, any other key at the end. *)
Fixpoint addProp (o : obj) (k : jsstring) (v : value) : obj :=
  match o with
  | [] => [(k, v)]
  | (k', v') :: rest =>
      match arrayIndex k, arrayIndex k' with
      | Some n, Some n' =>
          if (n <? n')%N then (k, v) :: o else (k', v') :: addProp rest k v
      | Some _, None => (k, v) :: o
      | None, _ => (k', v') :: addProp rest k v
      end
  end.

Fixpoint updProp (o : obj) (k : jsstring) (v : value) : obj :=
  match o with
  | [] => []
  | (k', v') :: rest =>
      if str_eqb k' k then (k', v) :: rest else (k', v') :: updProp rest k v
  end.

(** [o[k] = v]: an existing property keeps its place. *)
Definition setProp (o : obj) (k : jsstring) (v : value) : obj :=
  if hasOwn o k then updProp o k v else addProp o k v.

(** [delete o[k]] *)
Fixpoint deleteProp (o : obj) (k : jsstring) : obj :=
  match o with
  | [] => []
  | (k', v) :: rest =>
      if str_eqb k' k then deleteProp rest k else (k', v) :: deleteProp rest k
  end.

(** [Object.keys(o)], also the order of [for (key in o)]. *)
Definition keys (o : obj) : list jsstring := map fst o.

(** The object at an address. *)
Definition deref (h : store) (a : nat) : obj :=
  match h !! a with
  | Some o => o
  | None => []
  end.

(** [{}]: a fresh object and its address. *)
Definition alloc (h : store) : store * nat := (h ++ [[]], length h).

(** Property access on any value: a boolean or a number has no own
    property, and the prototypes have neither [flush] nor [index] nor
    single-character keys. *)
Definition getV (h : store) (v : value) (k : jsstring) : value :=
  match v with
  | VRef a => getOwn (deref h a) k
  | _ => VUndef
  end.

(** [Object.keys(v)] and [for (key in v)] on any value. *)
Definition keysV (h : store) (v : value) : list jsstring :=
  match v with
  | VRef a => keys (deref h a)
  | _ => []
  end.

End JsObject.
Export JsObject.

(** ** levenshtein.js *)

Module Levenshtein.

Definition revisionScore : Z := 1.
Definition additionScore : Z := 1.
Definition deletionScore : Z := 2.

(** Storing a number into an [Int32Array] element wraps it to 32 bits. *)
Definition toInt32 (z : Z) : Z := (z + 2 ^ 31) mod 2 ^ 32 - 2 ^ 31.

(** Reading an [Int32Array] element (never out of range below). *)
Definition rd (row : list Z) (j : nat) : Z := default 0 (row !! j).

(** [Math.min] of three numbers. *)
Definition min3 (a b c : Z) : Z := Z.min a (Z.min b c).

(** The first loop: [prevRow[j] = j] for [j = 0 .. target.length]. *)
Fixpoint init_row (cols : list nat) (row : list Z) : list Z :=
  match cols with
  | [] => row
  | j :: rest => init_row rest (<[j := toInt32 (Z.of_nat j)]> row)
  end.

(** The inner loop over [j = 1 .. target.length] for a fixed [i]. *)
Fixpoint inner (source target : jsstring) (i : nat) (cols : list nat)
    (prevRow currRow : list Z) : list Z :=
  match cols with
  | [] => currRow
  | j :: rest =>
      let revisionScoreConditional :=
        if negb (str_eqb (charAt source (i - 1)) (charAt target (j - 1)))
        then revisionScore else 0 in
      let v := min3 (rd prevRow (j - 1) + revisionScoreConditional)
                    (rd currRow (j - 1) + deletionScore)
                    (rd prevRow (j - 0) + additionScore) in
      inner source target i rest prevRow (<[j := toInt32 v]> currRow)
  end.

(** The outer loop over [i = 1 .. source.length]; the rows are swapped
    at the end of each round. *)
Fixpoint outer (source target : jsstring) (rows : list nat)
    (prevRow currRow : list Z) : list Z * list Z :=
  match rows with
  | [] => (prevRow, currRow)
  | i :: rest =>
      let currRow0 := <[0%nat := toInt32 (Z.of_nat i * additionScore)]> currRow in
      let currRow' :=
        inner source target i (seq 1 (length target)) prevRow currRow0 in
      outer source target rest currRow' prevRow
  end.

Definition levenshtein (source target : jsstring) (maximumDistance : Z) : Z :=
  if Z.abs (Z.of_nat (length source) - Z.of_nat (length target)) >? maximumDistance
  then maximumDistance + 1
  else
    let prevRow := init_row (seq 0 (length target + 1))
                            (replicate (length target + 1) 0) in
    let currRow := replicate (length target + 1) 0 in
    let '(prevRow', _) :=
      outer source target (seq 1 (length source)) prevRow currRow in
    rd prevRow' (length target).

(** The cost model in the documentation's words: the cheapest way to
    turn [source] into [target] when replacing a character costs
    [revisionScore], adding a character to the source costs
    [additionScore] and removing a character of the source costs
    [deletionScore]. *)
Fixpoint editCost (source : jsstring) : jsstring -> Z :=
  fix go (target : jsstring) : Z :=
    match source, target with
    | [], _ => Z.of_nat (length target) * additionScore
    | _, [] => Z.of_nat (length source) * deletionScore
    | a :: source', b :: target' =>
        min3 (editCost source' target' + (if (a =? b)%N then 0 else revisionScore))
             (editCost source' target + deletionScore)
             (go target' + additionScore)
    end.

End Levenshtein.


(** ** Double arithmetic *)

Module Float64.

(** The numbers of the language are doubles.  Where a result depends on
    the rounding of an operation, the operation is modelled: its exact
    result is rounded to the nearest double, a tie going to the even
    mantissa.  The range of the exponent is not modelled: the results
    are those of the language for magnitudes from 2^-1022 to below
    2^1024. *)

(** The integer nearest to [a / b] for [b > 0], a tie going to the even
    one. *)
Definition roundHalfEven (a b : Z) : Z :=
  let floor := a / b in
  match 2 * (a mod b) ?= b with
  | Lt => floor
  | Gt => floor + 1
  | Eq => if Z.even floor then floor else floor + 1
  end.

(** The double nearest to the positive rational [n / d]: the exponent
    [e] puts [n / d / 2^e] between 2^52 and 2^53, and the 53-bit
    mantissa is that value rounded. *)
Definition roundPositive (n d : positive) : Q :=
  let q := Z.pos n # d in
  let k := Z.log2 (Z.pos n) - Z.log2 (Z.pos d) - 53 in
  let e := if Qle_bool (2 ^ 53) (q * 2 ^ (- k)) then k + 1 else k in
  let r := (q * 2 ^ (- e))%Q in
  (inject_Z (roundHalfEven (Qnum r) (Z.pos (Qden r))) * 2 ^ e)%Q.

(** The value of the double nearest to [q], ties to even. *)
Definition round (q : Q) : Q :=
  match Qnum q with
  | 0 => 0%Q
  | Z.pos n => roundPositive n (Qden q)
  | Z.neg n => (- roundPositive n (Qden q))%Q
  end.

Definition add (x y : Q) : Q := round (x + y).
Definition sub (x y : Q) : Q := round (x - y).
Definition mul (x y : Q) : Q := round (x * y).
Definition div (x y : Q) : Q := round (x / y).

End Float64.

(** ** The Trie class *)

Module Trie.

(** What the constructor takes as [input]: a string, an array of
    strings, [undefined] or [null] (also what an argument without the
    property gives), or another value whose [constructor] is neither
    [String] nor [Array] (a number, a boolean, a plain object). *)
Inductive input : Type :=
  | InString (s : jsstring)
  | InArray (words : list jsstring)
  | InNullish
  | InOther.

(** The instance: the store of its nodes, [this.model] (the address of
    the root) and [this.index]. *)
Record t : Type := { heap : store; model : nat; index : Z }.

(** The class field [flush = null] is never assigned: as a key to
    compare with, [this.flush] is [null]. *)
Definition this_flush : option jsstring := None.

(** [key === this.flush] *)
Definition isFlushField (key : jsstring) : bool :=
  match this_flush with
  | Some f => str_eqb key f
  | None => false
  end.

Definition k_flush : jsstring := js "flush".
Definition k_index : jsstring := js "index".

(** Enough recursion depth for a store: a child lies at a higher address
    than its parent. *)
Definition fuelOf (h : store) : nat := S (length h).

Section Methods.
Context `{CaseMapping}.

(** The loop of [insert]: [node = node[character] ??= {}].  Creating a
    property on a boolean or a number throws in strict code. *)
Fixpoint insertWalk (characters : list jsstring) (h : store) (node : value)
    : result (store * value) :=
  match characters with
  | [] => Ok (h, node)
  | character :: rest =>
      match node with
      | VRef a =>
          match getOwn (deref h a) character with
          | VUndef =>
              let '(h1, b) := alloc h in
              insertWalk rest
                (<[a := setProp (deref h1 a) character (VRef b)]> h1) (VRef b)
          | v => insertWalk rest h v
          end
      | _ => Throw "TypeError"
      end
  end.

Definition insert (word : jsstring) (tr : t) : result t :=
  match insertWalk (codePoints (toLowerCase word)) (heap tr) (VRef (model tr)) with
  | Ok (h, VRef a) =>
      let o1 := setProp (deref h a) k_flush VTrue in
      let o2 := setProp o1 k_index (VNum (index tr + 1)) in
      Ok {| heap := <[a := o2]> h; model := model tr; index := index tr + 1 |}
  | Ok (_, _) => Throw "TypeError"
  | Throw m => Throw m
  end.

Fixpoint insertAll (words : list jsstring) (tr : t) : result t :=
  match words with
  | [] => Ok tr
  | i :: rest =>
      match insert i tr with
      | Ok tr' => insertAll rest tr'
      | Throw m => Throw m
      end
  end.

Definition tokenize (inp : input) (tr : t) : result t :=
  match inp with
  | InString s => insert s tr
  | InArray words => insertAll words tr
  | InNullish => Throw "TypeError"
  | InOther => Throw "Invalid constructor, must be String or Array"
  end.

(** [compress(node)]: the entries are a snapshot taken on entry; [None]
    when the recursion is deeper than [fuel]. *)
Fixpoint compress (fuel : nat) (h : store) (node : nat) : option store :=
  match fuel with
  | O => None
  | S fuel' =>
      fold_left
        (fun acc entry =>
           match acc, entry with
           | None, _ => None
           | Some h, (key, VRef childNode) =>
               if truthy (getOwn (deref h childNode) k_flush) then Some h
               else
                 let h1 :=
                   match keys (deref h childNode) with
                   | [k0] =>
                       let n1 := setProp (deref h node) (key ++ k0)
                                   (getOwn (deref h childNode) k0) in
                       <[node := deleteProp n1 key]> h
                   | _ => h
                   end in
                 compress fuel' h1 childNode
           | Some h, (_, _) => Some h
           end)
        (deref h node) (Some h)
  end.

(** [findWords(word, maxWord, node, list)]; the array [list] (here
    [found]) is shared by all the calls. *)
Fixpoint findWords (fuel : nat) (h : store) (word : jsstring) (maxWord : nat)
    (node : value) (found : list jsstring) : option (list jsstring) :=
  match fuel with
  | O => None
  | S fuel' =>
      if (maxWord <=? length found)%nat then Some found
      else
        let list1 :=
          if truthy (getV h node k_flush) then found ++ [word] else found in
        fold_left
          (fun acc character =>
             match acc with
             | None => None
             | Some l =>
                 findWords fuel' h (word ++ character) maxWord
                   (getV h node character) l
             end)
          (keysV h node) (Some list1)
  end.

(** The loop of [contains]: the first key of [node], in enumeration
    order, that the remaining word starts with is followed.  [None]
    when the loop runs longer than [fuel]. *)
Fixpoint containsLoop (fuel : nat) (h : store) (remainingWord : jsstring)
    (node : value) : option bool :=
  match fuel with
  | O => None
  | S fuel' =>
      if (0 <? length remainingWord)%nat && truthy node then
        match
          find (fun key =>
                  negb (isFlushField key) &&
                  str_eqb (substring_to (length key) remainingWord) key)
               (keysV h node)
        with
        | Some key =>
            containsLoop fuel' h (substring_from (length key) remainingWord)
              (getV h node key)
        | None => Some false
        end
      else
        Some ((length remainingWord =? 0)%nat && truthy (getV h node k_flush))
  end.

Definition contains (tr : t) (word : jsstring) : option bool :=
  let remainingWord := toLowerCase word in
  containsLoop (S (length remainingWord)) (heap tr) remainingWord
    (VRef (model tr)).

(** An element of the result of [levenshteinSearch]. *)
Record match_ : Type :=
  { m_word : jsstring; m_distance : Z; m_index : value }.

Fixpoint levenshteinSearch (fuel : nat) (h : store) (target : jsstring)
    (maxDistance : Z) (node : value) (word : jsstring)
    (results : list match_) : option (list match_) :=
  match fuel with
  | O => None
  | S fuel' =>
      let results1 :=
        if truthy (getV h node k_flush) then
          let distance := Levenshtein.levenshtein word target maxDistance in
          if distance <=? maxDistance
          then results ++ [{| m_word := word; m_distance := distance;
                              m_index := getV h node k_index |}]
          else results
        else results in
      fold_left
        (fun acc key =>
           match acc with
           | None => None
           | Some r =>
               if negb (isFlushField key)
               then levenshteinSearch fuel' h target maxDistance
                      (getV h node key) (word ++ key) r
               else Some r
           end)
        (keysV h node) (Some results1)
  end.

(** The comparator of [closest], in double arithmetic: [.01] is the
    double nearest to a hundredth, and the difference, the product and
    the sum are rounded. *)
Definition highIndexThreshold : Q := 5000.
Definition indexPenaltyFactor : Q := Float64.round (1 # 100).

Definition indexOf (m : match_) : Q :=
  match m_index m with VNum n => inject_Z n | _ => 0 end.

Definition adjustedDistance (m : match_) : Q :=
  Float64.add (inject_Z (m_distance m))
    (if Qle_bool (indexOf m) highIndexThreshold then 0
     else Float64.mul (Float64.sub (indexOf m) highIndexThreshold)
            indexPenaltyFactor).

Definition compareMatches (a b : match_) : Q :=
  if negb (Qeq_bool (adjustedDistance a) (adjustedDistance b))
  then Float64.sub (adjustedDistance a) (adjustedDistance b)
  else Float64.sub (indexOf a) (indexOf b).

(** [Array.prototype.sort] with a comparator: a stable sort. *)
Fixpoint sortInsert {A} (cmp : A -> A -> Q) (x : A) (l : list A) : list A :=
  match l with
  | [] => [x]
  | y :: rest =>
      if Qle_bool 0 (cmp x y) then y :: sortInsert cmp x rest else x :: l
  end.

Definition sort {A} (cmp : A -> A -> Q) (l : list A) : list A :=
  fold_left (fun acc x => sortInsert cmp x acc) l [].

Definition closest (tr : t) (target : jsstring) (maxDistance : Z)
    : option (list match_) :=
  match contains tr target with
  | None => None
  | Some true => Some []
  | Some false =>
      match levenshteinSearch (fuelOf (heap tr)) (heap tr) target maxDistance
              (VRef (model tr)) [] [] with
      | None => None
      | Some result => Some (sort compareMatches result)
      end
  end.

(** What [complete] returns: a word or [undefined] when [maxWord] is at
    most one, an array otherwise. *)
Inductive completion : Type :=
  | Undefined
  | Word (w : jsstring)
  | Words (l : list jsstring).

Definition notFound (maxWord : nat) : completion :=
  if (1 <? maxWord)%nat then Words [] else Undefined.

(** The loop of [complete]: [Some (inl r)] is the early return,
    [Some (inr (matchedPrefix, node))] the state at its normal end. *)
Fixpoint completeLoop (fuel : nat) (h : store) (prefixLower : jsstring)
    (maxWord idx : nat) (matchedPrefix : jsstring) (node : value)
    : option (completion + jsstring * value) :=
  match fuel with
  | O => None
  | S fuel' =>
      if (idx <? length prefixLower)%nat then
        let segment := substring_from idx prefixLower in
        match
          find (fun key => startsWith key segment || startsWith segment key)
               (keysV h node)
        with
        | Some (c :: k) =>
            let matchingKey := c :: k in
            completeLoop fuel' h prefixLower maxWord
              (idx + length matchingKey) (matchedPrefix ++ matchingKey)
              (getV h node matchingKey)
        | _ => Some (inl (notFound maxWord))
        end
      else Some (inr (matchedPrefix, node))
  end.

(** [complete(prefix, maxWord)] for a string [prefix] (any other
    argument throws) and a number of words [maxWord]. *)
Definition complete (tr : t) (prefix : jsstring) (maxWord : nat)
    : option completion :=
  if str_eqb prefix [] then Some (notFound maxWord)
  else
    let prefixLower := toLowerCase prefix in
    match completeLoop (S (length prefixLower)) (heap tr) prefixLower maxWord
            0 [] (VRef (model tr)) with
    | None => None
    | Some (inl r) => Some r
    | Some (inr (matchedPrefix, node)) =>
        match findWords (fuelOf (heap tr)) (heap tr) matchedPrefix maxWord
                node [] with
        | None => None
        | Some found =>
            Some (if (1 <? maxWord)%nat then Words found
                  else match found with
                       | w :: _ => Word w
                       | [] => Undefined
                       end)
        end
    end.

(** The constructor: an empty root, the words inserted, one [compress]. *)
Definition create (inp : input) : option (result t) :=
  let this := {| heap := [[]]; model := 0; index := 0 |} in
  match tokenize inp this with
  | Throw m => Some (Throw m)
  | Ok tr =>
      match compress (fuelOf (heap tr)) (heap tr) (model tr) with
      | None => None
      | Some h => Some (Ok {| heap := h; model := model tr; index := index tr |})
      end
  end.

(** [compress()] called on an instance. *)
Definition compressed (tr : t) : option t :=
  match compress (fuelOf (heap tr)) (heap tr) (model tr) with
  | None => None
  | Some h => Some {| heap := h; model := model tr; index := index tr |}
  end.

End Methods.

End Trie.

(** ** JavaScript numbers and arrays, as ngram.js uses them *)

Module JsNumber.

(** A number: a rational, [NaN] or an infinity.  Arithmetic is exact,
    which is what doubles compute on integers below 2^53; the doubles
    of the quotients of such integers compare as the quotients do. *)
Inductive number : Type :=
  | Fin (q : Q)
  | NaN
  | PosInf
  | NegInf.

Definition ofNat (n : nat) : number := Fin (inject_Z (Z.of_nat n)).

Definition nneg (a : number) : number :=
  match a with
  | Fin q => Fin (- q)
  | NaN => NaN
  | PosInf => NegInf
  | NegInf => PosInf
  end.

Definition nadd (a b : number) : number :=
  match a, b with
  | NaN, _ | _, NaN => NaN
  | PosInf, NegInf | NegInf, PosInf => NaN
  | PosInf, _ | _, PosInf => PosInf
  | NegInf, _ | _, NegInf => NegInf
  | Fin p, Fin q => Fin (p + q)
  end.

Definition nsub (a b : number) : number := nadd a (nneg b).

(** [a <= b]: false as soon as one side is [NaN]. *)
Definition nle (a b : number) : bool :=
  match a, b with
  | NaN, _ | _, NaN => false
  | NegInf, _ | _, PosInf => true
  | PosInf, _ | _, NegInf => false
  | Fin p, Fin q => Qle_bool p q
  end.

(** An integer or an infinity: what [ToIntegerOrInfinity] yields. *)
Inductive integer : Type :=
  | Int (z : Z)
  | IPosInf
  | INegInf.

Definition truncate (q : Q) : Z :=
  if Qle_bool 0 q then Qfloor q else Qceiling q.

Definition toIntegerOrInfinity (a : number) : integer :=
  match a with
  | Fin q => Int (truncate q)
  | NaN => Int 0
  | PosInf => IPosInf
  | NegInf => INegInf
  end.

(** A relative index of [slice] clamped into [0 .. len]. *)
Definition clampIndex (len : nat) (i : integer) : nat :=
  match i with
  | Int z =>
      if z <? 0 then Z.to_nat (Z.max (Z.of_nat len + z) 0)
      else Z.to_nat (Z.min z (Z.of_nat len))
  | IPosInf => len
  | INegInf => 0%nat
  end.

(** [a.slice(start, end)], [a.slice(start)] *)
Definition slice {A} (a : list A) (start stop : number) : list A :=
  let k := clampIndex (length a) (toIntegerOrInfinity start) in
  let e := clampIndex (length a) (toIntegerOrInfinity stop) in
  take (e - k) (drop k a).

Definition sliceFrom {A} (a : list A) (start : number) : list A :=
  drop (clampIndex (length a) (toIntegerOrInfinity start)) a.

End JsNumber.
Export JsNumber.

(** ** Splitting and trimming text *)

Module JsText.

(** The code units the class [\s] matches, which are also those [trim]
    strips. *)
Definition isWhiteSpace (c : N) : bool :=
  (((9 <=? c) && (c <=? 13)) || (c =? 32) || (c =? 160) || (c =? 5760)
   || ((8192 <=? c) && (c <=? 8202)) || (c =? 8232) || (c =? 8233)
   || (c =? 8239) || (c =? 8287) || (c =? 12288) || (c =? 65279))%N.

(** [text.split(/\s+/)], reading [s] with the piece [current] begun;
    [inRun] says that the previous unit was white space. *)
Fixpoint splitRuns (s current : jsstring) (inRun : bool) : list jsstring :=
  match s with
  | [] => [current]
  | c :: rest =>
      if isWhiteSpace c then
        if inRun then splitRuns rest [] true
        else current :: splitRuns rest [] true
      else splitRuns rest (current ++ [c]) false
  end.

Definition splitWhiteSpace (text : jsstring) : list jsstring :=
  splitRuns text [] false.

(** [s.split(' ')] *)
Fixpoint splitAt (sep : N) (s current : jsstring) : list jsstring :=
  match s with
  | [] => [current]
  | c :: rest =>
      if (c =? sep)%N then current :: splitAt sep rest []
      else splitAt sep rest (current ++ [c])
  end.

Definition splitSpace (s : jsstring) : list jsstring := splitAt 32%N s [].

Definition space : jsstring := [32%N].

(** [s.trim()] *)
Fixpoint trimStart (s : jsstring) : jsstring :=
  match s with
  | c :: rest => if isWhiteSpace c then trimStart rest else s
  | [] => []
  end.

Definition trim (s : jsstring) : jsstring :=
  rev (trimStart (rev (trimStart s))).

(** [s.replace(c, '')] for a one-unit string [c]: the first occurrence
    goes. *)
Fixpoint removeFirst (c : N) (s : jsstring) : jsstring :=
  match s with
  | [] => []
  | d :: rest => if (d =? c)%N then rest else d :: removeFirst c rest
  end.

End JsText.
Export JsText.

(** ** The Ngram class *)

Module Ngram.

(** An argument of the constructor. *)
Inductive jsvalue : Type :=
  | JUndefined
  | JString (s : jsstring)
  | JNumber (n : number)
  | JArray (items : list jsstring)
  | JOther.

(** A [Map] with string keys: its entries in insertion order. *)
Definition mapGet {V} (m : list (jsstring * V)) (k : jsstring) : option V :=
  snd <$> find (fun e => str_eqb (fst e) k) m.

Fixpoint mapSet {V} (m : list (jsstring * V)) (k : jsstring) (v : V)
    : list (jsstring * V) :=
  match m with
  | [] => [(k, v)]
  | (k', v') :: rest =>
      if str_eqb k' k then (k', v) :: rest else (k', v') :: mapSet rest k v
  end.

(** The instance: [this.size], [this.model] and [this.lookup]. *)
Record t : Type :=
  { size : number; model : list (jsstring * Q); lookup : jsstring }.

(** The reserved end marker, U+2403. *)
Definition endMarker : N := 9219%N.

(** [Ngram.punctuation.test(word)] for [/[.!?␃]$/]. *)
Definition isEndOfSentence (word : jsstring) : bool :=
  match last word with
  | Some c => ((c =? 46) || (c =? 33) || (c =? 63) || (c =? endMarker))%N
  | None => false
  end.

(** [word.replace(Ngram.punctuation, '')] *)
Definition stripPunctuation (word : jsstring) : jsstring :=
  if isEndOfSentence word then removelast word else word.

Definition tokenize (text : jsvalue) : result (list jsstring) :=
  match text with
  | JString s => Ok (splitWhiteSpace s)
  | _ => Throw "Invalid constructor, must be String"
  end.

(** The loop of [tabulate] over [i = 0, 1, ...] until its condition
    fails. *)
Fixpoint tabulateLoop (tokens : list jsstring) (size : number)
    (indices : list nat) (ngrams : list (jsstring * Z))
    : list (jsstring * Z) :=
  match indices with
  | [] => ngrams
  | i :: rest =>
      if nle (ofNat i) (nsub (ofNat (length tokens)) size) then
        if existsb isEndOfSentence
             (slice tokens (ofNat i) (nsub (nadd (ofNat i) size) (Fin 1)))
        then tabulateLoop tokens size rest ngrams
        else
          let ngram := join space (slice tokens (ofNat i) (nadd (ofNat i) size)) in
          tabulateLoop tokens size rest
            (mapSet ngrams (removeFirst endMarker ngram)
               (default 0 (mapGet ngrams ngram) + 1))
      else ngrams
  end.

(** [tabulate(tokens, size)]: once [size <= 0] is excluded the loop
    condition fails at [i = tokens.length] at the latest. *)
Definition tabulate (tokens : list jsstring) (size : jsvalue)
    : result (list (jsstring * Z)) :=
  match size with
  | JNumber n =>
      if nle n (Fin 0)
      then Throw "Invalid n value, must be a positive number"
      else Ok (tabulateLoop tokens n (seq 0 (S (length tokens))) [])
  | _ => Throw "Invalid n value, must be a positive number"
  end.

(** [probabilities(grams)].  A probability is kept as the exact quotient
    [count / totalNgrams]; the double the division stores is
    [Float64.round] of it ([NgramCount.storedModel]). *)
Definition probabilities (grams : list (jsstring * Z)) : list (jsstring * Q) :=
  let totalNgrams := fold_left (fun sum count => sum + count) (map snd grams) 0 in
  fold_left
    (fun m e => mapSet m (fst e) (inject_Z (snd e) / inject_Z totalNgrams)%Q)
    grams [].

(** [new Ngram({ input, size = 4 })] *)
Definition create (input size : jsvalue) : result t :=
  let size := match size with JUndefined => JNumber (Fin 4) | v => v end in
  match tokenize input with
  | Throw m => Throw m
  | Ok tokens =>
      match tabulate tokens size, size with
      | Ok grams, JNumber n =>
          Ok {| size := n; model := probabilities grams; lookup := [] |}
      | Ok _, _ => Throw "Invalid n value, must be a positive number"
      | Throw m, _ => Throw m
      end
  end.

Section Methods.
Context `{CaseMapping}.

(** The scan of [suggestNextWord] over the entries of the model. *)
Fixpoint suggestLoop (entries : list (jsstring * Q)) (sequence : jsstring)
    (maxProbability : Q) (suggestedWord : jsstring) : jsstring :=
  match entries with
  | [] => suggestedWord
  | (ngram, probability) :: rest =>
      if Qle_bool probability maxProbability
      then suggestLoop rest sequence maxProbability suggestedWord
      else
        let words := splitSpace ngram in
        let match_ := join space (slice words (Fin 0) (Fin (-1))) in
        if endsWith (toLowerCase sequence) (toLowerCase match_) then
          if Qeq_bool probability 1 then List.last words []
          else suggestLoop rest sequence probability (List.last words [])
        else suggestLoop rest sequence maxProbability suggestedWord
  end.

Definition suggestNextWord (this : t) (sequence : jsstring) (sanitize : bool)
    : jsstring :=
  let suggestedWord := suggestLoop (model this) sequence 0 [] in
  if sanitize then stripPunctuation (trim suggestedWord) else suggestedWord.

(** The loop of [complete], with [n] rounds left. *)
Fixpoint completeLoop (this : t) (n : nat) (words seenSequences : list jsstring)
    : list jsstring :=
  match n with
  | O => words
  | S n' =>
      let index := nsub (size this) (Fin 1) in
      let sequence := join space (sliceFrom words (nneg index)) in
      if existsb (str_eqb sequence) seenSequences then words
      else
        let nextWord := suggestNextWord this sequence true in
        if isEndOfSentence nextWord then words ++ [nextWord]
        else if str_eqb nextWord [] then words
        else completeLoop this n' (words ++ [nextWord])
               (seenSequences ++ [sequence])
  end.

(** [complete(prefix, maxWords)] for a string [prefix]: the value
    returned and the instance afterwards. *)
Definition complete (this : t) (prefix : jsstring) (maxWords : nat)
    : jsstring * t :=
  let words := splitWhiteSpace prefix in
  if str_eqb prefix [] then
    ([], {| size := size this; model := model this; lookup := [] |})
  else
    let suggestion := join space (completeLoop this maxWords words []) in
    let lookup1 :=
      if negb (str_eqb suggestion prefix)
         && negb (str_eqb suggestion (lookup this))
         && startsWith suggestion prefix
      then suggestion else lookup this in
    let this1 := {| size := size this; model := model this; lookup := lookup1 |} in
    if negb (str_eqb lookup1 []) && startsWith lookup1 prefix
    then (lookup1, this1) else (suggestion, this1).

End Methods.

End Ngram.


(** ** The documentation's conditions on the constructor's arguments *)

Module NgramSpec.
Import Ngram.

(** The input is textual: source text or a token array. *)
Definition textual (input : jsvalue) : Prop :=
  match input with
  | JString _ | JArray _ => True
  | _ => False
  end.

(** The window size is a positive integer (the default is 4). *)
Definition positiveInteger (size : jsvalue) : Prop :=
  match size with
  | JUndefined => True
  | JNumber (Fin q) => exists z : Z, 0 < z /\ (q == inject_Z z)%Q
  | _ => False
  end.

(** What the constructor checks for, in the words of its messages: the
    input is a string and the size (4 when absent) a positive number. *)
Definition acceptedInput (input : jsvalue) : Prop :=
  exists s, input = JString s.

Definition positiveNumber (n : number) : Prop :=
  match n with
  | Fin q => (0 < q)%Q
  | PosInf => True
  | NaN | NegInf => False
  end.

Definition acceptedSize (size : jsvalue) : Prop :=
  size = JUndefined \/ exists n, size = JNumber n /\ positiveNumber n.

(** The window of [n] tokens at position [i], and whether one of its
    first [n - 1] tokens ends a sentence. *)
Definition window (tokens : list jsstring) (n i : nat) : list jsstring :=
  take n (drop i tokens).

Definition contextEndsSentence (tokens : list jsstring) (n i : nat) : bool :=
  existsb isEndOfSentence (take (n - 1) (drop i tokens)).

(** One more occurrence of an n-gram in the table, as [tabulate] notes
    it. *)
Definition tally (ngrams : list (jsstring * Z)) (ngram : jsstring)
    : list (jsstring * Z) :=
  mapSet ngrams (removeFirst endMarker ngram)
    (default 0 (mapGet ngrams ngram) + 1).

(** The windows counted: those at the positions [0 .. length - n] whose
    context ends no sentence. *)
Definition countedWindows (tokens : list jsstring) (n : nat) : list jsstring :=
  map (fun i => join space (window tokens n i))
    (List.filter (fun i => negb (contextEndsSentence tokens n i))
       (seq 0 (length tokens + 1 - n))).

(** The leading tokens of an n-gram (all but the last), its final
    token, and whether a sequence ends with the leading tokens, case
    ignored. *)
Definition leadingTokens (ngram : jsstring) : jsstring :=
  join space (slice (splitSpace ngram) (Fin 0) (Fin (-1))).

Definition finalToken (ngram : jsstring) : jsstring :=
  List.last (splitSpace ngram) [].

Definition suffixMatches `{CaseMapping} (sequence ngram : jsstring) : bool :=
  endsWith (toLowerCase sequence) (toLowerCase (leadingTokens ngram)).

(** The entry at position [i] is the first of the highest probability
    among the entries of [entries] that match [sequence]. *)
Definition firstBestMatch `{CaseMapping} (entries : list (jsstring * Q))
    (sequence : jsstring) (i : nat) (ngram : jsstring) (p : Q) : Prop :=
  entries !! i = Some (ngram, p) /\
  suffixMatches sequence ngram = true /\
  (forall j e, entries !! j = Some e ->
     suffixMatches sequence (fst e) = true -> (snd e <= p)%Q) /\
  (forall j e, (j < i)%nat -> entries !! j = Some e ->
     suffixMatches sequence (fst e) = true -> (snd e < p)%Q).

End NgramSpec.

(** ** Invariants of the trie's store *)

Module TrieInv.
Import Trie.

(** The words the constructor inserts. *)
Definition inputWords (inp : input) : list jsstring :=
  match inp with
  | InString s => [s]
  | InArray words => words
  | InNullish | InOther => []
  end.

(** The elements of what [complete] returns. *)
Definition elements (c : completion) : list jsstring :=
  match c with
  | Undefined => []
  | Word w => [w]
  | Words l => l
  end.

(** A key made by [insert]: one code point. *)
Definition codePointKey (k : jsstring) : Prop :=
  k <> [] /\ (length k <= 2)%nat.

(** The path of an object: the keys [insert] followed from the root to
    create it.  [below path x y]: the path of [y] extends that of [x]. *)
Definition below (path : nat -> list jsstring) (x y : nat) : Prop :=
  exists p, path y = path x ++ p.

(** After the insertions: a property [k: v] of the object at [a] is an
    edge to a younger object one code point further, the word-end mark
    of an inserted word, or the index next to such a mark. *)
Definition insertedProp (path : nat -> list jsstring) (W : list jsstring)
    (h : store) (a : nat) (o : obj) (k : jsstring) (v : value) : Prop :=
  match v with
  | VRef b =>
      (a < b < length h)%nat /\ path b = path a ++ [k] /\ codePointKey k
  | VTrue => k = k_flush /\ In (concat (path a)) W
  | VNum _ => k = k_index /\ In (k_flush, VTrue) o
  | VUndef => False
  end.

Definition insertedInv (path : nat -> list jsstring) (W : list jsstring)
    (h : store) : Prop :=
  forall a o, h !! a = Some o ->
    List.NoDup (keys o) /\
    forall k v, In (k, v) o -> insertedProp path W h a o k v.

(** During and after [compress]: an edge spans one or two of the keys
    of [insert]. *)
Definition compressedProp (path : nat -> list jsstring) (W : list jsstring)
    (h : store) (a : nat) (k : jsstring) (v : value) : Prop :=
  match v with
  | VRef b =>
      (a < b < length h)%nat /\
      exists p, path b = path a ++ p /\ k = concat p /\
                p <> [] /\ (length p <= 2)%nat /\ Forall codePointKey p
  | VTrue => k = k_flush /\ In (concat (path a)) W
  | VNum _ => k = k_index
  | VUndef => False
  end.

Definition compressedInv (path : nat -> list jsstring) (W : list jsstring)
    (h : store) : Prop :=
  forall a o k v, h !! a = Some o -> In (k, v) o ->
    compressedProp path W h a k v.

End TrieInv.

(** ** The recurrence behind the two rows of [levenshtein] *)

Module LevenshteinSpec.
Import Levenshtein.

(** [revisionScoreConditional] for the characters at [i] and [j]. *)
Definition differ (source target : jsstring) (i j : nat) : Z :=
  if negb (str_eqb (charAt source i) (charAt target j))
  then revisionScore else 0.

(** The entry of the distance matrix for the first [i] characters of
    the source and the first [j] of the target, as the loops fill it:
    the first row holds [j], the first column [i * additionScore], and
    an inner entry the least of its three neighbours' sums. *)
Fixpoint cell (source target : jsstring) (i : nat) : nat -> Z :=
  fix go (j : nat) : Z :=
    match i, j with
    | O, _ => Z.of_nat j
    | _, O => Z.of_nat i * additionScore
    | S i', S j' =>
        min3 (cell source target i' j' + differ source target i' j')
             (go j' + deletionScore)
             (cell source target i' (S j') + additionScore)
    end.

(** A row of the matrix held in an [Int32Array] of [target.length + 1]
    elements. *)
Definition isRow (source target : jsstring) (i : nat) (row : list Z) : Prop :=
  length row = S (length target) /\
  forall j, (j <= length target)%nat -> rd row j = cell source target i j.

End LevenshteinSpec.

(** ** The ranking of [closest] *)

Module TrieSpec.
Import Trie.

(** [a] is ranked no later than [b]: a smaller adjusted distance, or
    the same and an index that is not larger. *)
Definition ranksBefore (a b : match_) : Prop :=
  (adjustedDistance a < adjustedDistance b)%Q \/
  ((adjustedDistance a == adjustedDistance b)%Q /\ (indexOf a <= indexOf b)%Q).

End TrieSpec.

(** ** Routes through the trie *)

Module TrieRoutes.
Import Trie.

(** [route h a w b]: following own properties that hold objects leads
    from the object at [a] to the object at [b], and the keys followed
    spell [w]. *)
Inductive route (h : store) : nat -> jsstring -> nat -> Prop :=
  | route_here (a : nat) : route h a [] a
  | route_step (a : nat) (key : jsstring) (c : nat) (w : jsstring) (b : nat) :
      getOwn (deref h a) key = VRef c -> route h c w b ->
      route h a (key ++ w) b.

(** The object at [b] is marked as the end of a word. *)
Definition wordEnd (h : store) (b : nat) : Prop :=
  truthy (getOwn (deref h b) k_flush) = true.

(** The paths of the objects are sequences of code points as the string
    iterator yields them. *)
Definition canonical (path : nat -> list jsstring) (h : store) : Prop :=
  forall a, (a < length h)%nat -> codePoints (concat (path a)) = path a.

(** The edges and the word ends of [h] are still there in [h']. *)
Definition extends (h h' : store) : Prop :=
  (forall y key c, getOwn (deref h y) key = VRef c ->
     getOwn (deref h' y) key = VRef c) /\
  (forall y, wordEnd h y -> wordEnd h' y).

(** The words found at the end of a route from the root. *)
Definition stored (h : store) (root : nat) (w : jsstring) : Prop :=
  exists b, route h root w b /\ wordEnd h b.

End TrieRoutes.

(** ** Counting windows and tokens *)

Module NgramCount.
Import Ngram.

(** A token as [tokenize] makes them inside a text: not empty, no white
    space. *)
Definition isToken (token : jsstring) : Prop :=
  token <> [] /\ forallb (fun c => negb (isWhiteSpace c)) token = true.

(** The number of elements of [l] equal to [key]. *)
Definition countOf (key : jsstring) (l : list jsstring) : Z :=
  Z.of_nat (length (List.filter (fun w => str_eqb w key) l)).

(** The sum of a list of probabilities. *)
Definition total (ps : list Q) : Q := fold_right Qplus 0%Q ps.

(** The table that [probabilities] stores for the quotients of a
    model, and its doubles: each division rounds once. *)
Definition storedModel (model : list (jsstring * Q)) : list (jsstring * Q) :=
  map (fun e => (fst e, Float64.round (snd e))) model.

Definition storedDoubles (model : list (jsstring * Q)) : list Q :=
  map snd (storedModel model).

(** [totalNgrams]: the sum of the counts of a table. *)
Definition counted (grams : list (jsstring * Z)) : Z :=
  fold_left (fun sum count => sum + count) (map snd grams) 0.
(** The probability of a count [c] in a table of [T] n-grams. *)
Definition quotient (T c : Z) : Q := (inject_Z c / inject_Z T)%Q.

(** The instance with the doubles that the code stores in its table. *)
Definition withDoubles (this : t) : t :=
  {| size := size this; model := storedModel (model this);
     lookup := lookup this |}.

End NgramCount.

(** * Properties *)

#[local] Existing Instance latin1.

(** ** Strings *)

Lemma str_eqb_eq (a b : jsstring) : str_eqb a b = true <-> a = b.
Proof.
  revert b. induction a as [|c a IH]; intros [|d b]; simpl;
    try (split; [discriminate|congruence]); [tauto|].
  rewrite andb_true_iff, N.eqb_eq, IH. split; [intros [-> ->]|intros [= -> ->]]; auto.
Qed.

Lemma str_eqb_neq (a b : jsstring) : str_eqb a b = false <-> a <> b.
Proof.
  rewrite <- str_eqb_eq. destruct (str_eqb a b); split; congruence.
Qed.

Lemma str_eqb_refl (a : jsstring) : str_eqb a a = true.
Proof. now apply str_eqb_eq. Qed.

Lemma startsWith_spec (s p : jsstring) :
  startsWith s p = true <-> exists r, s = p ++ r.
Proof.
  revert s. induction p as [|c p IH]; intros s; simpl.
  - split; [intros _; now exists s|intros _; now destruct s].
  - destruct s as [|d s].
    + split; [discriminate|intros [r Hr]; discriminate].
    + simpl. rewrite andb_true_iff, N.eqb_eq, IH. split.
      * intros [-> [r ->]]. now exists r.
      * intros [r [= -> ->]]. split; [reflexivity|now exists r].
Qed.

(** ** Property lists *)

Lemma getOwn_In (o : obj) (k : jsstring) :
  getOwn o k <> VUndef -> In (k, getOwn o k) o.
Proof.
  induction o as [|[k' v] o IH]; simpl; [congruence|].
  destruct (str_eqb k' k) eqn:E.
  - apply str_eqb_eq in E. subst. now left.
  - intros Hne. right. now apply IH.
Qed.

Lemma In_keys (o : obj) (k : jsstring) :
  In k (keys o) <-> exists v, In (k, v) o.
Proof.
  unfold keys. rewrite in_map_iff. split.
  - intros [[k' v] [<- Hin]]. now exists v.
  - intros [v Hin]. now exists (k, v).
Qed.

Lemma getOwn_key (o : obj) (k : jsstring) :
  In k (keys o) -> getOwn o k <> VUndef \/ In (k, VUndef) o.
Proof.
  induction o as [|[k' v] o IH]; simpl; [tauto|].
  destruct (str_eqb k' k) eqn:E.
  - apply str_eqb_eq in E. subst. intros _.
    destruct v; try (left; discriminate). right. now left.
  - intros [Hk|Hk]; [apply str_eqb_neq in E; congruence|].
    destruct (IH Hk) as [Hne|Hin]; [now left|right; now right].
Qed.

Lemma hasOwn_keys (o : obj) (k : jsstring) :
  hasOwn o k = true <-> In k (keys o).
Proof.
  unfold hasOwn, keys. rewrite existsb_exists, in_map_iff. split.
  - intros [e [He Hk]]. apply str_eqb_eq in Hk. eauto.
  - intros [e [He Hk]]. exists e. split; [assumption|]. now apply str_eqb_eq.
Qed.

Lemma updProp_In (o : obj) (k : jsstring) (v : value) e :
  In e (updProp o k v) -> e = (k, v) \/ In e o.
Proof.
  induction o as [|[k' v'] o IH]; simpl; [tauto|].
  destruct (str_eqb k' k) eqn:E; simpl.
  - apply str_eqb_eq in E. subst. intros [<-|He]; [now left|now right; right].
  - intros [<-|He]; [now right; left|].
    destruct (IH He); [now left|now right; right].
Qed.

Lemma updProp_keys (o : obj) (k : jsstring) (v : value) :
  keys (updProp o k v) = keys o.
Proof.
  induction o as [|[k' v'] o IH]; simpl; [reflexivity|].
  destruct (str_eqb k' k); simpl; [reflexivity|now rewrite IH].
Qed.

Lemma addProp_In (o : obj) (k : jsstring) (v : value) e :
  In e (addProp o k v) <-> e = (k, v) \/ In e o.
Proof.
  induction o as [|[k' v'] o IH]; simpl; [intuition congruence|].
  destruct (arrayIndex k) as [n|]; [destruct (arrayIndex k') as [n'|]|].
  - destruct (n <? n')%N; simpl; [intuition congruence|].
    rewrite IH. intuition congruence.
  - simpl. intuition congruence.
  - simpl. rewrite IH. intuition congruence.
Qed.

Lemma addProp_length (o : obj) (k : jsstring) (v : value) :
  length (addProp o k v) = S (length o).
Proof.
  induction o as [|[k' v'] o IH]; simpl; [reflexivity|].
  destruct (arrayIndex k) as [n|]; [destruct (arrayIndex k') as [n'|]|];
    try destruct (n <? n')%N; simpl; congruence.
Qed.

Lemma addProp_NoDup (o : obj) (k : jsstring) (v : value) :
  ~ In k (keys o) -> List.NoDup (keys o) -> List.NoDup (keys (addProp o k v)).
Proof.
  intros Hk Hnd.
  apply (List.NoDup_incl_NoDup (l := k :: keys o)).
  - now constructor.
  - unfold keys. simpl. rewrite !List.length_map, addProp_length. lia.
  - intros k' [<-|Hk'].
    + apply In_keys. exists v. apply addProp_In. now left.
    + apply In_keys in Hk'. destruct Hk' as [v' Hin].
      apply In_keys. exists v'. apply addProp_In. now right.
Qed.

Lemma setProp_In (o : obj) (k : jsstring) (v : value) e :
  In e (setProp o k v) -> e = (k, v) \/ In e o.
Proof.
  unfold setProp. destruct (hasOwn o k).
  - apply updProp_In.
  - apply addProp_In.
Qed.

Lemma setProp_new (o : obj) (k : jsstring) (v : value) :
  In (k, v) (setProp o k v) \/ exists v', In (k, v') o.
Proof.
  unfold setProp. destruct (hasOwn o k) eqn:E.
  - right. apply hasOwn_keys in E. now apply In_keys.
  - left. apply addProp_In. now left.
Qed.

Lemma setProp_NoDup (o : obj) (k : jsstring) (v : value) :
  List.NoDup (keys o) -> List.NoDup (keys (setProp o k v)).
Proof.
  unfold setProp. destruct (hasOwn o k) eqn:E.
  - now rewrite updProp_keys.
  - apply addProp_NoDup. intros Hk. apply hasOwn_keys in Hk. congruence.
Qed.

Lemma deleteProp_In (o : obj) (k : jsstring) e :
  In e (deleteProp o k) -> In e o.
Proof.
  induction o as [|[k' v'] o IH]; simpl; [tauto|].
  destruct (str_eqb k' k); simpl; intuition.
Qed.

Lemma setProp_In_new (o : obj) (k : jsstring) (v : value) :
  In (k, v) (setProp o k v).
Proof.
  unfold setProp. destruct (hasOwn o k) eqn:E.
  - apply hasOwn_keys in E. induction o as [|[k' v'] o IH]; simpl in *; [tauto|].
    destruct (str_eqb k' k) eqn:Ek.
    + apply str_eqb_eq in Ek. subst. now left.
    + right. apply IH. destruct E as [E|E]; [|assumption].
      apply str_eqb_neq in Ek. congruence.
  - apply addProp_In. now left.
Qed.

Lemma setProp_old (o : obj) (k k' : jsstring) (v v' : value) :
  In (k', v') o -> k' <> k -> In (k', v') (setProp o k v).
Proof.
  intros Hin Hne. unfold setProp. destruct (hasOwn o k).
  - induction o as [|[k1 v1] o IH]; simpl in *; [tauto|].
    destruct (str_eqb k1 k) eqn:Ek.
    + apply str_eqb_eq in Ek. subst.
      destruct Hin as [[= -> ->]|Hin]; [congruence|now right].
    + destruct Hin as [Hin|Hin]; [now left|right; now apply IH].
  - apply addProp_In. now right.
Qed.

(** ** The store *)

Lemma deref_lookup (h : store) (a : nat) (o : obj) :
  h !! a = Some o -> deref h a = o.
Proof. unfold deref. now intros ->. Qed.

Lemma lookup_store (h : store) (a : nat) :
  (a < length h)%nat -> h !! a = Some (deref h a).
Proof.
  intros Ha. unfold deref.
  destruct (h !! a) eqn:E; [reflexivity|].
  apply lookup_ge_None in E. lia.
Qed.

Lemma lookup_write (h : store) (a y : nat) (o o' : obj) :
  <[a := o]> h !! y = Some o' ->
  (y = a /\ o' = o /\ (a < length h)%nat) \/ (y <> a /\ h !! y = Some o').
Proof.
  intros Hl. destruct (Nat.eq_dec y a) as [->|Hne].
  - left. assert (Ha : (a < length h)%nat).
    { apply lookup_lt_Some in Hl. now rewrite length_insert in Hl. }
    rewrite list_lookup_insert_eq in Hl by assumption. now injection Hl as <-.
  - right. split; [assumption|].
    now rewrite list_lookup_insert_ne in Hl by congruence.
Qed.

(** ** Code points *)

Lemma codePoints_step (s : jsstring) :
  s <> [] ->
  exists c rest, codePoints s = c :: codePoints rest /\ s = c ++ rest /\
    c <> [] /\ (length c <= 2)%nat.
Proof.
  destruct s as [|c [|d rest]]; [congruence| |]; intros _.
  - exists [c], []. repeat split; simpl; (congruence || lia).
  - simpl. destruct (isHighSurrogate c && isLowSurrogate d).
    + exists [c; d], rest. repeat split; simpl; (congruence || lia).
    + exists [c], (d :: rest). repeat split; simpl; (congruence || lia).
Qed.

Lemma codePoints_spec (s : jsstring) :
  concat (codePoints s) = s /\
  Forall (fun k => k <> [] /\ (length k <= 2)%nat) (codePoints s).
Proof.
  remember (length s) as n eqn:Hn. revert s Hn.
  induction n as [n IH] using lt_wf_ind. intros s Hn.
  destruct s as [|c0 s0]; [split; [reflexivity|constructor]|].
  destruct (codePoints_step (c0 :: s0)) as [c [rest [Hcp [Hs [Hc Hlen]]]]];
    [discriminate|].
  rewrite Hcp, Hs.
  assert (Hlt : (length rest < n)%nat).
  { rewrite Hn, Hs, length_app. destruct c; [congruence|simpl; lia]. }
  destruct (IH (length rest) Hlt rest eq_refl) as [Hconcat Hall].
  split.
  - simpl. now rewrite Hconcat.
  - constructor; [split; assumption|assumption].
Qed.

(** ** Rounding to a double *)

Module Float64Facts.
Import Float64.

Lemma roundHalfEven_near (a b : Z) :
  0 < b -> - b <= 2 * (roundHalfEven a b * b - a) <= b.
Proof.
  intros Hb. unfold roundHalfEven.
  pose proof (Z.div_mod a b ltac:(lia)) as Hdiv.
  pose proof (Z.mod_pos_bound a b Hb) as Hmod.
  destruct (Z.compare_spec (2 * (a mod b)) b) as [E|E|E];
    [destruct (Z.even (a / b))| |]; nia.
Qed.

Lemma roundHalfEven_error (r : Q) :
  (Qabs (inject_Z (roundHalfEven (Qnum r) (Z.pos (Qden r))) - r) <= 1 # 2)%Q.
Proof.
  destruct r as [a b]. cbn [Qnum Qden].
  pose proof (roundHalfEven_near a (Z.pos b) ltac:(lia)) as Hn.
  apply Qabs_Qle_condition. unfold Qle, Qminus, Qplus, Qopp, inject_Z.
  cbn [Qnum Qden]. split; simpl; nia.
Qed.

Lemma two_pow_pos (e : Z) : (0 < 2 ^ e)%Q.
Proof. now apply Qpower_0_lt. Qed.

Lemma two_pow_inv (e : Z) : (2 ^ e * 2 ^ (- e) == 1)%Q.
Proof.
  rewrite Qpower_opp. apply Qmult_inv_r.
  apply Qpower_not_0. discriminate.
Qed.

(** The scaled value is at least 2^52. *)
Lemma scaled_large (n d : positive) :
  let q := Z.pos n # d in
  let k := Z.log2 (Z.pos n) - Z.log2 (Z.pos d) - 53 in
  let e := if Qle_bool (2 ^ 53) (q * 2 ^ (- k)) then k + 1 else k in
  (2 ^ 52 <= q * 2 ^ (- e))%Q.
Proof.
  intros q k e.
  destruct (Qle_bool (2 ^ 53) (q * 2 ^ (- k))) eqn:E; subst e.
  - apply Qle_bool_iff in E.
    assert (Hk : (2 ^ (- (k + 1)) == 2 ^ (- k) * (1 # 2))%Q).
    { replace (- (k + 1)) with (- k + - 1) by lia.
      rewrite Qpower_plus by discriminate. reflexivity. }
    rewrite Hk, Qmult_assoc.
    setoid_replace (2 ^ 52)%Q with (2 ^ 53 * (1 # 2))%Q
      using relation Qeq by reflexivity.
    apply Qmult_le_compat_r; [exact E|discriminate].
  - clear E.
    pose proof (Z.log2_spec (Z.pos n) ltac:(lia)) as [Hn _].
    pose proof (Z.log2_spec (Z.pos d) ltac:(lia)) as [_ Hd].
    pose proof (Z.log2_nonneg (Z.pos n)) as Hln.
    pose proof (Z.log2_nonneg (Z.pos d)) as Hld.
    set (ln := Z.log2 (Z.pos n)) in *. set (ld := Z.log2 (Z.pos d)) in *.
    rewrite Z.pow_succ_r in Hd by assumption.
    assert (HA : (0 < inject_Z (2 ^ ln))%Q).
    { rewrite Zpower_Qpower by assumption. apply two_pow_pos. }
    assert (Hk : (2 ^ (- k) * inject_Z (2 ^ ln) == 2 ^ 53 * inject_Z (2 ^ ld))%Q).
    { rewrite !Zpower_Qpower by assumption. change (inject_Z 2) with 2%Q.
      replace (- k) with (53 + ld + - ln) by (unfold k; lia).
      rewrite !Qpower_plus by discriminate.
      rewrite <- !Qmult_assoc. rewrite (Qmult_comm (2 ^ (- ln)) (2 ^ ln)).
      rewrite two_pow_inv. now rewrite Qmult_1_r. }
    apply (Qmult_lt_0_le_reg_r _ _ (inject_Z (2 ^ ln))); [exact HA|].
    rewrite <- Qmult_assoc, Hk.
    unfold q. rewrite (Qmake_Qdiv (Z.pos n) d).
    apply (Qmult_lt_0_le_reg_r _ _ (inject_Z (Z.pos d)));
      [change 0%Q with (inject_Z 0); rewrite <- Zlt_Qlt; lia|].
    assert (Hdn : ~ (inject_Z (Z.pos d) == 0)%Q) by discriminate.
    setoid_replace (inject_Z (Z.pos n) / inject_Z (Z.pos d) *
                    (2 ^ 53 * inject_Z (2 ^ ld)) * inject_Z (Z.pos d))%Q
      with (inject_Z (Z.pos n) * (2 ^ 53 * inject_Z (2 ^ ld)))%Q
      using relation Qeq
      by (field; exact Hdn).
    change (2 ^ 52)%Q with (inject_Z (2 ^ 52)).
    change (2 ^ 53)%Q with (inject_Z (2 ^ 53)).
    rewrite <- !inject_Z_mult, <- Zle_Qle. nia.
Qed.

Lemma roundPositive_error (n d : positive) :
  (Qabs (roundPositive n d - (Z.pos n # d)) <= (Z.pos n # d) * (1 # 2 ^ 53))%Q.
Proof.
  pose proof (scaled_large n d) as Hlarge. cbv zeta in Hlarge.
  unfold roundPositive.
  set (q := Z.pos n # d) in *.
  set (e := if Qle_bool (2 ^ 53) (q * 2 ^ (- _)) then _ else _) in *.
  set (r := (q * 2 ^ (- e))%Q) in *.
  pose proof (roundHalfEven_error r) as Herr.
  set (m := inject_Z (roundHalfEven (Qnum r) (Z.pos (Qden r)))) in *.
  pose proof (two_pow_pos e) as Hpe. pose proof (two_pow_inv e) as Hinv.
  assert (Hq : (q == r * 2 ^ e)%Q).
  { unfold r. rewrite <- Qmult_assoc, (Qmult_comm (2 ^ (- e))), Hinv.
    now rewrite Qmult_1_r. }
  set (pe := (2 ^ e)%Q) in *. clearbody pe m r. clear Hinv.
  apply Qabs_Qle_condition in Herr. destruct Herr as [Hlo Hhi].
  assert (Hhalf : (1 # 2 <= r * (1 # 2 ^ 53))%Q).
  { setoid_replace (1 # 2)%Q with (2 ^ 52 * (1 # 2 ^ 53))%Q
      using relation Qeq by reflexivity.
    apply Qmult_le_compat_r; [exact Hlarge|discriminate]. }
  apply Qabs_Qle_condition. rewrite Hq. split.
  - setoid_replace (- (r * pe * (1 # 2 ^ 53)))%Q
      with ((- (r * (1 # 2 ^ 53))) * pe)%Q
      using relation Qeq by ring.
    setoid_replace (m * pe - r * pe)%Q with ((m - r) * pe)%Q
      using relation Qeq by ring.
    apply Qmult_le_compat_r; [lra|lra].
  - setoid_replace (r * pe * (1 # 2 ^ 53))%Q
      with ((r * (1 # 2 ^ 53)) * pe)%Q
      using relation Qeq by ring.
    setoid_replace (m * pe - r * pe)%Q with ((m - r) * pe)%Q
      using relation Qeq by ring.
    apply Qmult_le_compat_r; [lra|lra].
Qed.

(** Rounding to a double moves a number by at most 2^-53 of its
    magnitude. *)
Lemma round_error (q : Q) :
  (Qabs (round q - q) <= Qabs q * (1 # 2 ^ 53))%Q.
Proof.
  destruct q as [[|n|n] d]; unfold round; cbn [Qnum Qden].
  - apply Qabs_Qle_condition. split; discriminate.
  - rewrite (Qabs_pos (Z.pos n # d)) by discriminate.
    apply roundPositive_error.
  - pose proof (roundPositive_error n d) as He.
    setoid_replace (- roundPositive n d - (Z.neg n # d))%Q
      with (- (roundPositive n d - (Z.pos n # d)))%Q
      using relation Qeq.
    + rewrite Qabs_opp.
      setoid_replace (Qabs (Z.neg n # d)) with (Z.pos n # d)
      using relation Qeq; [exact He|].
      change (Z.neg n # d) with (- (Z.pos n # d))%Q.
      rewrite Qabs_opp. apply Qabs_pos. discriminate.
    + change (Z.neg n # d) with (- (Z.pos n # d))%Q. ring.
Qed.

(** Rounding keeps the sign. *)
Lemma round_positive (q : Q) : (0 < q)%Q -> (0 < round q)%Q.
Proof.
  intros Hq. pose proof (round_error q) as He.
  rewrite (Qabs_pos q) in He by lra.
  apply Qabs_Qle_condition in He. destruct He as [Hlo _].
  assert (Hs : (q * (1 # 2 ^ 53) < q)%Q).
  { setoid_replace q with (q * 1)%Q using relation Qeq at 2 by ring.
    apply Qmult_lt_l; [exact Hq|reflexivity]. }
  lra.
Qed.

Lemma round_negative (q : Q) : (q < 0)%Q -> (round q < 0)%Q.
Proof.
  intros Hq. pose proof (round_error q) as He.
  rewrite (Qabs_neg q) in He by lra.
  apply Qabs_Qle_condition in He. destruct He as [_ Hhi].
  assert (Hs : (- q * (1 # 2 ^ 53) < - q)%Q).
  { setoid_replace (- q)%Q with (- q * 1)%Q using relation Qeq at 2 by ring.
    apply Qmult_lt_l; [lra|reflexivity]. }
  lra.
Qed.

Lemma round_zero (q : Q) : (q == 0)%Q -> (round q == 0)%Q.
Proof.
  intros Hq. destruct q as [[|n|n] d]; unfold round; cbn [Qnum Qden];
    [reflexivity|discriminate Hq|discriminate Hq].
Qed.

Lemma round_nonneg (q : Q) : (0 <= round q)%Q <-> (0 <= q)%Q.
Proof.
  split; intros Hq.
  - destruct (Qlt_le_dec q 0) as [Hneg|Hpos]; [|exact Hpos].
    apply round_negative in Hneg. lra.
  - destruct (Qlt_le_dec 0 q) as [Hpos|Hle].
    + apply Qlt_le_weak. now apply round_positive.
    + rewrite (round_zero q) by lra. lra.
Qed.

End Float64Facts.

(** ** The trie after the insertions *)

Module TrieFacts.
Import Trie TrieInv.

Lemma codePointKey_not_mark (k : jsstring) :
  codePointKey k -> k <> k_flush /\ k <> k_index.
Proof.
  intros [_ Hlen].
  split; intros Heq; rewrite Heq in Hlen;
    apply Nat.leb_le in Hlen; vm_compute in Hlen; discriminate.
Qed.

Lemma k_flush_not_index : k_flush <> k_index.
Proof. discriminate. Qed.

(** A property keeps its meaning when the store grows, the paths of
    the old objects stay and more words count as inserted. *)
Lemma insertedProp_mono path path' (W W' : list jsstring) (h h' : store)
    (a : nat) (o o' : obj) (k : jsstring) (v : value) :
  insertedProp path W h a o k v ->
  (a < length h)%nat ->
  (forall z, (z < length h)%nat -> path' z = path z) ->
  (length h <= length h')%nat ->
  (forall w, In w W -> In w W') ->
  (In (k_flush, VTrue) o -> In (k_flush, VTrue) o') ->
  insertedProp path' W' h' a o' k v.
Proof.
  intros Hp Ha Hpath Hlen HW Ho. destruct v; simpl in *; try tauto.
  - destruct Hp as [-> Hin]. split; [reflexivity|].
    rewrite Hpath by assumption. now apply HW.
  - destruct Hp as [[Hab Hb] [Hpb Hk]].
    rewrite !Hpath by lia. split; [lia|]. split; assumption.
Qed.

Lemma insertedInv_getOwn path W (h : store) (a : nat) (o : obj) (c : jsstring) :
  insertedInv path W h -> h !! a = Some o -> codePointKey c ->
  getOwn o c = VUndef \/
  exists b, getOwn o c = VRef b /\ (a < b < length h)%nat /\
            path b = path a ++ [c].
Proof.
  intros Hinv Ha Hc.
  destruct (getOwn o c) as [| |n|b] eqn:E; [now left| | |].
  - exfalso. assert (Hin : In (c, getOwn o c) o)
      by (apply getOwn_In; rewrite E; discriminate).
    rewrite E in Hin. apply (proj2 (Hinv a o Ha)) in Hin.
    destruct Hin as [-> _]. now apply codePointKey_not_mark in Hc.
  - exfalso. assert (Hin : In (c, getOwn o c) o)
      by (apply getOwn_In; rewrite E; discriminate).
    rewrite E in Hin. apply (proj2 (Hinv a o Ha)) in Hin.
    destruct Hin as [-> _]. now apply codePointKey_not_mark in Hc.
  - right. exists b. split; [reflexivity|].
    assert (Hin : In (c, getOwn o c) o)
      by (apply getOwn_In; rewrite E; discriminate).
    rewrite E in Hin. apply (proj2 (Hinv a o Ha)) in Hin.
    destruct Hin as [Hab [Hpb _]]. now split.
Qed.

(** A new edge [c] from the object at [a] to a fresh object. *)
Lemma insertedInv_alloc path W (h : store) (a : nat) (o : obj) (c : jsstring) :
  insertedInv path W h -> h !! a = Some o -> codePointKey c ->
  insertedInv
    (fun y => if (y =? length h)%nat then path a ++ [c] else path y) W
    (<[a := setProp o c (VRef (length h))]> (h ++ [[]])).
Proof.
  intros Hinv Ha Hc y o' Hy.
  assert (Halt : (a < length h)%nat) by (eapply lookup_lt_Some; eassumption).
  assert (Hpath : forall z, (z < length h)%nat ->
            (if (z =? length h)%nat then path a ++ [c] else path z) = path z).
  { intros z Hz. destruct (Nat.eqb_spec z (length h)); [lia|reflexivity]. }
  assert (Hlen : (length h <= length (<[a := setProp o c (VRef (length h))]> (h ++ [[]])))%nat).
  { rewrite length_insert, length_app. simpl. lia. }
  apply lookup_write in Hy. destruct Hy as [[-> [-> _]]|[Hne Hy]].
  - split; [apply setProp_NoDup, (Hinv a o Ha)|].
    intros k v Hin. apply setProp_In in Hin. destruct Hin as [[= -> ->]|Hin].
    + simpl. rewrite length_insert, length_app, Nat.eqb_refl. simpl.
      rewrite Hpath by assumption. split; [lia|]. split; [reflexivity|assumption].
    + apply (insertedProp_mono path _ W W h _ a o _ k v);
        [apply (Hinv a o Ha); assumption | assumption | exact Hpath
        | exact Hlen | auto | ].
      intros Hf. apply setProp_old; [assumption|].
      intros Heq. apply codePointKey_not_mark in Hc. rewrite <- Heq in Hc. tauto.
  - destruct (Nat.lt_ge_cases y (length h)) as [Hlt|Hge].
    + rewrite lookup_app_l in Hy by assumption.
      split; [apply (Hinv y o' Hy)|].
      intros k v Hin.
      apply (insertedProp_mono path _ W W h _ y o' _ k v);
        [apply (Hinv y o' Hy); assumption | assumption | exact Hpath
        | exact Hlen | auto | auto].
    + rewrite lookup_app_r in Hy by assumption.
      destruct (y - length h)%nat; simpl in Hy; [|discriminate].
      injection Hy as <-. split; [constructor|intros k v []].
Qed.

Lemma deref_app (h : store) (a : nat) (o : obj) :
  (a < length h)%nat -> deref (h ++ [o]) a = deref h a.
Proof. intros Ha. unfold deref. now rewrite lookup_app_l. Qed.

(** The walk of [insert] along code points ends at an object whose
    path is the path walked. *)
Lemma insertWalk_inv W (cs : list jsstring) :
  forall path (h : store) (a : nat),
    insertedInv path W h -> (a < length h)%nat -> Forall codePointKey cs ->
    exists path' (h' : store) (a' : nat),
      insertWalk cs h (VRef a) = Ok (h', VRef a') /\
      insertedInv path' W h' /\ (a' < length h')%nat /\
      (length h <= length h')%nat /\
      (forall y, (y < length h)%nat -> path' y = path y) /\
      path' a' = path a ++ cs.
Proof.
  induction cs as [|c cs IH]; intros path h a Hinv Ha Hcs.
  - exists path, h, a. rewrite app_nil_r.
    split; [reflexivity|]. split; [assumption|]. split; [assumption|].
    split; [lia|]. split; [reflexivity|reflexivity].
  - apply Forall_cons_iff in Hcs. destruct Hcs as [Hc Hcs].
    pose proof (lookup_store h a Ha) as Hl.
    cbn [insertWalk].
    destruct (insertedInv_getOwn path W h a _ c Hinv Hl Hc)
      as [E|[b [E [Hab Hpb]]]]; rewrite E.
    + unfold alloc. rewrite deref_app by assumption.
      pose proof (insertedInv_alloc path W h a _ c Hinv Hl Hc) as Hinv1.
      destruct (IH _ _ (length h) Hinv1) as [path' [h' [a' [Hw [Hi [Ha' [Hlen [Hp Hpa]]]]]]]].
      * rewrite length_insert, length_app. simpl. lia.
      * assumption.
      * exists path', h', a'. split; [exact Hw|]. split; [exact Hi|].
        split; [exact Ha'|].
        rewrite length_insert, length_app in Hlen, Hp. simpl in Hlen, Hp.
        split; [lia|]. split.
        -- intros y Hy. rewrite Hp by lia.
           destruct (Nat.eqb_spec y (length h)); [lia|reflexivity].
        -- rewrite Hpa, Nat.eqb_refl, <- app_assoc. reflexivity.
    + destruct (IH path h b Hinv) as [path' [h' [a' [Hw [Hi [Ha' [Hlen [Hp Hpa]]]]]]]];
        [lia|assumption|].
      exists path', h', a'. split; [exact Hw|]. split; [exact Hi|].
      split; [exact Ha'|]. split; [exact Hlen|]. split; [exact Hp|].
      rewrite Hpa, Hpb, <- app_assoc. reflexivity.
Qed.

Section Insertion.
Context `{CaseMapping}.

Lemma insert_inv path W (tr : t) (word : jsstring) :
  insertedInv path W (heap tr) -> (model tr < length (heap tr))%nat ->
  path (model tr) = [] ->
  exists path' tr',
    insert word tr = Ok tr' /\
    insertedInv path' (toLowerCase word :: W) (heap tr') /\
    model tr' = model tr /\ (model tr' < length (heap tr'))%nat /\
    path' (model tr') = [].
Proof.
  intros Hinv Hroot Hpath. unfold insert.
  destruct (codePoints_spec (toLowerCase word)) as [Hconcat Hall].
  destruct (insertWalk_inv W _ path (heap tr) (model tr) Hinv Hroot Hall)
    as [path' [h' [a' [Hw [Hi [Ha' [Hlen [Hp Hpa]]]]]]]].
  rewrite Hw. rewrite Hpath in Hpa. simpl in Hpa.
  eexists path', _. split; [reflexivity|]. cbn [heap model].
  rewrite length_insert.
  split; [|split; [reflexivity|split; [lia|rewrite Hp by lia; exact Hpath]]].
  set (o1 := setProp (deref h' a') k_flush VTrue).
  set (o2 := setProp o1 k_index (VNum (index tr + 1))).
  assert (Hflush : In (k_flush, VTrue) o2).
  { apply setProp_old; [apply setProp_In_new|apply k_flush_not_index]. }
  assert (Hsame : forall z, (z < length h')%nat -> path' z = path' z) by reflexivity.
  assert (HW : forall w, In w W -> In w (toLowerCase word :: W)) by (intros; now right).
  assert (Hlen' : (length h' <= length (<[a' := o2]> h'))%nat)
    by (rewrite length_insert; lia).
  intros y o' Hy. apply lookup_write in Hy. destruct Hy as [[-> [-> _]]|[Hne Hy]].
  - pose proof (lookup_store h' a' Ha') as Hl.
    split; [apply setProp_NoDup, setProp_NoDup, (Hi a' _ Hl)|].
    intros k v Hin. apply setProp_In in Hin. destruct Hin as [[= -> ->]|Hin].
    { simpl. split; [reflexivity|exact Hflush]. }
    apply setProp_In in Hin. destruct Hin as [[= -> ->]|Hin].
    { simpl. split; [reflexivity|]. left. now rewrite Hpa, Hconcat. }
    apply (insertedProp_mono path' path' W _ h' _ a' (deref h' a') o2 k v);
      [apply (Hi a' _ Hl); assumption | assumption | exact Hsame | exact Hlen'
      | exact HW | intros _; exact Hflush].
  - split; [apply (Hi y o' Hy)|]. intros k v Hin.
    apply (insertedProp_mono path' path' W _ h' _ y o' o' k v);
      [apply (Hi y o' Hy); assumption | eapply lookup_lt_Some; eassumption
      | exact Hsame | exact Hlen' | exact HW | auto].
Qed.

Lemma insertAll_inv (words : list jsstring) :
  forall path W (tr : t),
    insertedInv path W (heap tr) -> (model tr < length (heap tr))%nat ->
    path (model tr) = [] ->
    exists path' W' tr',
      insertAll words tr = Ok tr' /\ insertedInv path' W' (heap tr') /\
      model tr' = model tr /\ (model tr' < length (heap tr'))%nat /\
      path' (model tr') = [] /\
      forall w, In w W' -> In w W \/ In w (map toLowerCase words).
Proof.
  induction words as [|word words IH]; intros path W tr Hinv Hroot Hpath.
  - exists path, W, tr. simpl.
    split; [reflexivity|]. split; [assumption|]. split; [reflexivity|].
    split; [assumption|]. split; [assumption|]. intros w Hw. now left.
  - destruct (insert_inv path W tr word Hinv Hroot Hpath)
      as [path1 [tr1 [Hins [Hinv1 [Hm1 [Hroot1 Hpath1]]]]]].
    destruct (IH path1 _ tr1 Hinv1 Hroot1 Hpath1)
      as [path' [W' [tr' [Hall [Hinv' [Hm' [Hroot' [Hpath' HW']]]]]]]].
    exists path', W', tr'. cbn [insertAll]. rewrite Hins.
    split; [exact Hall|]. split; [exact Hinv'|]. split; [congruence|].
    split; [exact Hroot'|]. split; [exact Hpath'|].
    intros w Hw. destruct (HW' w Hw) as [[<-|Hin]|Hin]; simpl; auto.
Qed.

(** The constructor's insertions succeed on a string and on an array
    of strings, and leave a trie of the words inserted. *)
Lemma tokenize_inv (inp : input) :
  inp <> InOther -> inp <> InNullish ->
  exists path W tr,
    tokenize inp {| heap := [[]]; model := 0; index := 0 |} = Ok tr /\
    insertedInv path W (heap tr) /\
    model tr = 0%nat /\ (0 < length (heap tr))%nat /\ path 0%nat = [] /\
    forall w, In w W -> In w (map toLowerCase (inputWords inp)).
Proof.
  intros Hinp Hnull.
  set (tr0 := {| heap := [[]]; model := 0; index := 0 |}).
  assert (Hinv0 : insertedInv (fun _ => []) [] (heap tr0)).
  { intros [|a] o Hl; simpl in Hl; [|discriminate].
    injection Hl as <-. split; [constructor|intros k v []]. }
  destruct (insertAll_inv (inputWords inp) (fun _ => []) [] tr0 Hinv0)
    as [path [W [tr [Hall [Hinv [Hm [Hroot [Hpath HW]]]]]]]];
    [simpl; lia|reflexivity|].
  exists path, W, tr. simpl in Hm. rewrite Hm in Hroot, Hpath.
  split; [|split; [exact Hinv|split; [exact Hm|split; [exact Hroot|split; [exact Hpath|]]]]].
  - destruct inp as [s|words| |]; [|exact Hall|congruence|congruence].
    simpl in Hall |- *. destruct (insert s tr0); [congruence|discriminate].
  - intros w Hw. destruct (HW w Hw) as [[]|Hin]. exact Hin.
Qed.

End Insertion.

(** *** [compress] *)

Lemma insertedInv_compressedInv path W (h : store) :
  insertedInv path W h -> compressedInv path W h.
Proof.
  intros Hinv a o k v Hl Hin. apply (proj2 (Hinv a o Hl)) in Hin.
  destruct v; simpl in *; try tauto.
  destruct Hin as [Hab [Hp Hk]]. split; [assumption|].
  exists [k]. simpl. rewrite app_nil_r.
  split; [assumption|]. split; [reflexivity|]. split; [discriminate|].
  split; [lia|]. now constructor.
Qed.

Lemma compressedProp_length path W (h h' : store) a k v :
  length h = length h' ->
  compressedProp path W h a k v -> compressedProp path W h' a k v.
Proof. intros Hlen. destruct v; simpl; try tauto. now rewrite Hlen. Qed.

Lemma below_refl path x : below path x x.
Proof. exists []. now rewrite app_nil_r. Qed.

Lemma below_child path x c key y :
  path c = path x ++ [key] -> below path c y -> below path x y /\ y <> x.
Proof.
  intros Hc [p Hp]. rewrite Hc, <- app_assoc in Hp. split.
  - now exists ([key] ++ p).
  - intros ->. apply (f_equal (@length _)) in Hp.
    rewrite length_app in Hp. simpl in Hp. lia.
Qed.

Lemma below_disjoint path x c c' key key' y :
  path c = path x ++ [key] -> path c' = path x ++ [key'] ->
  below path c y -> below path c' y -> key = key'.
Proof.
  intros Hc Hc' [p Hp] [p' Hp'].
  rewrite Hc, <- app_assoc in Hp. rewrite Hc', <- app_assoc in Hp'.
  rewrite Hp in Hp'. apply app_inv_head in Hp'. simpl in Hp'. congruence.
Qed.

(** The merge of a single-child node that is no word end into its
    parent [x]. *)
Lemma merge_inv path W (h0 hc : store) (x c : nat) (o_x : obj) (key : jsstring) :
  insertedInv path W h0 -> compressedInv path W hc ->
  length hc = length h0 ->
  h0 !! x = Some o_x -> In (key, VRef c) o_x -> hc !! c = h0 !! c ->
  truthy (getOwn (deref hc c) k_flush) = false ->
  let h1 :=
    match keys (deref hc c) with
    | [k0] =>
        <[x := deleteProp
                 (setProp (deref hc x) (key ++ k0) (getOwn (deref hc c) k0))
                 key]> hc
    | _ => hc
    end in
  compressedInv path W h1 /\ length h1 = length hc /\
  forall y, y <> x -> h1 !! y = hc !! y.
Proof.
  intros Hinv0 Hinv Hlen Hx Hin Hc Hflush.
  destruct (proj2 (Hinv0 x o_x Hx) _ _ Hin) as [[Hxc Hclt] [Hpc Hkey]].
  assert (Hlc : h0 !! c = Some (deref h0 c)) by (apply lookup_store; lia).
  assert (Hdc : deref hc c = deref h0 c).
  { apply deref_lookup. now rewrite Hc. }
  rewrite Hdc in *. clear Hdc.
  destruct (deref h0 c) as [|[k0 v0] [|e rest]] eqn:Eo; simpl;
    [auto|rewrite str_eqb_refl|auto].
  pose proof (proj2 (Hinv0 c _ Hlc) k0 v0 (or_introl eq_refl)) as Hp0.
  destruct v0 as [| |n|b]; simpl in Hp0.
  - contradiction.
  - destruct Hp0 as [-> _]. vm_compute in Hflush. discriminate.
  - destruct Hp0 as [_ [Hf|[]]]. discriminate.
  - destruct Hp0 as [[Hcb Hb] [Hpb Hk0]].
    assert (Hxlt : (x < length hc)%nat) by lia.
    split; [|split; [apply length_insert|
                     intros y Hy; now apply list_lookup_insert_ne]].
    intros a o k v Hl Hino. apply lookup_write in Hl.
    destruct Hl as [[-> [-> _]]|[Hne Hl]].
    + apply compressedProp_length with (h := hc); [now rewrite length_insert|].
      apply deleteProp_In, setProp_In in Hino.
      destruct Hino as [[= -> ->]|Hino].
      * simpl. split; [lia|]. exists [key; k0]. simpl. rewrite app_nil_r.
        split; [rewrite Hpb, Hpc, <- app_assoc; reflexivity|].
        split; [reflexivity|]. split; [discriminate|]. split; [lia|].
        constructor; [exact Hkey|]. constructor; [exact Hk0|constructor].
      * apply (Hinv x _ k v (lookup_store hc x Hxlt) Hino).
    + apply compressedProp_length with (h := hc); [now rewrite length_insert|].
      apply (Hinv a o k v Hl Hino).
Qed.

(** [compress] on a node below which nothing was merged yet: it
    returns, keeps the invariant and touches only objects below the
    node. *)
Lemma compress_inv path W (h0 : store) :
  insertedInv path W h0 ->
  forall fuel (h : store) x,
    compressedInv path W h -> length h = length h0 -> (x < length h)%nat ->
    (length h - x < fuel)%nat ->
    (forall y, below path x y -> h !! y = h0 !! y) ->
    exists h' : store,
      compress fuel h x = Some h' /\ compressedInv path W h' /\
      length h' = length h /\
      forall y, ~ below path x y -> h' !! y = h !! y.
Proof.
  intros Hinv0.
  induction fuel as [|fuel IH]; intros h x Hinv Hlen Hx Hfuel Horig; [lia|].
  cbn [compress].
  assert (Hx0 : h0 !! x = Some (deref h x)).
  { rewrite <- (Horig x (below_refl path x)). now apply lookup_store. }
  set (o_x := deref h x) in *.
  destruct (Hinv0 x o_x Hx0) as [Hnd Hprops].
  match goal with |- context [fold_left ?f _ _] => set (step := f) end.
  assert (Hloop : forall todo,
            (forall e, In e todo -> In e o_x) -> List.NoDup (keys todo) ->
            forall hc : store,
              compressedInv path W hc -> length hc = length h0 ->
              (forall key c y, In (key, VRef c) todo -> below path c y ->
                 hc !! y = h0 !! y) ->
              exists h' : store,
                fold_left step todo (Some hc) = Some h' /\
                compressedInv path W h' /\ length h' = length hc /\
                forall y, ~ below path x y -> h' !! y = hc !! y).
  { induction todo as [|[key v] todo IHt]; intros Hsub Hndt hc Hinvc Hlenc Hframe.
    { exists hc. split; [reflexivity|]. split; [assumption|].
      split; reflexivity. }
    assert (Hsub' : forall e, In e todo -> In e o_x)
      by (intros e He; apply Hsub; now right).
    assert (Hndt' : List.NoDup (keys todo)) by (now inversion Hndt).
    assert (Hframe' : forall key' c' y, In (key', VRef c') todo ->
              below path c' y -> hc !! y = h0 !! y)
      by (intros key' c' y Hin' Hb; apply (Hframe key' c' y); [now right|exact Hb]).
    cbn [fold_left]. unfold step at 2. cbv beta iota zeta.
    destruct v as [| |n|c]; try (now apply IHt).
    destruct (Hprops key (VRef c) (Hsub _ (or_introl eq_refl)))
      as [[Hxc Hclt] [Hpc Hkey]].
    assert (Hcc : hc !! c = h0 !! c)
      by (apply (Hframe key c c); [now left|apply below_refl]).
    destruct (truthy (getOwn (deref hc c) k_flush)) eqn:Hfl; [now apply IHt|].
    pose proof (merge_inv path W h0 hc x c o_x key Hinv0 Hinvc Hlenc Hx0
                  (Hsub _ (or_introl eq_refl)) Hcc Hfl) as Hm.
    cbv zeta in Hm.
    match type of Hm with
    | compressedInv _ _ ?m /\ _ => set (h1 := m) in *
    end.
    destruct Hm as [Hinv1 [Hlen1 Hfr1]].
    destruct (IH h1 c Hinv1) as [h2 [Hc2 [Hinv2 [Hlen2 Hfr2]]]];
      [congruence|lia|lia| |].
    { intros y Hy. destruct (below_child path x c key y Hpc Hy) as [_ Hne].
      rewrite Hfr1 by assumption. apply (Hframe key c y); [now left|exact Hy]. }
    rewrite Hc2.
    destruct (IHt Hsub' Hndt' h2 Hinv2) as [h' [Hf [Hinv' [Hlen' Hfr']]]];
      [congruence| |].
    { intros key' c' y Hin' Hb.
      destruct (Hprops key' (VRef c') (Hsub' _ Hin')) as [_ [Hpc' _]].
      destruct (below_child path x c' key' y Hpc' Hb) as [_ Hne].
      rewrite Hfr2, Hfr1 by
        (assumption ||
         (intros Hbc; apply (below_disjoint path x c c' key key' y) in Hbc;
          [|assumption..]; subst key';
          inversion Hndt as [|? ? Hnotin _]; apply Hnotin;
          apply In_keys; eauto)).
      exact (Hframe' key' c' y Hin' Hb). }
    exists h'. split; [exact Hf|]. split; [exact Hinv'|]. split; [congruence|].
    intros y Hy. rewrite Hfr' by assumption.
    rewrite Hfr2, Hfr1; [reflexivity| |].
    - intros ->. apply Hy, below_refl.
    - intros Hbc. apply Hy. now apply (below_child path x c key y Hpc). }
  destruct (Hloop o_x (fun e He => He) Hnd h Hinv Hlen) as [h' [Hf Hrest]].
  { intros key c y Hin Hb. apply Horig.
    destruct (Hprops key (VRef c) Hin) as [_ [Hpc _]].
    now apply (below_child path x c key y Hpc). }
  exists h'. split; [exact Hf|]. exact Hrest.
Qed.

(** *** The constructed trie *)

Section Constructed.
Context `{CaseMapping}.

(** The constructor returns for every input: it throws on an input
    that is neither a string nor an array, and otherwise builds a trie
    that satisfies the invariant for the words of the input. *)
Lemma create_inv (inp : input) :
  create inp = Some (Throw "Invalid constructor, must be String or Array") \/
  create inp = Some (Throw "TypeError") \/
  exists path W tr,
    create inp = Some (Ok tr) /\ compressedInv path W (heap tr) /\
    model tr = 0%nat /\ (0 < length (heap tr))%nat /\ path 0%nat = [] /\
    forall w, In w W -> In w (map toLowerCase (inputWords inp)).
Proof.
  destruct inp as [s|words| |];
    [right; right|right; right|right; now left|now left].
  - destruct (tokenize_inv (InString s)) as [path [W [tr [Ht [Hinv [Hm [Hlen [Hp HW]]]]]]]];
      [discriminate|discriminate|].
    destruct (compress_inv path W (heap tr) Hinv (fuelOf (heap tr)) (heap tr) 0)
      as [h' [Hc [Hinv' [Hlen' _]]]];
      [now apply insertedInv_compressedInv|reflexivity|assumption
      |unfold fuelOf; lia|reflexivity|].
    exists path, W, {| heap := h'; model := model tr; index := index tr |}.
    unfold create. rewrite Ht, Hm, Hc. cbn [heap model]. rewrite Hlen'.
    repeat split; auto.
  - destruct (tokenize_inv (InArray words)) as [path [W [tr [Ht [Hinv [Hm [Hlen [Hp HW]]]]]]]];
      [discriminate|discriminate|].
    destruct (compress_inv path W (heap tr) Hinv (fuelOf (heap tr)) (heap tr) 0)
      as [h' [Hc [Hinv' [Hlen' _]]]];
      [now apply insertedInv_compressedInv|reflexivity|assumption
      |unfold fuelOf; lia|reflexivity|].
    exists path, W, {| heap := h'; model := model tr; index := index tr |}.
    unfold create. rewrite Ht, Hm, Hc. cbn [heap model]. rewrite Hlen'.
    repeat split; auto.
Qed.

Lemma create_returns (inp : input) : create inp <> None.
Proof.
  destruct (create_inv inp) as [Ht|[Ht|[path [W [tr [Hc _]]]]]]; congruence.
Qed.

Lemma create_ok (inp : input) (tr : t) :
  create inp = Some (Ok tr) ->
  exists path W,
    compressedInv path W (heap tr) /\
    model tr = 0%nat /\ (0 < length (heap tr))%nat /\ path 0%nat = [] /\
    forall w, In w W -> In w (map toLowerCase (inputWords inp)).
Proof.
  intros Hc. destruct (create_inv inp) as [Ht|[Ht|[path [W [tr' [Hc' Hrest]]]]]];
    [congruence|congruence|].
  rewrite Hc in Hc'. injection Hc' as <-. now exists path, W.
Qed.

End Constructed.

(** *** Facts about a store that satisfies the invariant *)

Section Store.
Variables (path : nat -> list jsstring) (W : list jsstring) (h : store).
Hypothesis Hinv : compressedInv path W h.

Lemma concat_nonempty (p : list jsstring) :
  p <> [] -> Forall codePointKey p -> concat p <> [].
Proof.
  intros Hp Hall. destruct p as [|q p]; [congruence|].
  apply Forall_cons_iff in Hall. destruct Hall as [[Hq _] _].
  simpl. destruct q; [congruence|discriminate].
Qed.

Lemma concat_short (p : list jsstring) :
  (length p <= 2)%nat -> Forall codePointKey p -> (length (concat p) <= 4)%nat.
Proof.
  intros Hlen Hall. destruct p as [|q [|q' [|q'' p]]]; simpl in *; try lia.
  - apply Forall_cons_iff in Hall. destruct Hall as [[_ Hq] _].
    rewrite app_nil_r. lia.
  - apply Forall_cons_iff in Hall. destruct Hall as [[_ Hq] Hall].
    apply Forall_cons_iff in Hall. destruct Hall as [[_ Hq'] _].
    rewrite length_app, app_nil_r. lia.
Qed.

Lemma edge_facts (a : nat) (o : obj) (k : jsstring) (b : nat) :
  h !! a = Some o -> In (k, VRef b) o ->
  (a < b < length h)%nat /\ concat (path b) = concat (path a) ++ k /\ k <> [].
Proof.
  intros Hl Hin. destruct (Hinv a o k (VRef b) Hl Hin)
    as [Hab [p [Hp [-> [Hne [_ Hall]]]]]].
  split; [assumption|]. split; [now rewrite Hp, concat_app|].
  now apply concat_nonempty.
Qed.

Lemma key_nonempty (a : nat) (o : obj) (k : jsstring) (v : value) :
  h !! a = Some o -> In (k, v) o -> k <> [] /\ v <> VUndef.
Proof.
  intros Hl Hin. pose proof (Hinv a o k v Hl Hin) as Hp.
  destruct v as [| |n|b]; simpl in Hp.
  - contradiction.
  - destruct Hp as [-> _]. split; discriminate.
  - rewrite Hp. split; discriminate.
  - split; [|discriminate]. now apply (edge_facts a o k b).
Qed.

Lemma flush_word (a : nat) (o : obj) :
  h !! a = Some o -> truthy (getOwn o k_flush) = true ->
  In (concat (path a)) W.
Proof.
  intros Hl Ht.
  assert (Hin : In (k_flush, getOwn o k_flush) o).
  { apply getOwn_In. intros E. rewrite E in Ht. discriminate. }
  pose proof (Hinv a o _ _ Hl Hin) as Hp.
  destruct (getOwn o k_flush) as [| |n|b]; simpl in Hp.
  - contradiction.
  - tauto.
  - discriminate Hp.
  - destruct Hp as [_ [p [_ [Hk [_ [Hlen Hall]]]]]].
    pose proof (concat_short p Hlen Hall) as Hshort.
    rewrite <- Hk in Hshort. apply Nat.leb_le in Hshort.
    vm_compute in Hshort. discriminate.
Qed.

(** The value under a key of a node. *)
Lemma child_facts (a : nat) (k : jsstring) :
  (a < length h)%nat -> In k (keysV h (VRef a)) ->
  k <> [] /\ getV h (VRef a) k <> VUndef /\
  forall b, getV h (VRef a) k = VRef b ->
    (a < b < length h)%nat /\ concat (path b) = concat (path a) ++ k.
Proof.
  intros Ha Hk. simpl in *.
  pose proof (lookup_store h a Ha) as Hl.
  assert (Hin : In (k, getOwn (deref h a) k) (deref h a)).
  { destruct (getOwn_key _ _ Hk) as [Hne|Hundef]; [now apply getOwn_In|].
    now apply (key_nonempty a _ k VUndef Hl) in Hundef. }
  destruct (key_nonempty a _ _ _ Hl Hin) as [Hk0 Hv].
  split; [assumption|]. split; [assumption|].
  intros b Hb. rewrite Hb in Hin.
  destruct (edge_facts a _ k b Hl Hin) as [Hab [Hp _]]. now split.
Qed.

(** [contains] returns. *)
Lemma containsLoop_total (fuel : nat) :
  forall (remainingWord : jsstring) (node : value),
    (length remainingWord < fuel)%nat ->
    (forall a, node = VRef a -> (a < length h)%nat) ->
    exists b, containsLoop fuel h remainingWord node = Some b.
Proof.
  induction fuel as [|fuel IH]; intros rem node Hfuel Hnode; [lia|].
  cbn [containsLoop].
  destruct ((0 <? length rem)%nat && truthy node); [|eauto].
  destruct (find _ (keysV h node)) as [key|] eqn:Ef; [|eauto].
  apply find_some in Ef. destruct Ef as [Hin Hf].
  destruct node as [| |n|a]; simpl in Hin; try contradiction.
  specialize (Hnode a eq_refl).
  destruct (child_facts a key Hnode Hin) as [Hkey [_ Hchild]].
  apply andb_true_iff in Hf. destruct Hf as [_ Hf].
  apply str_eqb_eq in Hf. unfold substring_to in Hf.
  apply IH.
  - unfold substring_from. rewrite length_drop.
    apply (f_equal (@length _)) in Hf. rewrite length_take in Hf.
    assert (1 <= length key)%nat by (destruct key; [congruence|simpl; lia]).
    lia.
  - intros b Hb. now apply Hchild.
Qed.

(** [levenshteinSearch] returns, and every match it adds is within the
    bound. *)
Lemma levenshteinSearch_bounded (target : jsstring) (maxDistance : Z)
    (fuel : nat) :
  forall (node : value) (word : jsstring) (results : list match_),
    (1 <= fuel)%nat ->
    (forall a, node = VRef a -> (a < length h)%nat /\ (length h - a < fuel)%nat) ->
    Forall (fun m => m_distance m <= maxDistance) results ->
    exists r,
      levenshteinSearch fuel h target maxDistance node word results = Some r /\
      Forall (fun m => m_distance m <= maxDistance) r.
Proof.
  induction fuel as [|fuel IH]; intros node word results Hfuel Hnode Hres; [lia|].
  cbn [levenshteinSearch].
  match goal with |- context [fold_left ?f _ (Some ?r1)] =>
    set (step := f); set (results1 := r1) end.
  assert (Hres1 : Forall (fun m => m_distance m <= maxDistance) results1).
  { unfold results1. destruct (truthy _); [|assumption].
    destruct (Z.leb_spec (Levenshtein.levenshtein word target maxDistance) maxDistance);
      [|assumption].
    apply Forall_app. split; [assumption|]. now repeat constructor. }
  clearbody results1.
  assert (Hloop : forall ks, (forall k, In k ks -> In k (keysV h node)) ->
            forall acc, Forall (fun m => m_distance m <= maxDistance) acc ->
            exists r, fold_left step ks (Some acc) = Some r /\
                      Forall (fun m => m_distance m <= maxDistance) r).
  { induction ks as [|k ks IHk]; intros Hks acc Hacc; [eauto|].
    cbn [fold_left]. unfold step at 2. cbv beta iota.
    change (negb (isFlushField k)) with true. cbv iota.
    destruct node as [| |n|a]; try (exfalso; apply (Hks k); now left).
    destruct (Hnode a eq_refl) as [Ha Hfa].
    destruct (child_facts a k Ha (Hks k (or_introl eq_refl))) as [_ [_ Hchild]].
    destruct (IH (getV h (VRef a) k) (word ++ k) acc) as [r [Hr Hall]];
      [lia| |assumption|].
    { intros b Hb. destruct (Hchild b Hb) as [Hab _]. lia. }
    rewrite Hr. apply IHk; [|assumption].
    intros k' Hk'. apply Hks. now right. }
  apply (Hloop (keysV h node) (fun k Hk => Hk) results1 Hres1).
Qed.

(** [findWords] returns; what it adds to [found] are inserted words
    that extend [word], and it stops at [maxWord] elements. *)
Lemma findWords_spec (maxWord : nat) (fuel : nat) :
  forall (node : value) (word : jsstring) (found : list jsstring),
    (1 <= fuel)%nat ->
    (forall a, node = VRef a ->
       (a < length h)%nat /\ (length h - a < fuel)%nat /\
       word = concat (path a)) ->
    exists r,
      findWords fuel h word maxWord node found = Some r /\
      (forall w, In w r ->
         In w found \/ (In w W /\ exists s, w = word ++ s)) /\
      (length r <= Nat.max maxWord (length found))%nat.
Proof.
  induction fuel as [|fuel IH]; intros node word found Hfuel Hnode; [lia|].
  cbn [findWords].
  destruct (Nat.leb_spec maxWord (length found)) as [Hfull|Hroom].
  { exists found. split; [reflexivity|]. split; [now left|lia]. }
  match goal with |- context [fold_left ?f _ (Some ?l1)] =>
    set (step := f); set (list1 := l1) end.
  set (P := fun w => In w found \/ (In w W /\ exists s, w = word ++ s)).
  assert (Hl1 : (forall w, In w list1 -> P w) /\ (length list1 <= maxWord)%nat).
  { unfold list1. destruct (truthy (getV h node k_flush)) eqn:Hfl.
    - destruct node as [| |n|a]; try discriminate Hfl.
      destruct (Hnode a eq_refl) as [Ha [_ Hw]]. split.
      + intros w Hin. apply in_app_or in Hin. destruct Hin as [Hin|[<-|[]]].
        * now left.
        * right. split; [|exists []; now rewrite app_nil_r].
          rewrite Hw. apply (flush_word a (deref h a)); [now apply lookup_store|].
          exact Hfl.
      + rewrite length_app. simpl. lia.
    - split; [intros w Hin; now left|lia]. }
  clearbody list1. destruct Hl1 as [Hl1 Hlen1].
  assert (Hloop : forall ks, (forall k, In k ks -> In k (keysV h node)) ->
            forall acc, (forall w, In w acc -> P w) -> (length acc <= maxWord)%nat ->
            exists r, fold_left step ks (Some acc) = Some r /\
                      (forall w, In w r -> P w) /\ (length r <= maxWord)%nat).
  { induction ks as [|k ks IHk]; intros Hks acc Hacc Hlen; [eauto|].
    cbn [fold_left]. unfold step at 2. cbv beta iota.
    destruct node as [| |n|a]; try (exfalso; apply (Hks k); now left).
    destruct (Hnode a eq_refl) as [Ha [Hfa Hw]].
    destruct (child_facts a k Ha (Hks k (or_introl eq_refl))) as [_ [_ Hchild]].
    destruct (IH (getV h (VRef a) k) (word ++ k) acc) as [r [Hr [Hin Hlenr]]];
      [lia| |].
    { intros b Hb. destruct (Hchild b Hb) as [Hab Hp].
      split; [lia|]. split; [lia|]. now rewrite Hp, Hw. }
    rewrite Hr. apply IHk.
    - intros k' Hk'. apply Hks. now right.
    - intros w Hw'. destruct (Hin w Hw') as [Hold|[HW [s Hs]]]; [now apply Hacc|].
      right. split; [assumption|]. exists (k ++ s). now rewrite Hs, app_assoc.
    - lia. }
  destruct (Hloop (keysV h node) (fun k Hk => Hk) list1 Hl1 Hlen1)
    as [r [Hr [Hin Hlen]]].
  exists r. split; [exact Hr|]. split; [exact Hin|lia].
Qed.

(** The walk of [complete] returns: either nothing is found, or the
    text matched starts with the lowercased prefix and is the text of
    the node reached. *)
Lemma completeLoop_spec (prefixLower : jsstring) (maxWord : nat) (fuel : nat) :
  forall (idx : nat) (matched : jsstring) (node : value),
    (length prefixLower - idx < fuel)%nat ->
    ((idx < length prefixLower)%nat -> matched = take idx prefixLower) ->
    ((length prefixLower <= idx)%nat -> exists s, matched = prefixLower ++ s) ->
    (forall a, node = VRef a ->
       (a < length h)%nat /\ matched = concat (path a)) ->
    exists out,
      completeLoop fuel h prefixLower maxWord idx matched node = Some out /\
      match out with
      | inl r => r = notFound maxWord
      | inr (m, nd) =>
          (exists s, m = prefixLower ++ s) /\
          forall a, nd = VRef a -> (a < length h)%nat /\ m = concat (path a)
      end.
Proof.
  induction fuel as [|fuel IH]; intros idx matched node Hfuel Hin Hout Hnode; [lia|].
  cbn [completeLoop].
  destruct (Nat.ltb_spec idx (length prefixLower)) as [Hlt|Hge].
  2:{ eexists. split; [reflexivity|]. split; [now apply Hout|assumption]. }
  destruct (find _ (keysV h node)) as [[|c k]|] eqn:Ef;
    [eexists; split; [reflexivity|reflexivity]| |
     eexists; split; [reflexivity|reflexivity]].
  apply find_some in Ef. destruct Ef as [Hk Hmatch].
  destruct node as [| |n|a]; simpl in Hk; try contradiction.
  destruct (Hnode a eq_refl) as [Ha Hm].
  destruct (child_facts a (c :: k) Ha Hk) as [_ [_ Hchild]].
  set (key := c :: k) in *.
  assert (Hkey : (1 <= length key)%nat) by (simpl; lia).
  specialize (Hin Hlt). unfold substring_from in Hmatch.
  pose proof (take_drop idx prefixLower) as Hsplit.
  assert (Hseg : length (drop idx prefixLower) = (length prefixLower - idx)%nat)
    by apply length_drop.
  apply orb_true_iff in Hmatch.
  apply IH.
  - lia.
  - intros Hlt'. destruct Hmatch as [Hm1|Hm2].
    + apply startsWith_spec in Hm1. destruct Hm1 as [r Hr].
      apply (f_equal (@length _)) in Hr. rewrite length_app in Hr. lia.
    + apply startsWith_spec in Hm2. destruct Hm2 as [r Hr].
      rewrite Hin. rewrite <- Hsplit at 2. rewrite Hr.
      rewrite take_app_add'
        by (rewrite length_take; lia).
      now rewrite take_app_length.
  - intros Hge'. destruct Hmatch as [Hm1|Hm2].
    + apply startsWith_spec in Hm1. destruct Hm1 as [r Hr].
      exists r. rewrite Hin, Hr, app_assoc, Hsplit. reflexivity.
    + apply startsWith_spec in Hm2. destruct Hm2 as [r Hr].
      assert (r = []).
      { apply (f_equal (@length _)) in Hr. rewrite length_app in Hr.
        destruct r as [|x r]; [reflexivity|].
        change (length (x :: r)) with (S (length r)) in Hr. lia. }
      subst r. rewrite app_nil_r in Hr. exists [].
      rewrite Hin, <- Hr, Hsplit, app_nil_r. reflexivity.
  - intros b Hb. destruct (Hchild b Hb) as [Hab Hp].
    split; [lia|]. now rewrite Hp, Hm.
Qed.

End Store.

(** *** [closest] *)

Lemma sortInsert_In {A} (cmp : A -> A -> Q) (x y : A) (l : list A) :
  In y (sortInsert cmp x l) -> y = x \/ In y l.
Proof.
  induction l as [|z l IH]; simpl; [intuition congruence|].
  destruct (Qle_bool 0 (cmp x z)); simpl; [|intuition congruence].
  intros [<-|Hin]; [now right; left|]. destruct (IH Hin); auto.
Qed.

Lemma sort_In {A} (cmp : A -> A -> Q) (l : list A) (y : A) :
  In y (sort cmp l) -> In y l.
Proof.
  unfold sort.
  assert (Hgen : forall acc, In y (fold_left (fun acc x => sortInsert cmp x acc) l acc) ->
            In y acc \/ In y l).
  { induction l as [|x l IH]; intros acc Hin; simpl in Hin; [now left|].
    apply IH in Hin. destruct Hin as [Hin|Hin]; [|now right; right].
    apply sortInsert_In in Hin. destruct Hin as [->|Hin]; [right; now left|now left]. }
  intros Hin. apply Hgen in Hin. destruct Hin as [[]|Hin]. exact Hin.
Qed.

Section Closest.
Context `{CaseMapping}.

(** C9: on every constructed trie [closest(target, maxDistance)]
    returns a list; the list is empty when [contains(target)] holds,
    and the distance of each of its entries is at most
    [maxDistance]. *)
Theorem closest_bounded (inp : input) (tr : t) (target : jsstring)
    (maxDistance : Z) :
  create inp = Some (Ok tr) ->
  exists (known : bool) (l : list match_),
    contains tr target = Some known /\
    closest tr target maxDistance = Some l /\
    (known = true -> l = []) /\
    Forall (fun m => m_distance m <= maxDistance) l.
Proof.
  intros Hc. destruct (create_ok inp tr Hc) as [path [W [Hinv [Hm [Hlen _]]]]].
  destruct (containsLoop_total path W (heap tr) Hinv
              (S (length (toLowerCase target))) (toLowerCase target)
              (VRef (model tr))) as [known Hk].
  { lia. }
  { intros a [= <-]. rewrite Hm. exact Hlen. }
  destruct (levenshteinSearch_bounded path W (heap tr) Hinv target maxDistance
              (fuelOf (heap tr)) (VRef (model tr)) [] [])
    as [r [Hr Hall]].
  { unfold fuelOf. lia. }
  { intros a [= <-]. rewrite Hm. unfold fuelOf. lia. }
  { constructor. }
  unfold closest, contains. rewrite Hk.
  destruct known.
  - exists true, []. repeat split; auto.
  - exists false, (sort compareMatches r). rewrite Hr.
    split; [reflexivity|]. split; [reflexivity|]. split; [discriminate|].
    apply List.Forall_forall. intros m Hin. apply sort_In in Hin.
    revert m Hin. now apply List.Forall_forall.
Qed.

End Closest.

Lemma closest_bounded_witness :
  exists (tr : t) (known : bool) (l : list match_),
    create (InArray [js "car"; js "cat"; js "pot"]) = Some (Ok tr) /\
    contains tr (js "cab") = Some known /\
    closest tr (js "cab") 1 = Some l /\
    (known = true -> l = []) /\
    Forall (fun m => m_distance m <= 1) l.
Proof.
  assert (E : exists tr,
            create (InArray [js "car"; js "cat"; js "pot"]) = Some (Ok tr))
    by (eexists; vm_compute; reflexivity).
  destruct E as [tr E].
  destruct (closest_bounded _ tr (js "cab") 1 E) as [known [l Hl]].
  exists tr, known, l. split; [exact E|exact Hl].
Defined.

(** *** [complete] *)

Section Complete.
Context `{CaseMapping}.

(** C10: on every constructed trie [complete(prefix, maxWord)]
    returns; each element of its result is the lowercased form of a
    word of the input and starts with the lowercased prefix, and the
    result has at most [maxWord] elements. *)
Theorem complete_sound (inp : input) (tr : t) (prefix : jsstring)
    (maxWord : nat) :
  create inp = Some (Ok tr) ->
  exists r,
    complete tr prefix maxWord = Some r /\
    (forall w, In w (elements r) ->
       In w (map toLowerCase (inputWords inp)) /\
       startsWith w (toLowerCase prefix) = true) /\
    (length (elements r) <= maxWord)%nat.
Proof.
  intros Hc.
  destruct (create_ok inp tr Hc) as [path [W [Hinv [Hm [Hlen [Hp HW]]]]]].
  assert (Hnone : forall r, r = notFound maxWord ->
            (forall w, In w (elements r) ->
               In w (map toLowerCase (inputWords inp)) /\
               startsWith w (toLowerCase prefix) = true) /\
            (length (elements r) <= maxWord)%nat).
  { intros r ->. unfold notFound.
    destruct (1 <? maxWord)%nat; simpl; (split; [intros w []|lia]). }
  unfold complete. destruct (str_eqb prefix []).
  { eexists. split; [reflexivity|]. now apply Hnone. }
  set (pl := toLowerCase prefix).
  destruct (completeLoop_spec path W (heap tr) Hinv pl maxWord (S (length pl))
              0 [] (VRef (model tr))) as [out [Hout Hspec]].
  { lia. }
  { intros _. now rewrite take_0. }
  { intros Hle. exists []. destruct pl; [reflexivity|simpl in Hle; lia]. }
  { intros a [= <-]. rewrite Hm, Hp. split; [exact Hlen|reflexivity]. }
  rewrite Hout. destruct out as [r|[m nd]].
  { eexists. split; [reflexivity|]. now apply Hnone. }
  destruct Hspec as [[s0 Hs0] Hnd].
  destruct (findWords_spec path W (heap tr) Hinv maxWord (fuelOf (heap tr))
              nd m []) as [found [Hf [Hin Hcap]]].
  { unfold fuelOf. lia. }
  { intros a Ha. destruct (Hnd a Ha) as [Halt Hma].
    unfold fuelOf. split; [exact Halt|]. split; [lia|exact Hma]. }
  rewrite Hf. eexists. split; [reflexivity|].
  assert (Hgood : forall w, In w found ->
            In w (map toLowerCase (inputWords inp)) /\
            startsWith w pl = true).
  { intros w Hw. destruct (Hin w Hw) as [[]|[HwW [s Hs]]].
    split; [now apply HW|]. apply startsWith_spec.
    exists (s0 ++ s). now rewrite Hs, Hs0, app_assoc. }
  simpl in Hcap. rewrite Nat.max_0_r in Hcap.
  destruct (1 <? maxWord)%nat.
  - simpl. split; [exact Hgood|exact Hcap].
  - destruct found as [|w found]; simpl.
    + split; [intros w []|lia].
    + split; [|simpl in Hcap; lia].
      intros w' [<-|[]]. apply Hgood. now left.
Qed.

End Complete.

Lemma complete_sound_witness :
  exists (tr : t) r,
    create (InArray [js "car"; js "cat"; js "pot"]) = Some (Ok tr) /\
    complete tr (js "ca") 2 = Some r /\
    (forall w, In w (elements r) ->
       In w (map toLowerCase [js "car"; js "cat"; js "pot"]) /\
       startsWith w (toLowerCase (js "ca")) = true) /\
    (length (elements r) <= 2)%nat.
Proof.
  assert (E : exists tr,
            create (InArray [js "car"; js "cat"; js "pot"]) = Some (Ok tr))
    by (eexists; vm_compute; reflexivity).
  destruct E as [tr E].
  destruct (complete_sound _ tr (js "ca") 2 E) as [r Hr].
  exists tr, r. split; [exact E|exact Hr].
Defined.

End TrieFacts.

(** ** The edit distance *)

Module LevenshteinFacts.
Import Levenshtein.

(** C1: the documented cost model (replace 1, add to the source 1,
    remove from the source 2) gives 1 for "cat" -> "cats" and 2 for
    "cat" -> "ca"; [levenshtein] returns 2 and 1: it charges
    [deletionScore] for a character added to the source and
    [additionScore] for one removed from it. *)
Theorem levenshtein_scores_exchanged :
  levenshtein (js "cat") (js "cats") 3 = 2 /\
  levenshtein (js "cat") (js "ca") 3 = 1 /\
  editCost (js "cat") (js "cats") = 1 /\
  editCost (js "cat") (js "ca") = 2.
Proof. repeat split; vm_compute; reflexivity. Qed.

End LevenshteinFacts.

(** ** The trie on concrete vocabularies *)

Module TrieExamples.
Import Trie.

(** C2: with "the" and "their" in the trie, [complete("thei")] finds
    nothing: at the node of "the" the key [index] starts with the
    remaining "i" and is followed as if it were an edge. *)
Theorem complete_misses_their :
  exists tr,
    create (InArray [js "the"; js "their"]) = Some (Ok tr) /\
    contains tr (js "their") = Some true /\
    complete tr (js "thei") 1 = Some Undefined /\
    complete tr (js "thei") 2 = Some (Words []).
Proof.
  eexists. split; [vm_compute; reflexivity|].
  repeat split; vm_compute; reflexivity.
Qed.

(** C3: for the vocabulary "abc" a second [compress()] changes the
    trie (the root's edge "ab" becomes "abc"); for the vocabulary
    "flush", "" [contains("flush")] holds before [compress()] and fails
    after it. *)
Theorem compress_twice_differs :
  (exists tr tr',
     create (InArray [js "abc"]) = Some (Ok tr) /\
     compressed tr = Some tr' /\
     keys (deref (heap tr) (model tr)) = [js "ab"] /\
     keys (deref (heap tr') (model tr')) = [js "abc"]) /\
  (exists raw tr,
     tokenize (InArray [js "flush"; js ""])
       {| heap := [[]]; model := 0; index := 0 |} = Ok raw /\
     contains raw (js "flush") = Some true /\
     compressed raw = Some tr /\
     contains tr (js "flush") = Some false).
Proof.
  split.
  - do 2 eexists. split; [vm_compute; reflexivity|].
    split; [vm_compute; reflexivity|]. split; vm_compute; reflexivity.
  - do 2 eexists. split; [vm_compute; reflexivity|].
    split; [vm_compute; reflexivity|].
    split; [vm_compute; reflexivity|]. vm_compute; reflexivity.
Qed.

(** C4: in the trie built from "abc" the root's edge "ab" leads to a
    node that is no word end and has the single child "c". *)
Theorem compress_leaves_single_child :
  exists tr a,
    create (InArray [js "abc"]) = Some (Ok tr) /\
    getOwn (deref (heap tr) (model tr)) (js "ab") = VRef a /\
    getOwn (deref (heap tr) a) k_flush = VUndef /\
    keys (deref (heap tr) a) = [js "c"].
Proof.
  eexists. exists 2%nat. split; [vm_compute; reflexivity|].
  repeat split; vm_compute; reflexivity.
Qed.

End TrieExamples.

(** ** The language model *)

Module NgramFacts.
Import Ngram NgramSpec.

(** Against C5 as stated: with the window size 2.5 the constructor
    succeeds, and it rejects a token array. *)
Lemma create_accepts_fraction :
  ~ (forall input size,
       (exists this, create input size = Ok this) <->
       textual input /\ positiveInteger size).
Proof.
  intros Hclaim.
  destruct (Hclaim (JString (js "a b c d")) (JNumber (Fin (5 # 2)))) as [Hok _].
  destruct Hok as [_ [z [Hz Hq]]].
  - eexists. vm_compute. reflexivity.
  - unfold Qeq in Hq. simpl in Hq. lia.
Qed.

(** C5, amended: for a size other than [NaN], construction succeeds
    exactly when the input is a string and the size is absent or a
    positive number; otherwise it throws and there is no instance. *)
Theorem create_succeeds_iff (input size : jsvalue) :
  size <> JNumber NaN ->
  ((exists this, create input size = Ok this) <->
   acceptedInput input /\ acceptedSize size).
Proof.
  intros Hnan.
  unfold create, acceptedInput, acceptedSize, tokenize, tabulate. split.
  - intros [this Hc].
    destruct input; try discriminate. split; [eauto|].
    destruct size as [| |n| |]; try discriminate; [now left|].
    right. exists n. split; [reflexivity|].
    destruct n as [q| | |]; simpl in *; [|congruence|exact I|discriminate].
    destruct (Qle_bool q 0) eqn:E; [discriminate|].
    apply Qnot_le_lt. intros Hle. apply Qle_bool_iff in Hle. congruence.
  - intros [[s ->] [->|[n [-> Hn]]]].
    + eexists. reflexivity.
    + assert (E : nle n (Fin 0) = false).
      { destruct n as [q| | |]; simpl in *; try tauto.
        destruct (Qle_bool q 0) eqn:E; [|reflexivity].
        apply Qle_bool_iff in E. exfalso. exact (Qlt_not_le _ _ Hn E). }
      rewrite E. eexists. reflexivity.
Qed.

Lemma create_succeeds_iff_witness :
  exists this, create (JString (js "a b c d")) (JNumber (Fin (5 # 2))) = Ok this.
Proof.
  apply (create_succeeds_iff (JString (js "a b c d")) (JNumber (Fin (5 # 2)))).
  - discriminate.
  - split.
    + now exists (js "a b c d").
    + right. exists (Fin (5 # 2)). split; reflexivity.
Defined.

(** *** Numbers that are naturals *)

Lemma truncate_inject (q : Q) (z : Z) : (q == inject_Z z)%Q -> truncate q = z.
Proof.
  intros Hq. unfold truncate.
  destruct (Qle_bool 0 q).
  - rewrite Hq. apply Qfloor_Z.
  - rewrite Hq. apply Qceiling_Z.
Qed.

Lemma nle_ofNat (i len n : nat) :
  nle (ofNat i) (nsub (ofNat len) (ofNat n)) = (i + n <=? len)%nat.
Proof.
  unfold ofNat, nsub, nneg, nadd, nle.
  rewrite <- inject_Z_opp, <- inject_Z_plus.
  destruct (Nat.leb_spec (i + n) len) as [Hle|Hgt].
  - apply Qle_bool_iff. rewrite <- Zle_Qle. lia.
  - destruct (Qle_bool _ _) eqn:E; [|reflexivity].
    apply Qle_bool_iff in E. rewrite <- Zle_Qle in E. lia.
Qed.

Lemma nle_ofNat_zero (n : nat) : (1 <= n)%nat -> nle (ofNat n) (Fin 0) = false.
Proof.
  intros Hn. unfold ofNat, nle.
  destruct (Qle_bool _ _) eqn:E; [|reflexivity].
  apply Qle_bool_iff in E. change 0%Q with (inject_Z 0) in E.
  rewrite <- Zle_Qle in E. lia.
Qed.

Lemma clampIndex_nat (len k : nat) (q : Q) :
  (q == inject_Z (Z.of_nat k))%Q -> (k <= len)%nat ->
  clampIndex len (toIntegerOrInfinity (Fin q)) = k.
Proof.
  intros Hq Hk. simpl. rewrite (truncate_inject _ _ Hq).
  destruct (Z.ltb_spec (Z.of_nat k) 0); lia.
Qed.

Lemma slice_context (tokens : list jsstring) (i n : nat) :
  (1 <= n)%nat -> (i + n <= length tokens)%nat ->
  slice tokens (ofNat i) (nsub (nadd (ofNat i) (ofNat n)) (Fin 1))
  = take (n - 1) (drop i tokens).
Proof.
  intros Hn Hle. unfold slice, ofNat, nsub, nadd, nneg.
  rewrite (clampIndex_nat _ i (inject_Z (Z.of_nat i))) by (reflexivity || lia).
  rewrite (clampIndex_nat _ (i + n - 1)).
  - f_equal. lia.
  - rewrite <- inject_Z_plus. change (- (1))%Q with (inject_Z (-1)).
    rewrite <- inject_Z_plus. f_equiv. lia.
  - lia.
Qed.

Lemma slice_window (tokens : list jsstring) (i n : nat) :
  (i + n <= length tokens)%nat ->
  slice tokens (ofNat i) (nadd (ofNat i) (ofNat n)) = take n (drop i tokens).
Proof.
  intros Hle. unfold slice, ofNat, nadd.
  rewrite (clampIndex_nat _ i (inject_Z (Z.of_nat i))) by (reflexivity || lia).
  rewrite (clampIndex_nat _ (i + n)).
  - f_equal. lia.
  - rewrite <- inject_Z_plus. f_equiv. lia.
  - lia.
Qed.

(** *** [tabulate] *)

Lemma tabulateLoop_counted (tokens : list jsstring) (n : nat)
    (indices rest : list nat) (ngrams : list (jsstring * Z)) :
  (1 <= n)%nat ->
  (forall i, In i indices -> (i + n <= length tokens)%nat) ->
  tabulateLoop tokens (ofNat n) (indices ++ rest) ngrams
  = tabulateLoop tokens (ofNat n) rest
      (fold_left tally
         (map (fun i => join space (window tokens n i))
            (List.filter (fun i => negb (contextEndsSentence tokens n i)) indices))
         ngrams).
Proof.
  intros Hn. revert ngrams.
  induction indices as [|i indices IH]; intros ngrams Hin; [reflexivity|].
  assert (Hi : (i + n <= length tokens)%nat) by (apply Hin; now left).
  cbn [app tabulateLoop List.filter].
  rewrite nle_ofNat. destruct (Nat.leb_spec (i + n) (length tokens)); [|lia].
  rewrite slice_context, slice_window by assumption.
  fold (contextEndsSentence tokens n i).
  destruct (contextEndsSentence tokens n i); cbn [negb map fold_left].
  - apply IH. intros j Hj. apply Hin. now right.
  - unfold window, tally at 2. apply IH. intros j Hj. apply Hin. now right.
Qed.

Lemma tabulateLoop_stop (tokens : list jsstring) (n i k : nat)
    (ngrams : list (jsstring * Z)) :
  (length tokens < i + n)%nat ->
  tabulateLoop tokens (ofNat n) (seq i k) ngrams = ngrams.
Proof.
  intros Hlt. destruct k as [|k]; [reflexivity|].
  cbn [seq tabulateLoop]. rewrite nle_ofNat.
  destruct (Nat.leb_spec (i + n) (length tokens)); [lia|reflexivity].
Qed.

(** C7: for a window size [n >= 1], [tabulate] tallies exactly the
    windows at the positions [0 .. length - n] none of whose first
    [n - 1] tokens ends a sentence, the last token being free to; for
    the tokens of "hi there. hi friend." and size 2 the window at
    position 1 is skipped and the table of the model is
    "hi there." -> 1/2, "hi friend." -> 1/2. *)
Theorem tabulate_counts_windows (tokens : list jsstring) (n : nat) :
  (1 <= n)%nat ->
  tabulate tokens (JNumber (ofNat n))
  = Ok (fold_left tally (countedWindows tokens n) []) /\
  (forall i, (i + n <= length tokens)%nat ->
     In (join space (window tokens n i)) (countedWindows tokens n) <->
     exists j, (j + n <= length tokens)%nat /\
       join space (window tokens n j) = join space (window tokens n i) /\
       forall t, In t (take (n - 1) (drop j tokens)) -> isEndOfSentence t = false) /\
  (contextEndsSentence (splitWhiteSpace (js "hi there. hi friend.")) 2 1 = true /\
   model <$> (match create (JString (js "hi there. hi friend.")) (JNumber (ofNat 2))
              with Ok this => Some this | Throw _ => None end)
   = Some [(js "hi there.", 1 # 2); (js "hi friend.", 1 # 2)]).
Proof.
  intros Hn. split; [|split].
  - unfold tabulate. rewrite nle_ofNat_zero by assumption. f_equal.
    replace (seq 0 (S (length tokens)))
      with (seq 0 (length tokens + 1 - n) ++
            seq (length tokens + 1 - n) (S (length tokens) - (length tokens + 1 - n))).
    + rewrite tabulateLoop_counted.
      * rewrite tabulateLoop_stop by lia. reflexivity.
      * assumption.
      * intros i Hi. apply in_seq in Hi. lia.
    + rewrite <- seq_app. f_equal. lia.
  - intros i Hi. unfold countedWindows. rewrite in_map_iff. split.
    + intros [j [Hj Hin]]. apply filter_In in Hin. destruct Hin as [Hseq Hctx].
      apply in_seq in Hseq. exists j. split; [lia|]. split; [assumption|].
      intros t Ht. apply negb_true_iff in Hctx. unfold contextEndsSentence in Hctx.
      destruct (isEndOfSentence t) eqn:E; [|reflexivity].
      assert (existsb isEndOfSentence (take (n - 1) (drop j tokens)) = true)
        by (apply existsb_exists; eauto).
      congruence.
    + intros [j [Hj [Hw Hfree]]]. exists j. split; [assumption|].
      apply filter_In. split; [apply in_seq; lia|].
      apply negb_true_iff. unfold contextEndsSentence.
      destruct (existsb _ _) eqn:E; [|reflexivity].
      apply existsb_exists in E. destruct E as [t [Ht Ht']].
      rewrite (Hfree t Ht) in Ht'. discriminate.
  - split; vm_compute; reflexivity.
Qed.

Lemma tabulate_counts_windows_witness :
  (1 <= 2)%nat /\
  tabulate (splitWhiteSpace (js "hi there. hi friend.")) (JNumber (ofNat 2))
  = Ok (fold_left tally
          (countedWindows (splitWhiteSpace (js "hi there. hi friend.")) 2) []).
Proof.
  split; [lia|].
  exact (proj1 (tabulate_counts_windows
                  (splitWhiteSpace (js "hi there. hi friend.")) 2
                  (le_S 1 1 (le_n 1)))).
Defined.

(** *** [suggestNextWord] *)

Section Suggest.
Context `{CaseMapping}.

(** The scan started with the best probability [best] and the word
    [word]: either no entry that matches lies above [best] and [word]
    is returned, or the first best match does and its final token is
    returned. *)
Lemma suggestLoop_spec (entries : list (jsstring * Q)) (sequence : jsstring) :
  (forall e, In e entries -> (snd e <= 1)%Q) ->
  forall (best : Q) (word : jsstring),
    (suggestLoop entries sequence best word = word /\
     forall e, In e entries -> suffixMatches sequence (fst e) = true ->
       (snd e <= best)%Q) \/
    (exists i ngram p,
       firstBestMatch entries sequence i ngram p /\ (best < p)%Q /\
       suggestLoop entries sequence best word = finalToken ngram).
Proof.
  induction entries as [|[ngram p] rest IH]; intros Hle best word.
  - left. split; [reflexivity|]. intros e [].
  - assert (Hrest : forall e, In e rest -> (snd e <= 1)%Q)
      by (intros e He; apply Hle; now right).
    assert (Hp : (p <= 1)%Q) by (apply (Hle (ngram, p)); now left).
    cbn [suggestLoop].
    fold (leadingTokens ngram). fold (suffixMatches sequence ngram).
    fold (finalToken ngram).
    destruct (Qle_bool p best) eqn:Hpb.
    + (* not above the best so far *)
      apply Qle_bool_iff in Hpb.
      destruct (IH Hrest best word) as [[Hw Hall]|[i [g [q [[Hi [Hm [Hmax Hfirst]]] [Hq Hr]]]]]].
      * left. split; [assumption|].
        intros e [<-|He]; [intros _; exact Hpb|now apply Hall].
      * right. exists (S i), g, q. split; [|split; assumption].
        split; [exact Hi|]. split; [exact Hm|]. split.
        -- intros [|j] e He Hme; [|exact (Hmax j e He Hme)].
           injection He as <-. simpl. apply Qlt_le_weak.
           eapply Qle_lt_trans; eassumption.
        -- intros [|j] e Hj He Hme; [|apply (Hfirst j e); [lia|assumption..]].
           injection He as <-. simpl. eapply Qle_lt_trans; eassumption.
    + assert (Hbp : (best < p)%Q).
      { apply Qnot_le_lt. intros Hc. apply Qle_bool_iff in Hc. congruence. }
      destruct (suffixMatches sequence ngram) eqn:Hmatch.
      * destruct (Qeq_bool p 1) eqn:Hone.
        -- (* a probability of one ends the scan *)
           apply Qeq_bool_iff in Hone.
           right. exists 0%nat, ngram, p. split; [|split; [assumption|reflexivity]].
           split; [reflexivity|]. split; [assumption|]. split.
           ++ intros j e He _. rewrite Hone. apply Hle.
              apply list_elem_of_In. eapply list_elem_of_lookup_2. exact He.
           ++ intros j e Hj. lia.
        -- destruct (IH Hrest p (finalToken ngram))
             as [[Hw Hall]|[i [g [q [[Hi [Hm [Hmax Hfirst]]] [Hq Hr]]]]]].
           ++ right. exists 0%nat, ngram, p. split; [|split; assumption].
              split; [reflexivity|]. split; [assumption|]. split.
              ** intros [|j] e He Hme.
                 --- injection He as <-. apply Qle_refl.
                 --- apply Hall; [|assumption].
                     apply list_elem_of_In. eapply list_elem_of_lookup_2. exact He.
              ** intros j e Hj. lia.
           ++ right. exists (S i), g, q.
              split; [|split; [eapply Qlt_trans; eassumption|assumption]].
              split; [exact Hi|]. split; [exact Hm|]. split.
              ** intros [|j] e He Hme; [|exact (Hmax j e He Hme)].
                 injection He as <-. simpl. now apply Qlt_le_weak.
              ** intros [|j] e Hj He Hme; [|apply (Hfirst j e); [lia|assumption..]].
                 injection He as <-. exact Hq.
      * destruct (IH Hrest best word) as [[Hw Hall]|[i [g [q [[Hi [Hm [Hmax Hfirst]]] [Hq Hr]]]]]].
        -- left. split; [assumption|].
           intros e [<-|He]; [simpl; congruence|now apply Hall].
        -- right. exists (S i), g, q. split; [|split; assumption].
           split; [exact Hi|]. split; [exact Hm|]. split.
           ++ intros [|j] e He Hme; [|exact (Hmax j e He Hme)].
              injection He as <-. simpl in Hme. congruence.
           ++ intros [|j] e Hj He Hme; [|apply (Hfirst j e); [lia|assumption..]].
              injection He as <-. simpl in Hme. congruence.
Qed.

End Suggest.

(** *** The probabilities of a constructed model *)

Lemma mapSet_In {V} (m : list (jsstring * V)) (k : jsstring) (v : V) e :
  In e (mapSet m k v) -> snd e = v \/ In e m.
Proof.
  induction m as [|[k' v'] m IH]; simpl.
  - intros [<-|[]]. now left.
  - destruct (str_eqb k' k); simpl.
    + intros [<-|He]; [now left|now right; right].
    + intros [<-|He]; [now right; left|].
      destruct (IH He); [now left|now right; right].
Qed.

Lemma mapGet_In {V} (m : list (jsstring * V)) (k : jsstring) (v : V) :
  mapGet m k = Some v -> exists k', In (k', v) m.
Proof.
  unfold mapGet. induction m as [|[k' v'] m IH]; simpl; [discriminate|].
  destruct (str_eqb k' k); simpl.
  - intros [= <-]. exists k'. now left.
  - intros Hg. destruct (IH Hg) as [k'' Hin]. exists k''. now right.
Qed.

Lemma tabulateLoop_positive (tokens : list jsstring) (size : number)
    (indices : list nat) (ngrams : list (jsstring * Z)) :
  (forall e, In e ngrams -> 1 <= snd e) ->
  forall e, In e (tabulateLoop tokens size indices ngrams) -> 1 <= snd e.
Proof.
  revert ngrams. induction indices as [|i indices IH]; intros ngrams Hpos;
    cbn [tabulateLoop]; [assumption|].
  destruct (nle _ _); [|assumption].
  destruct (existsb _ _); [now apply IH|].
  apply IH. intros e He. apply mapSet_In in He. destruct He as [->|He]; [|auto].
  destruct (mapGet ngrams _) as [c|] eqn:Hg; simpl; [|lia].
  apply mapGet_In in Hg. destruct Hg as [k' Hin]. apply Hpos in Hin. simpl in Hin. lia.
Qed.

Lemma sum_bounds (counts : list Z) :
  (forall c, In c counts -> 1 <= c) ->
  forall acc c, In c counts ->
    acc + c <= fold_left (fun sum count => sum + count) counts acc.
Proof.
  induction counts as [|d counts IH]; intros Hpos acc c; [intros []|].
  assert (Hmono : forall l a, (forall x, In x l -> 1 <= x) ->
            a <= fold_left (fun sum count => sum + count) l a).
  { clear. induction l as [|x l IHl]; intros a Hx; simpl; [lia|].
    specialize (IHl (a + x) (fun y Hy => Hx y (or_intror Hy))).
    specialize (Hx x (or_introl eq_refl)). lia. }
  simpl. intros [->|Hc].
  - apply Hmono. intros x Hx. apply Hpos. now right.
  - specialize (IH (fun x Hx => Hpos x (or_intror Hx)) (acc + d) c Hc).
    specialize (Hpos d (or_introl eq_refl)). lia.
Qed.

Lemma probabilities_In (grams : list (jsstring * Z)) e :
  In e (probabilities grams) ->
  exists c, In c (map snd grams) /\
    (snd e = inject_Z c /
             inject_Z (fold_left (fun sum count => (sum + count)%Z)
                         (map snd grams) 0%Z))%Q.
Proof.
  unfold probabilities.
  set (total := fold_left _ (map snd grams) 0). clearbody total.
  assert (Hgen : forall (l : list (jsstring * Z)) m,
            In e (fold_left
                    (fun m e => mapSet m (fst e) (inject_Z (snd e) / inject_Z total)%Q)
                    l m) ->
            In e m \/ exists c, In c (map snd l) /\
                       snd e = (inject_Z c / inject_Z total)%Q).
  { induction l as [|[k c] l IHl]; intros m Hin; simpl in Hin; [now left|].
    apply IHl in Hin. destruct Hin as [Hin|[c' [Hc' He]]].
    - apply mapSet_In in Hin. destruct Hin as [He|Hin]; [|now left].
      right. exists c. split; [now left|exact He].
    - right. exists c'. split; [now right|exact He]. }
  intros Hin. apply Hgen in Hin. destruct Hin as [[]|Hin]. exact Hin.
Qed.

(** Every probability of a constructed model lies in (0, 1]. *)
Lemma create_probabilities (input size : jsvalue) (this : t) :
  create input size = Ok this ->
  forall e, In e (model this) -> (0 < snd e)%Q /\ (snd e <= 1)%Q.
Proof.
  unfold create. destruct (tokenize input) as [tokens|]; [|discriminate].
  destruct (match size with JUndefined => JNumber (Fin 4) | v => v end)
    as [| |n| |]; cbn [tabulate]; try discriminate.
  destruct (nle n (Fin 0)); [discriminate|].
  remember (tabulateLoop tokens n (seq 0 (S (length tokens))) []) as grams
    eqn:Hgrams.
  intros [= <-] e He. cbn [model] in He.
  assert (Hpos : forall c, In c (map snd grams) -> 1 <= c).
  { intros c Hc. apply in_map_iff in Hc. destruct Hc as [g [<- Hg]].
    rewrite Hgrams in Hg. revert Hg. apply tabulateLoop_positive. intros ? []. }
  apply probabilities_In in He. destruct He as [c [Hc ->]].
  pose proof (sum_bounds _ Hpos 0 c Hc) as Hsum.
  specialize (Hpos c Hc).
  set (total := fold_left _ (map snd grams) 0) in *.
  assert (Ht : (0 < inject_Z total)%Q)
    by (change 0%Q with (inject_Z 0); rewrite <- Zlt_Qlt; lia).
  split.
  - apply Qlt_shift_div_l; [assumption|]. rewrite Qmult_0_l.
    change 0%Q with (inject_Z 0). rewrite <- Zlt_Qlt. lia.
  - apply Qle_shift_div_r; [assumption|]. rewrite Qmult_1_l.
    rewrite <- Zle_Qle. lia.
Qed.

Section SuggestNextWord.
Context `{CaseMapping}.

(** C6: on a constructed model [suggestNextWord(sequence)] returns the
    final token of the first n-gram, in table order, of the highest
    probability among those whose leading tokens the sequence ends
    with, case ignored (the empty string when there is none); an
    accepted probability of one ends the scan whatever follows; for
    size 2 over a b a c a b a c the table is a b: 2/7, b a: 2/7,
    a c: 2/7, c a: 1/7, it sums to 1 and [suggestNextWord("a")] is
    "b". *)
Theorem suggestNextWord_first_best (input size : jsvalue) (this : t)
    (sequence : jsstring) :
  create input size = Ok this ->
  ((suggestNextWord this sequence false = [] /\
    forall e, In e (model this) -> suffixMatches sequence (fst e) = false) \/
   (exists i ngram p,
      firstBestMatch (model this) sequence i ngram p /\
      suggestNextWord this sequence false = finalToken ngram)) /\
  (forall ngram p rest best word,
     (best < p)%Q -> (p == 1)%Q -> suffixMatches sequence ngram = true ->
     suggestLoop ((ngram, p) :: rest) sequence best word = finalToken ngram) /\
  (exists that,
     create (JString (js "a b a c a b a c")) (JNumber (ofNat 2)) = Ok that /\
     model that = [(js "a b", 2 # 7); (js "b a", 2 # 7);
                   (js "a c", 2 # 7); (js "c a", 1 # 7)] /\
     (fold_right Qplus 0 (map snd (model that)) == 1)%Q /\
     suggestNextWord (H := latin1) that (js "a") false = js "b").
Proof.
  intros Hc. split; [|split].
  - pose proof (create_probabilities _ _ _ Hc) as Hp.
    unfold suggestNextWord.
    destruct (suggestLoop_spec (model this) sequence
                (fun e He => proj2 (Hp e He)) 0 [])
      as [[Hw Hall]|[i [g [q [Hbest [_ Hr]]]]]].
    + left. split; [assumption|]. intros e He.
      destruct (suffixMatches sequence (fst e)) eqn:Hm; [|reflexivity].
      exfalso. apply (Qlt_not_le _ _ (proj1 (Hp e He))). now apply Hall.
    + right. exists i, g, q. split; assumption.
  - intros ngram p rest best word Hb Hone Hm. cbn [suggestLoop].
    fold (leadingTokens ngram). fold (suffixMatches sequence ngram).
    fold (finalToken ngram). rewrite Hm.
    destruct (Qle_bool p best) eqn:E.
    + apply Qle_bool_iff in E. exfalso. exact (Qlt_not_le _ _ Hb E).
    + apply Qeq_bool_iff in Hone. rewrite Hone. reflexivity.
  - eexists. split; [vm_compute; reflexivity|].
    split; [vm_compute; reflexivity|]. split; vm_compute; reflexivity.
Qed.

End SuggestNextWord.

Lemma suggestNextWord_first_best_witness :
  exists this,
    create (JString (js "a b a c a b a c")) (JNumber (ofNat 2)) = Ok this /\
    ((suggestNextWord this (js "a") false = [] /\
      forall e, In e (model this) -> suffixMatches (js "a") (fst e) = false) \/
     (exists i ngram p,
        firstBestMatch (model this) (js "a") i ngram p /\
        suggestNextWord this (js "a") false = finalToken ngram)).
Proof.
  eexists. split; [vm_compute; reflexivity|].
  apply (suggestNextWord_first_best
           (JString (js "a b a c a b a c")) (JNumber (ofNat 2))).
  vm_compute. reflexivity.
Defined.

(** *** The cache of [complete] *)

(** Against C8 as stated: the model of "a bc. b d" (size 2) completes
    "a" to "a bc" and caches it; the longer prefix "a b", which
    "a bc" starts with, is then completed to "a b d". *)
Lemma complete_replaces_cache :
  let this0 := {| size := ofNat 2;
                  model := [(js "a bc.", 1 # 2); (js "b d", 1 # 2)];
                  lookup := [] |} in
  create (JString (js "a bc. b d")) (JNumber (ofNat 2)) = Ok this0 /\
  ~ (forall (this : t) (p p' S : jsstring) (n : nat),
       fst (complete this p n) = S -> lookup (snd (complete this p n)) = S ->
       S <> [] -> (length p < length p')%nat -> startsWith S p' = true ->
       fst (complete (snd (complete this p n)) p' n) = S).
Proof.
  intros this0. split; [vm_compute; reflexivity|].
  intros Hclaim.
  specialize (Hclaim this0 (js "a") (js "a b") (js "a bc") 1%nat).
  vm_compute in Hclaim.
  specialize (Hclaim eq_refl eq_refl ltac:(discriminate) ltac:(lia) eq_refl).
  discriminate Hclaim.
Qed.

Section Cache.
Context `{CaseMapping}.

(** C8, amended: when the cache holds a non-empty suggestion that
    starts with the non-empty prefix, [complete] returns the cache and
    keeps it if the candidate computed for the prefix is the prefix
    itself, is the cache, or does not start with the prefix; a candidate
    that is new and starts with the prefix replaces the cache and is
    returned. *)
Theorem complete_returns_cache (this : t) (prefix : jsstring) (n : nat) :
  lookup this <> [] -> prefix <> [] ->
  startsWith (lookup this) prefix = true ->
  let candidate := join space (completeLoop this n (splitWhiteSpace prefix) []) in
  (candidate = prefix \/ candidate = lookup this \/
   startsWith candidate prefix = false ->
   complete this prefix n = (lookup this, this)) /\
  (candidate <> prefix -> candidate <> lookup this ->
   startsWith candidate prefix = true ->
   complete this prefix n
   = (candidate, {| size := size this; model := model this; lookup := candidate |})).
Proof.
  intros Hcache Hprefix Hstarts candidate. unfold complete.
  apply str_eqb_neq in Hprefix. rewrite Hprefix. fold candidate.
  split.
  - intros Hcand.
    assert (Hkeep : negb (str_eqb candidate prefix)
                    && negb (str_eqb candidate (lookup this))
                    && startsWith candidate prefix = false).
    { destruct Hcand as [Hc | [Hc | Hc]]; rewrite Hc.
      - now rewrite str_eqb_refl.
      - rewrite str_eqb_refl. now rewrite andb_false_r.
      - apply andb_false_r. }
    rewrite Hkeep. apply str_eqb_neq in Hcache. rewrite Hcache, Hstarts.
    simpl. destruct this; reflexivity.
  - intros Hne1 Hne2 Hst.
    apply str_eqb_neq in Hne1, Hne2. rewrite Hne1, Hne2, Hst. simpl.
    assert (Hnonempty : str_eqb candidate [] = false).
    { apply str_eqb_neq. intros Hc. rewrite Hc in Hst.
      destruct prefix; [discriminate Hprefix|discriminate Hst]. }
    rewrite Hnonempty, Hst. reflexivity.
Qed.

End Cache.

Lemma complete_returns_cache_witness :
  let this := {| size := ofNat 2;
                 model := [(js "a bc.", 1 # 2); (js "b d", 1 # 2)];
                 lookup := js "a bc" |} in
  complete this (js "a") 1 = (js "a bc", this).
Proof.
  intros this.
  apply (complete_returns_cache this (js "a") 1);
    [discriminate | discriminate | reflexivity |].
  right. left. vm_compute. reflexivity.
Defined.

End NgramFacts.

(** ** The rows of [levenshtein] and the matrix they stand for *)

Module LevenshteinRows.
Import Levenshtein LevenshteinSpec.

Lemma cell_succ (source target : jsstring) (i j : nat) :
  cell source target (S i) (S j)
  = min3 (cell source target i j + differ source target i j)
         (cell source target (S i) j + deletionScore)
         (cell source target i (S j) + additionScore).
Proof. reflexivity. Qed.

Lemma cell_zero_l (source target : jsstring) (j : nat) :
  cell source target 0 j = Z.of_nat j.
Proof. destruct j; reflexivity. Qed.

Lemma cell_zero_r (source target : jsstring) (i : nat) :
  cell source target i 0 = Z.of_nat i.
Proof. destruct i; [reflexivity|]. cbn [cell]. unfold additionScore. lia. Qed.

Lemma differ_range (source target : jsstring) (i j : nat) :
  0 <= differ source target i j <= 1.
Proof. unfold differ, revisionScore. destruct (negb _); lia. Qed.

(** An entry lies between the difference of its indices and their
    sum. *)
Lemma cell_bounds (source target : jsstring) (i j : nat) :
  Z.abs (Z.of_nat i - Z.of_nat j) <= cell source target i j
  <= Z.of_nat i + Z.of_nat j.
Proof.
  revert j. induction i as [|i IHi]; intros j.
  - rewrite cell_zero_l. lia.
  - induction j as [|j IHj].
    + rewrite cell_zero_r. lia.
    + rewrite cell_succ. unfold min3, deletionScore, additionScore.
      pose proof (differ_range source target i j).
      pose proof (IHi j). pose proof (IHi (S j)). lia.
Qed.

Lemma toInt32_small (z : Z) : - 2 ^ 31 <= z < 2 ^ 31 -> toInt32 z = z.
Proof.
  intros Hz. unfold toInt32. rewrite Z.mod_small; lia.
Qed.

Lemma rd_insert_eq (row : list Z) (j : nat) (v : Z) :
  (j < length row)%nat -> rd (<[j := v]> row) j = v.
Proof. intros Hj. unfold rd. now rewrite list_lookup_insert_eq. Qed.

Lemma rd_insert_ne (row : list Z) (j j' : nat) (v : Z) :
  j <> j' -> rd (<[j := v]> row) j' = rd row j'.
Proof. intros Hj. unfold rd. now rewrite list_lookup_insert_ne. Qed.

Section Rows.
Variables source target : jsstring.

Lemma init_row_spec (n : nat) :
  forall (k : nat) (row : list Z),
    length row = S (length target) -> (k + n = S (length target))%nat ->
    (forall j, (j < k)%nat -> rd row j = Z.of_nat j) ->
    Z.of_nat (length target) < 2 ^ 31 ->
    isRow source target 0 (init_row (seq k n) row).
Proof.
  induction n as [|n IH]; intros k row Hlen Hkn Hdone Hsmall.
  - split; [exact Hlen|]. intros j Hj. rewrite cell_zero_l. apply Hdone. lia.
  - cbn [seq init_row]. apply IH.
    + now rewrite length_insert.
    + lia.
    + intros j Hj. destruct (Nat.eq_dec k j) as [->|Hne].
      * rewrite rd_insert_eq by lia. apply toInt32_small. lia.
      * rewrite rd_insert_ne by assumption. apply Hdone. lia.
    + exact Hsmall.
Qed.

Lemma inner_spec (i : nat) (prevRow : list Z) (n : nat) :
  isRow source target i prevRow ->
  Z.of_nat (S i) + Z.of_nat (length target) < 2 ^ 31 ->
  forall (k : nat) (currRow : list Z),
    length currRow = S (length target) -> (k + n = length target)%nat ->
    (forall j, (j <= k)%nat -> rd currRow j = cell source target (S i) j) ->
    isRow source target (S i)
      (inner source target (S i) (seq (S k) n) prevRow currRow).
Proof.
  intros [Hplen Hprev] Hsmall.
  induction n as [|n IH]; intros k currRow Hlen Hkn Hdone.
  - split; [exact Hlen|]. intros j Hj. apply Hdone. lia.
  - cbn [seq inner]. apply IH.
    + now rewrite length_insert.
    + lia.
    + intros j Hj.
      rewrite !Nat.sub_succ, !Nat.sub_0_r.
      fold (differ source target i k).
      rewrite (Hprev k), (Hprev (S k)), (Hdone k) by lia.
      rewrite <- cell_succ.
      destruct (Nat.eq_dec (S k) j) as [<-|Hne].
      * rewrite rd_insert_eq by lia. apply toInt32_small.
        pose proof (cell_bounds source target (S i) (S k)). lia.
      * rewrite rd_insert_ne by assumption. apply Hdone. lia.
Qed.

Lemma outer_spec (n : nat) :
  forall (i : nat) (prevRow currRow : list Z),
    isRow source target i prevRow -> length currRow = S (length target) ->
    Z.of_nat (i + n) + Z.of_nat (length target) < 2 ^ 31 ->
    isRow source target (i + n)
      (fst (outer source target (seq (S i) n) prevRow currRow)).
Proof.
  induction n as [|n IH]; intros i prevRow currRow Hprev Hlen Hsmall.
  - rewrite Nat.add_0_r. exact Hprev.
  - cbn [seq outer]. replace (i + S n)%nat with (S i + n)%nat by lia.
    apply IH.
    + apply inner_spec with (k := 0%nat).
      * exact Hprev.
      * lia.
      * now rewrite length_insert.
      * lia.
      * intros j Hj. assert (j = 0%nat) as -> by lia.
        rewrite rd_insert_eq by lia. rewrite cell_zero_r.
        unfold additionScore. rewrite Z.mul_1_r. apply toInt32_small. lia.
    + apply Hprev.
    + lia.
Qed.

Lemma levenshtein_within (maximumDistance : Z) :
  Z.of_nat (length source) + Z.of_nat (length target) < 2 ^ 31 ->
  (Z.abs (Z.of_nat (length source) - Z.of_nat (length target))
   >? maximumDistance) = false ->
  levenshtein source target maximumDistance
  = rd (fst (outer source target (seq 1 (length source))
               (init_row (seq 0 (length target + 1))
                  (replicate (length target + 1) 0))
               (replicate (length target + 1) 0)))
       (length target).
Proof.
  intros Hsmall Hgap. unfold levenshtein. rewrite Hgap.
  destruct (outer source target _ _ _). reflexivity.
Qed.

Lemma last_row :
  Z.of_nat (length source) + Z.of_nat (length target) < 2 ^ 31 ->
  isRow source target (length source)
    (fst (outer source target (seq 1 (length source))
            (init_row (seq 0 (length target + 1))
               (replicate (length target + 1) 0))
            (replicate (length target + 1) 0))).
Proof.
  intros Hsmall.
  apply (outer_spec (length source) 0).
  - apply init_row_spec.
    + rewrite length_replicate. lia.
    + lia.
    + intros j Hj. lia.
    + lia.
  - rewrite length_replicate. lia.
  - lia.
Qed.

End Rows.

Lemma cell_diagonal (s : jsstring) (n : nat) : cell s s n n = 0.
Proof.
  induction n as [|n IH]; [reflexivity|].
  rewrite cell_succ, IH. unfold differ. rewrite str_eqb_refl. simpl negb.
  pose proof (cell_bounds s s (S n) n). pose proof (cell_bounds s s n (S n)).
  unfold min3, deletionScore, additionScore. lia.
Qed.



(** X2: the distance of a string to itself is 0, for every bound that
    is not negative. *)
Theorem levenshtein_identical (s : jsstring) (maximumDistance : Z) :
  0 <= maximumDistance -> 2 * Z.of_nat (length s) < 2 ^ 31 ->
  levenshtein s s maximumDistance = 0.
Proof.
  intros Hk Hsmall.
  rewrite levenshtein_within.
  - rewrite (proj2 (last_row s s ltac:(lia))) by lia. apply cell_diagonal.
  - lia.
  - destruct (Z.gtb_spec (Z.abs (Z.of_nat (length s) - Z.of_nat (length s)))
                maximumDistance); [lia|reflexivity].
Qed.

Lemma levenshtein_identical_witness :
  0 <= 1 /\ 2 * Z.of_nat (length (js "pass")) < 2 ^ 31 /\
  levenshtein (js "pass") (js "pass") 1 = 0.
Proof.
  split; [lia|]. split; [vm_compute; reflexivity|].
  apply (levenshtein_identical (js "pass") 1); [lia|vm_compute; reflexivity].
Defined.



End LevenshteinRows.

(** ** More about the constructed trie *)

Module TrieMore.
Import Trie TrieInv TrieFacts TrieSpec.

Section Construction.
Context `{CaseMapping}.

Lemma insert_index (word : jsstring) (tr tr' : t) :
  insert word tr = Ok tr' -> index tr' = index tr + 1.
Proof.
  unfold insert.
  destruct (insertWalk _ _ _) as [[h [| | |a]]|]; try discriminate.
  now intros [= <-].
Qed.

Lemma insertAll_index (words : list jsstring) :
  forall tr tr', insertAll words tr = Ok tr' ->
    index tr' = index tr + Z.of_nat (length words).
Proof.
  induction words as [|w words IH]; intros tr tr'; cbn [insertAll].
  - intros [= <-]. simpl. lia.
  - destruct (insert w tr) as [tr1|] eqn:E; [|discriminate].
    intros Hall. apply IH in Hall. apply insert_index in E.
    cbn [length]. lia.
Qed.

(** X4: the constructor throws a [TypeError] when [input] is
    [undefined] or [null] (there is no [constructor] to read), it
    throws its own error on another input that is neither a string nor
    an array, and it throws on nothing else: inserting the words of a
    string or of an array of strings never fails, and afterwards
    [this.index] is the number of words inserted. *)
Theorem constructor_outcome (inp : input) :
  match inp with
  | InNullish => create inp = Some (Throw "TypeError")
  | InOther =>
      create inp = Some (Throw "Invalid constructor, must be String or Array")
  | InString _ | InArray _ =>
      exists tr, create inp = Some (Ok tr) /\
        model tr = 0%nat /\
        index tr = Z.of_nat (length (inputWords inp))
  end.
Proof.
  assert (Hwords : inp <> InOther -> inp <> InNullish ->
            exists tr, create inp = Some (Ok tr) /\
              model tr = 0%nat /\
              index tr = Z.of_nat (length (inputWords inp))).
  { intros Hother Hnull.
    destruct (tokenize_inv inp Hother Hnull) as [path [W [tr1 [Ht [Hinv [Hm [Hlen _]]]]]]].
    destruct (compress_inv path W (heap tr1) Hinv (fuelOf (heap tr1)) (heap tr1) 0)
      as [h' [Hc _]];
      [now apply insertedInv_compressedInv|reflexivity|assumption
      |unfold fuelOf; lia|reflexivity|].
    exists {| heap := h'; model := model tr1; index := index tr1 |}.
    unfold create. rewrite Ht, Hm, Hc. split; [reflexivity|].
    split; [reflexivity|]. cbn [index].
    destruct inp as [s|words| |]; cbn [tokenize inputWords] in *;
      [|  |congruence|congruence].
    - apply insert_index in Ht. simpl in *. lia.
    - apply insertAll_index in Ht. simpl in Ht. lia. }
  destruct inp as [s|words| |];
    [apply Hwords; discriminate|apply Hwords; discriminate
    |reflexivity|reflexivity].
Qed.

(** X5: in a constructed trie every property that holds an object is
    an edge with a non-empty label (of at most four code units, one or
    two characters) to an object created after its owner: the trie has
    no cycle and no traversal can stall on an empty label. *)
Theorem constructed_edges (inp : input) (tr : t) (a b : nat) (o : obj)
    (k : jsstring) :
  create inp = Some (Ok tr) ->
  heap tr !! a = Some o -> In (k, VRef b) o ->
  (a < b < length (heap tr))%nat /\ (1 <= length k <= 4)%nat.
Proof.
  intros Hc Hl Hin.
  destruct (create_ok inp tr Hc) as [path [W [Hinv _]]].
  destruct (Hinv a o k (VRef b) Hl Hin) as [Hab [p [_ [-> [Hne [Hlen Hall]]]]]].
  split; [exact Hab|]. split.
  - pose proof (concat_nonempty p Hne Hall) as Hk.
    destruct (concat p); [congruence|simpl; lia].
  - now apply concat_short.
Qed.



End Construction.

Section Walks.
Variables (path : nat -> list jsstring) (W : list jsstring) (h : store).
Hypothesis Hinv : compressedInv path W h.

(** When the loop of [contains] answers [true], the text of the node
    it started from followed by the remaining word is an inserted
    word. *)
Lemma containsLoop_sound (fuel : nat) :
  forall (remainingWord : jsstring) (node : value) (consumed : jsstring),
    (forall a, node = VRef a ->
       (a < length h)%nat /\ consumed = concat (path a)) ->
    containsLoop fuel h remainingWord node = Some true ->
    In (consumed ++ remainingWord) W.
Proof.
  induction fuel as [|fuel IH]; intros rem node consumed Hnode; [discriminate|].
  cbn [containsLoop].
  destruct ((0 <? length rem)%nat && truthy node) eqn:Hcond.
  - destruct (find _ (keysV h node)) as [key|] eqn:Ef; [|discriminate].
    apply find_some in Ef. destruct Ef as [Hk Hf].
    destruct node as [| |n|a]; simpl in Hk; try contradiction.
    destruct (Hnode a eq_refl) as [Ha Hc].
    destruct (child_facts path W h Hinv a key Ha Hk) as [_ [_ Hchild]].
    apply andb_true_iff in Hf. destruct Hf as [_ Hf].
    apply str_eqb_eq in Hf. unfold substring_to in Hf.
    intros Hres.
    apply (IH _ _ (consumed ++ key)) in Hres.
    + unfold substring_from in Hres.
      assert (Hsplit : key ++ drop (length key) rem = rem).
      { rewrite <- Hf at 1. apply take_drop. }
      rewrite <- app_assoc, Hsplit in Hres. exact Hres.
    + intros b Hb. destruct (Hchild b Hb) as [Hab Hp].
      split; [lia|]. now rewrite Hp, Hc.
  - intros [= Hres]. apply andb_true_iff in Hres. destruct Hres as [Hlen Hfl].
    apply Nat.eqb_eq in Hlen. destruct rem; [|discriminate Hlen].
    rewrite app_nil_r.
    destruct node as [| |n|a]; try discriminate Hfl.
    destruct (Hnode a eq_refl) as [Ha ->].
    apply (flush_word path W h Hinv a (deref h a)); [now apply lookup_store|].
    exact Hfl.
Qed.

(** What [levenshteinSearch] adds to [results]: the texts of word-end
    nodes, each with its distance to the target, which is within the
    bound. *)
Lemma levenshteinSearch_words (target : jsstring) (maxDistance : Z)
    (fuel : nat) :
  forall (node : value) (word : jsstring) (results r : list match_),
    (forall a, node = VRef a -> (a < length h)%nat /\ word = concat (path a)) ->
    levenshteinSearch fuel h target maxDistance node word results = Some r ->
    forall m, In m r ->
      In m results \/
      (In (m_word m) W /\ (exists s, m_word m = word ++ s) /\
       m_distance m = Levenshtein.levenshtein (m_word m) target maxDistance /\
       m_distance m <= maxDistance).
Proof.
  induction fuel as [|fuel IH]; intros node word results r Hnode; [discriminate|].
  cbn [levenshteinSearch].
  match goal with |- context [fold_left ?f _ (Some ?r1)] =>
    set (step := f); set (results1 := r1) end.
  set (P := fun m : match_ =>
              In m results \/
              (In (m_word m) W /\ (exists s, m_word m = word ++ s) /\
               m_distance m = Levenshtein.levenshtein (m_word m) target maxDistance /\
               m_distance m <= maxDistance)).
  assert (Hres1 : forall m, In m results1 -> P m).
  { unfold results1. destruct (truthy (getV h node k_flush)) eqn:Hfl;
      [|intros m Hm; now left].
    destruct (Z.leb_spec (Levenshtein.levenshtein word target maxDistance) maxDistance)
      as [Hle|Hgt]; [|intros m Hm; now left].
    intros m Hm. apply in_app_or in Hm. destruct Hm as [Hm|[<-|[]]]; [now left|].
    right. cbn [m_word m_distance].
    destruct node as [| |n|a]; try discriminate Hfl.
    destruct (Hnode a eq_refl) as [Ha Hw].
    split; [|split; [exists []; now rewrite app_nil_r|split; [reflexivity|exact Hle]]].
    rewrite Hw. apply (flush_word path W h Hinv a (deref h a));
      [now apply lookup_store|exact Hfl]. }
  clearbody results1.
  assert (Hloop : forall ks, (forall k, In k ks -> In k (keysV h node)) ->
            forall acc r', (forall m, In m acc -> P m) ->
              fold_left step ks (Some acc) = Some r' ->
              forall m, In m r' -> P m).
  { induction ks as [|k ks IHk]; intros Hks acc r' Hacc.
    { intros [= <-]. exact Hacc. }
    cbn [fold_left]. unfold step at 2. cbv beta iota.
    change (negb (isFlushField k)) with true. cbv iota.
    destruct node as [| |n|a]; try (exfalso; apply (Hks k); now left).
    destruct (Hnode a eq_refl) as [Ha Hw].
    destruct (child_facts path W h Hinv a k Ha (Hks k (or_introl eq_refl)))
      as [_ [_ Hchild]].
    destruct (levenshteinSearch fuel h target maxDistance (getV h (VRef a) k)
                (word ++ k) acc) as [r1|] eqn:Hr1.
    2:{ intros Hf. exfalso. clear -Hf. induction ks; simpl in Hf;
          [discriminate|auto]. }
    apply IHk; [intros k' Hk'; apply Hks; now right|].
    intros m Hm.
    assert (Hchild' : forall b, getV h (VRef a) k = VRef b ->
              (b < length h)%nat /\ word ++ k = concat (path b)).
    { intros b Hb. destruct (Hchild b Hb) as [Hab Hp].
      split; [lia|]. now rewrite Hp, Hw. }
    destruct (IH _ _ _ _ Hchild' Hr1 m Hm) as [Hold|[HW [[s Hs] Hd]]].
    - now apply Hacc.
    - right. split; [exact HW|]. split; [|exact Hd].
      exists (k ++ s). now rewrite Hs, app_assoc. }
  intros Hf m Hm. exact (Hloop _ (fun k Hk => Hk) results1 r Hres1 Hf m Hm).
Qed.

End Walks.

(** *** The order of [closest] *)

Lemma compareMatches_nonneg (x y : match_) :
  Qle_bool 0 (compareMatches x y) = true -> ranksBefore y x.
Proof.
  unfold compareMatches, ranksBefore, Float64.sub. intros Hc.
  apply Qle_bool_iff in Hc.
  destruct (Qeq_bool (adjustedDistance x) (adjustedDistance y)) eqn:E;
    simpl in Hc; apply (proj1 (Float64Facts.round_nonneg _)) in Hc.
  - apply Qeq_bool_iff in E. right. split; [now symmetry|lra].
  - apply Qeq_bool_neq in E. left.
    destruct (Qlt_le_dec (adjustedDistance y) (adjustedDistance x)) as [Hlt|Hle];
      [exact Hlt|].
    exfalso. apply E. lra.
Qed.

Lemma compareMatches_neg (x y : match_) :
  Qle_bool 0 (compareMatches x y) = false -> ranksBefore x y.
Proof.
  unfold compareMatches, ranksBefore, Float64.sub. intros Hc.
  assert (Hneg : ~ (0 <= (if negb (Qeq_bool (adjustedDistance x) (adjustedDistance y))
                          then adjustedDistance x - adjustedDistance y
                          else indexOf x - indexOf y))%Q).
  { intros Hle. destruct (Qeq_bool (adjustedDistance x) (adjustedDistance y));
      simpl in *; apply (proj2 (Float64Facts.round_nonneg _)) in Hle;
      apply Qle_bool_iff in Hle; congruence. }
  destruct (Qeq_bool (adjustedDistance x) (adjustedDistance y)) eqn:E; simpl in Hneg.
  - apply Qeq_bool_iff in E. right. split; [exact E|].
    apply Qnot_lt_le. intros Hlt. apply Hneg. lra.
  - left. apply Qnot_le_lt. intros Hle. apply Hneg. lra.
Qed.

Lemma ranksBefore_trans (a b c : match_) :
  ranksBefore a b -> ranksBefore b c -> ranksBefore a c.
Proof.
  unfold ranksBefore. intros [Hab|[Hab Hiab]] [Hbc|[Hbc Hibc]].
  - left. lra.
  - left. lra.
  - left. lra.
  - right. split; lra.
Qed.

Lemma sortInsert_sorted (x : match_) (l : list match_) :
  StronglySorted ranksBefore l ->
  StronglySorted ranksBefore (sortInsert compareMatches x l).
Proof.
  induction l as [|y l IH]; intros Hs; simpl.
  - repeat constructor.
  - apply StronglySorted_inv in Hs. destruct Hs as [Hl Hy].
    destruct (Qle_bool 0 (compareMatches x y)) eqn:E.
    + constructor; [now apply IH|].
      apply List.Forall_forall. intros z Hz. apply sortInsert_In in Hz.
      destruct Hz as [->|Hz]; [now apply compareMatches_nonneg|].
      revert z Hz. now apply List.Forall_forall.
    + apply compareMatches_neg in E.
      constructor; [now constructor|].
      constructor; [exact E|].
      apply List.Forall_forall. intros z Hz.
      apply (ranksBefore_trans x y z E).
      revert z Hz. now apply List.Forall_forall.
Qed.

Lemma sort_sorted (l : list match_) :
  StronglySorted ranksBefore (sort compareMatches l).
Proof.
  unfold sort.
  assert (Hgen : forall acc, StronglySorted ranksBefore acc ->
            StronglySorted ranksBefore
              (fold_left (fun acc x => sortInsert compareMatches x acc) l acc)).
  { induction l as [|x l IH]; intros acc Hacc; simpl; [exact Hacc|].
    apply IH. now apply sortInsert_sorted. }
  apply Hgen. constructor.
Qed.

Lemma sort_keeps {A} (cmp : A -> A -> Q) (l : list A) (y : A) :
  In y l -> In y (sort cmp l).
Proof.
  assert (Hins : forall x acc z, z = x \/ In z acc -> In z (sortInsert cmp x acc)).
  { intros x acc z. induction acc as [|w acc IH]; simpl.
    - intros [->|[]]. now left.
    - destruct (Qle_bool 0 (cmp x w)); simpl.
      + intros [->|[->|Hz]]; [right; apply IH; now left|now left|right; apply IH; now right].
      + intros [->|[->|Hz]]; [now left|right; now left|right; now right]. }
  unfold sort.
  assert (Hgen : forall acc, In y acc \/ In y l ->
            In y (fold_left (fun acc x => sortInsert cmp x acc) l acc)).
  { induction l as [|x l IH]; intros acc [Hy|Hy]; simpl in *;
      [exact Hy|contradiction| |].
    - apply IH. left. apply Hins. now right.
    - destruct Hy as [->|Hy]; apply IH; [left; apply Hins; now left|now right]. }
  intros Hy. apply Hgen. now right.
Qed.

(** The penalty is rounded as the code rounds it: 1 + 118 * .01 is
    the double below 2.18 and 2 + 18 * .01 is the double 2.18, so the
    entry of index 5118 comes first. *)
Lemma penalty_is_rounded :
  let car := {| m_word := js "car"; m_distance := 1; m_index := VNum 5118 |} in
  let cot := {| m_word := js "cot"; m_distance := 2; m_index := VNum 5018 |} in
  (adjustedDistance car < adjustedDistance cot)%Q /\
  sort compareMatches [cot; car] = [car; cot].
Proof. split; vm_compute; reflexivity. Qed.

Section Queries.
Context `{CaseMapping}.

(** X6: [contains] returns on every constructed trie, and it answers
    [true] only for a word whose lowercased form is the lowercased form
    of a word of the input. *)
Theorem contains_sound (inp : input) (tr : t) (word : jsstring) :
  create inp = Some (Ok tr) ->
  exists known,
    contains tr word = Some known /\
    (known = true ->
     In (toLowerCase word) (map toLowerCase (inputWords inp))).
Proof.
  intros Hc. destruct (create_ok inp tr Hc) as [path [W [Hinv [Hm [Hlen [Hp HW]]]]]].
  assert (Hroot : forall a, VRef (model tr) = VRef a ->
            (a < length (heap tr))%nat /\ [] = concat (path a)).
  { intros a [= <-]. rewrite Hm, Hp. split; [exact Hlen|reflexivity]. }
  destruct (containsLoop_total path W (heap tr) Hinv
              (S (length (toLowerCase word))) (toLowerCase word)
              (VRef (model tr))) as [known Hk].
  { lia. }
  { intros a Ha. now apply Hroot. }
  exists known. split; [exact Hk|]. intros ->.
  apply HW.
  exact (containsLoop_sound path W (heap tr) Hinv _ _ _ [] Hroot Hk).
Qed.

(** X7: every entry of [closest] carries the lowercased form of a word
    of the input and the value of [levenshtein] for that word and the
    target; and [closest] loses none of the matches of
    [levenshteinSearch]. *)
Theorem closest_words (inp : input) (tr : t) (target : jsstring)
    (maxDistance : Z) :
  create inp = Some (Ok tr) ->
  exists l,
    closest tr target maxDistance = Some l /\
    (forall m, In m l ->
       In (m_word m) (map toLowerCase (inputWords inp)) /\
       m_distance m = Levenshtein.levenshtein (m_word m) target maxDistance) /\
    (contains tr target = Some false ->
     forall r,
       levenshteinSearch (fuelOf (heap tr)) (heap tr) target maxDistance
         (VRef (model tr)) [] [] = Some r ->
       forall m, In m r -> In m l).
Proof.
  intros Hc. destruct (create_ok inp tr Hc) as [path [W [Hinv [Hm [Hlen [Hp HW]]]]]].
  assert (Hroot : forall a, VRef (model tr) = VRef a ->
            (a < length (heap tr))%nat /\ [] = concat (path a)).
  { intros a [= <-]. rewrite Hm, Hp. split; [exact Hlen|reflexivity]. }
  destruct (containsLoop_total path W (heap tr) Hinv
              (S (length (toLowerCase target))) (toLowerCase target)
              (VRef (model tr))) as [known Hk].
  { lia. }
  { intros a Ha. now apply Hroot. }
  destruct (levenshteinSearch_bounded path W (heap tr) Hinv target maxDistance
              (fuelOf (heap tr)) (VRef (model tr)) [] [])
    as [r [Hr _]].
  { unfold fuelOf. lia. }
  { intros a [= <-]. rewrite Hm. unfold fuelOf. lia. }
  { constructor. }
  unfold closest. fold (contains tr target) in Hk. rewrite Hk.
  destruct known.
  - exists []. split; [reflexivity|]. split; [intros m []|discriminate].
  - rewrite Hr. exists (sort compareMatches r). split; [reflexivity|]. split.
    + intros m Hin. apply sort_In in Hin.
      destruct (levenshteinSearch_words path W (heap tr) Hinv target maxDistance
                  _ _ _ _ _ Hroot Hr m Hin) as [[]|[HwW [_ [Hd _]]]].
      split; [now apply HW|exact Hd].
    + intros _ r' [= <-] m Hin. now apply sort_keeps.
Qed.

(** X8: the list [closest] returns is in ascending order of adjusted
    distance (the doubles the comparator computes, with their rounding),
    entries of equal adjusted distance in ascending order of index. *)
Theorem closest_sorted (inp : input) (tr : t) (target : jsstring)
    (maxDistance : Z) :
  create inp = Some (Ok tr) ->
  exists l,
    closest tr target maxDistance = Some l /\
    StronglySorted ranksBefore l.
Proof.
  intros Hc. destruct (create_ok inp tr Hc) as [path [W [Hinv [Hm [Hlen _]]]]].
  destruct (containsLoop_total path W (heap tr) Hinv
              (S (length (toLowerCase target))) (toLowerCase target)
              (VRef (model tr))) as [known Hk].
  { lia. }
  { intros a [= <-]. rewrite Hm. exact Hlen. }
  destruct (levenshteinSearch_bounded path W (heap tr) Hinv target maxDistance
              (fuelOf (heap tr)) (VRef (model tr)) [] [])
    as [r [Hr _]].
  { unfold fuelOf. lia. }
  { intros a [= <-]. rewrite Hm. unfold fuelOf. lia. }
  { constructor. }
  unfold closest. fold (contains tr target) in Hk. rewrite Hk.
  destruct known.
  - exists []. split; [reflexivity|constructor].
  - rewrite Hr. exists (sort compareMatches r). split; [reflexivity|].
    apply sort_sorted.
Qed.

End Queries.

Lemma contains_sound_witness :
  exists (tr : t) known,
    create (InArray [js "Car"; js "cat"]) = Some (Ok tr) /\
    contains tr (js "CAR") = Some known /\
    (known = true ->
     In (toLowerCase (js "CAR")) (map toLowerCase [js "Car"; js "cat"])).
Proof.
  assert (E : exists tr, create (InArray [js "Car"; js "cat"]) = Some (Ok tr))
    by (eexists; vm_compute; reflexivity).
  destruct E as [tr E].
  destruct (contains_sound _ tr (js "CAR") E) as [known Hk].
  exists tr, known. split; [exact E|exact Hk].
Defined.

Lemma closest_words_witness :
  exists (tr : t) l,
    create (InArray [js "car"; js "cat"; js "pot"]) = Some (Ok tr) /\
    closest tr (js "cab") 1 = Some l /\
    forall m, In m l ->
      In (m_word m) (map toLowerCase [js "car"; js "cat"; js "pot"]) /\
      m_distance m = Levenshtein.levenshtein (m_word m) (js "cab") 1.
Proof.
  assert (E : exists tr,
            create (InArray [js "car"; js "cat"; js "pot"]) = Some (Ok tr))
    by (eexists; vm_compute; reflexivity).
  destruct E as [tr E].
  destruct (closest_words _ tr (js "cab") 1 E) as [l [Hl [Hw _]]].
  exists tr, l. split; [exact E|]. split; [exact Hl|exact Hw].
Defined.

Lemma closest_sorted_witness :
  exists (tr : t) l,
    create (InArray [js "car"; js "cat"; js "pot"]) = Some (Ok tr) /\
    closest tr (js "cab") 1 = Some l /\ StronglySorted ranksBefore l.
Proof.
  assert (E : exists tr,
            create (InArray [js "car"; js "cat"; js "pot"]) = Some (Ok tr))
    by (eexists; vm_compute; reflexivity).
  destruct E as [tr E].
  destruct (closest_sorted _ tr (js "cab") 1 E) as [l Hl].
  exists tr, l. split; [exact E|exact Hl].
Defined.

Lemma constructed_edges_witness :
  exists (tr : t) (o : obj),
    create (InArray [js "car"; js "cat"]) = Some (Ok tr) /\
    heap tr !! 0%nat = Some o /\ In (js "ca", VRef 2) o /\
    (0 < 2 < length (heap tr))%nat /\ (1 <= length (js "ca") <= 4)%nat.
Proof.
  assert (E : exists tr o,
            create (InArray [js "car"; js "cat"]) = Some (Ok tr) /\
            heap tr !! 0%nat = Some o /\ In (js "ca", VRef 2) o).
  { do 2 eexists. split; [vm_compute; reflexivity|].
    split; [vm_compute; reflexivity|]. left. reflexivity. }
  destruct E as [tr [o [E [Hl Hin]]]].
  exists tr, o. split; [exact E|]. split; [exact Hl|]. split; [exact Hin|].
  exact (constructed_edges _ tr 0 2 o (js "ca") E Hl Hin).
Defined.

End TrieMore.

(** ** Every word of the input is found by [closest] *)

Module TrieReach.
Import Trie TrieInv TrieRoutes TrieFacts TrieMore.

(** *** Reading a property after a write *)

Lemma getOwn_updProp_eq (o : obj) (k : jsstring) (v : value) :
  In k (keys o) -> getOwn (updProp o k v) k = v.
Proof.
  induction o as [|[k' v'] o IH]; simpl; [tauto|].
  destruct (str_eqb k' k) eqn:E; simpl; rewrite E; [reflexivity|].
  intros [Hk|Hk]; [apply str_eqb_neq in E; congruence|now apply IH].
Qed.

Lemma getOwn_updProp_ne (o : obj) (k k' : jsstring) (v : value) :
  k' <> k -> getOwn (updProp o k v) k' = getOwn o k'.
Proof.
  intros Hne. induction o as [|[k1 v1] o IH]; simpl; [reflexivity|].
  destruct (str_eqb k1 k) eqn:E; simpl.
  - apply str_eqb_eq in E. subst k1.
    now rewrite (proj2 (str_eqb_neq k k')) by congruence.
  - now rewrite IH.
Qed.

Lemma getOwn_absent (o : obj) (k : jsstring) :
  ~ In k (keys o) -> getOwn o k = VUndef.
Proof.
  induction o as [|[k' v'] o IH]; simpl; [reflexivity|].
  intros Hk. destruct (str_eqb k' k) eqn:E.
  - apply str_eqb_eq in E. tauto.
  - apply IH. tauto.
Qed.

Lemma getOwn_addProp_eq (o : obj) (k : jsstring) (v : value) :
  ~ In k (keys o) -> getOwn (addProp o k v) k = v.
Proof.
  induction o as [|[k' v'] o IH]; simpl; intros Hk.
  - now rewrite str_eqb_refl.
  - assert (Hne : str_eqb k' k = false) by (apply str_eqb_neq; tauto).
    destruct (arrayIndex k) as [n|]; [destruct (arrayIndex k') as [n'|]|].
    + destruct (n <? n')%N; simpl.
      * now rewrite str_eqb_refl.
      * rewrite Hne. apply IH. tauto.
    + simpl. now rewrite str_eqb_refl.
    + simpl. rewrite Hne. apply IH. tauto.
Qed.

Lemma getOwn_addProp_ne (o : obj) (k k' : jsstring) (v : value) :
  k' <> k -> getOwn (addProp o k v) k' = getOwn o k'.
Proof.
  intros Hne.
  assert (Hk : str_eqb k k' = false) by (apply str_eqb_neq; congruence).
  induction o as [|[k1 v1] o IH]; simpl.
  - now rewrite Hk.
  - destruct (arrayIndex k) as [n|]; [destruct (arrayIndex k1) as [n'|]|].
    + destruct (n <? n')%N; simpl; [now rewrite Hk|now rewrite IH].
    + simpl. now rewrite Hk.
    + simpl. now rewrite IH.
Qed.

Lemma getOwn_setProp_eq (o : obj) (k : jsstring) (v : value) :
  getOwn (setProp o k v) k = v.
Proof.
  unfold setProp. destruct (hasOwn o k) eqn:E.
  - apply getOwn_updProp_eq. now apply hasOwn_keys.
  - apply getOwn_addProp_eq. intros Hk. apply hasOwn_keys in Hk. congruence.
Qed.

Lemma getOwn_setProp_ne (o : obj) (k k' : jsstring) (v : value) :
  k' <> k -> getOwn (setProp o k v) k' = getOwn o k'.
Proof.
  intros Hne. unfold setProp. destruct (hasOwn o k).
  - now apply getOwn_updProp_ne.
  - now apply getOwn_addProp_ne.
Qed.

Lemma getOwn_deleteProp_ne (o : obj) (k k' : jsstring) :
  k' <> k -> getOwn (deleteProp o k) k' = getOwn o k'.
Proof.
  intros Hne. induction o as [|[k1 v1] o IH]; simpl; [reflexivity|].
  destruct (str_eqb k1 k) eqn:E; simpl.
  - apply str_eqb_eq in E. subst k1.
    now rewrite (proj2 (str_eqb_neq k k')) by congruence.
  - now rewrite IH.
Qed.

Lemma getOwn_keys (o : obj) (k : jsstring) :
  getOwn o k <> VUndef -> In k (keys o).
Proof.
  intros Hne. apply In_keys. exists (getOwn o k). now apply getOwn_In.
Qed.

Lemma deref_write_eq (h : store) (a : nat) (o : obj) :
  (a < length h)%nat -> deref (<[a := o]> h) a = o.
Proof. intros Ha. unfold deref. now rewrite list_lookup_insert_eq. Qed.

Lemma deref_write_ne (h : store) (a y : nat) (o : obj) :
  y <> a -> deref (<[a := o]> h) y = deref h y.
Proof. intros Hne. unfold deref. now rewrite list_lookup_insert_ne by congruence. Qed.

Lemma deref_same (h h' : store) (a : nat) :
  h' !! a = h !! a -> deref h' a = deref h a.
Proof. unfold deref. now intros ->. Qed.

(** *** Routes *)

Lemma route_mono (h h' : store) (a : nat) (w : jsstring) (b : nat) :
  (forall y key c, getOwn (deref h y) key = VRef c ->
     getOwn (deref h' y) key = VRef c) ->
  route h a w b -> route h' a w b.
Proof.
  intros Hext Hr. induction Hr as [a|a key c w b Hk _ IH].
  - constructor.
  - apply route_step with (c := c); [now apply Hext|exact IH].
Qed.

Lemma extends_refl (h : store) : extends h h.
Proof. split; auto. Qed.

Lemma extends_trans (h1 h2 h3 : store) :
  extends h1 h2 -> extends h2 h3 -> extends h1 h3.
Proof. intros [E1 F1] [E2 F2]. split; auto. Qed.

(** A route stays when the objects below its start are left alone. *)
Lemma route_frame path W (h h' : store) (a : nat) (w : jsstring) (b : nat) :
  compressedInv path W h -> (a < length h)%nat ->
  (forall y, below path a y -> h' !! y = h !! y) ->
  route h a w b -> route h' a w b.
Proof.
  intros Hinv Ha Hframe Hr. induction Hr as [a|a key c w b Hk _ IH].
  - constructor.
  - pose proof (lookup_store h a Ha) as Hl.
    assert (Hin : In (key, VRef c) (deref h a)).
    { rewrite <- Hk. apply getOwn_In. rewrite Hk. discriminate. }
    destruct (Hinv a _ key (VRef c) Hl Hin) as [Hac [p [Hp _]]].
    apply route_step with (c := c).
    + rewrite (deref_same h h' a) by (apply Hframe, below_refl). exact Hk.
    + apply IH; [lia|]. intros y [q Hq]. apply Hframe.
      exists (p ++ q). now rewrite Hq, Hp, app_assoc.
Qed.

Lemma route_below path W (h : store) (a : nat) (w : jsstring) (b : nat) :
  compressedInv path W h -> (a < length h)%nat ->
  route h a w b -> below path a b /\ (b < length h)%nat.
Proof.
  intros Hinv Ha Hr. induction Hr as [a|a key c w b Hk _ IH].
  - split; [apply below_refl|exact Ha].
  - pose proof (lookup_store h a Ha) as Hl.
    assert (Hin : In (key, VRef c) (deref h a)).
    { rewrite <- Hk. apply getOwn_In. rewrite Hk. discriminate. }
    destruct (Hinv a _ key (VRef c) Hl Hin) as [Hac [p [Hp _]]].
    destruct IH as [[q Hq] Hb]; [lia|]. split; [|exact Hb].
    exists (p ++ q). now rewrite Hq, Hp, app_assoc.
Qed.

(** *** Code points *)

Lemma codePoints_first (s q : jsstring) (l : list jsstring) :
  codePoints s = q :: l ->
  exists rest, s = q ++ rest /\ l = codePoints rest /\
    ((exists c d, q = [c; d] /\ isHighSurrogate c && isLowSurrogate d = true) \/
     (exists c, q = [c] /\
        (rest = [] \/
         exists d r0, rest = d :: r0 /\
           isHighSurrogate c && isLowSurrogate d = false))).
Proof.
  destruct s as [|c [|d r0]]; simpl; [discriminate| |].
  - intros [= <- <-]. exists []. split; [reflexivity|]. split; [reflexivity|].
    right. exists c. split; [reflexivity|now left].
  - destruct (isHighSurrogate c && isLowSurrogate d) eqn:E; intros [= <- <-].
    + exists r0. split; [reflexivity|]. split; [reflexivity|].
      left. now exists c, d.
    + exists (d :: r0). split; [reflexivity|]. split; [reflexivity|].
      right. exists c. split; [reflexivity|]. right. now exists d, r0.
Qed.

Lemma codePoints_prefix (l1 l2 : list jsstring) :
  codePoints (concat (l1 ++ l2)) = l1 ++ l2 ->
  codePoints (concat l1) = l1.
Proof.
  revert l2. induction l1 as [|q l1 IH]; intros l2 Hc; [reflexivity|].
  simpl in Hc.
  destruct (codePoints_first _ _ _ Hc) as [rest [Hs [Hl Hq]]].
  apply app_inv_head in Hs. subst rest.
  symmetry in Hl. pose proof (IH l2 Hl) as IH1.
  simpl. destruct Hq as [[c [d [-> E]]]|[c [-> Hrest]]].
  - simpl. rewrite E. now rewrite IH1.
  - destruct l1 as [|q' l1]; [reflexivity|].
    pose proof (proj2 (codePoints_spec (concat (q' :: l1)))) as Hall.
    rewrite IH1 in Hall. apply Forall_cons_iff in Hall.
    destruct Hall as [[Hq' _] _].
    destruct q' as [|d' q']; [congruence|].
    destruct Hrest as [Hrest|[d [r0 [Hrest E]]]]; [discriminate Hrest|].
    simpl in Hrest. injection Hrest as <- _.
    change (concat ((d' :: q') :: l1)) with (d' :: (q' ++ concat l1)) in *.
    change ([c] ++ d' :: (q' ++ concat l1)) with (c :: d' :: (q' ++ concat l1)).
    cbn [codePoints]. rewrite E. cbn [codePoints] in IH1. now rewrite IH1.
Qed.

Lemma canonical_distinct path (h : store) (x c1 c2 : nat) (q1 q2 : list jsstring) :
  canonical path h -> (c1 < length h)%nat -> (c2 < length h)%nat ->
  path c1 = path x ++ q1 -> path c2 = path x ++ q2 ->
  concat q1 = concat q2 -> q1 = q2.
Proof.
  intros Hcan H1 H2 Hp1 Hp2 Hq.
  pose proof (Hcan c1 H1) as E1. pose proof (Hcan c2 H2) as E2.
  rewrite Hp1, concat_app in E1. rewrite Hp2, concat_app in E2.
  rewrite Hq in E1. rewrite E1 in E2. now apply app_inv_head in E2.
Qed.

(** *** The insertions keep every word reachable *)

Lemma extends_alloc path W (h : store) (a : nat) (c : jsstring) :
  insertedInv path W h -> (a < length h)%nat -> codePointKey c ->
  getOwn (deref h a) c = VUndef ->
  extends h (<[a := setProp (deref h a) c (VRef (length h))]> (h ++ [[]])).
Proof.
  intros Hinv Ha Hc Hnew.
  assert (Hgrow : (a < length (h ++ [[]]))%nat) by (rewrite length_app; simpl; lia).
  assert (Hobj : forall y key,
            key <> c \/ y <> a ->
            getOwn (deref h y) key <> VUndef ->
            getOwn (deref (<[a := setProp (deref h a) c (VRef (length h))]>
                             (h ++ [[]])) y) key
            = getOwn (deref h y) key).
  { intros y key Hd Hy. destruct (Nat.eq_dec y a) as [->|Hne].
    - rewrite deref_write_eq by assumption.
      apply getOwn_setProp_ne. destruct Hd; congruence.
    - rewrite deref_write_ne by assumption.
      destruct (Nat.lt_ge_cases y (length h)) as [Hlt|Hge];
        [now rewrite deref_app|].
      exfalso. apply Hy. unfold deref.
      now rewrite (proj2 (lookup_ge_None h y)) by lia. }
  split.
  - intros y key b Hk. rewrite Hobj; [exact Hk| |rewrite Hk; discriminate].
    destruct (Nat.eq_dec y a) as [->|Hne]; [left|now right].
    intros ->. congruence.
  - intros y Hy. unfold wordEnd in *. rewrite Hobj; [exact Hy| |].
    + left. intros E. apply codePointKey_not_mark in Hc. symmetry in E. tauto.
    + intros E. rewrite E in Hy. discriminate.
Qed.

Lemma insertWalk_routes W (cs : list jsstring) :
  forall path (h : store) (a : nat),
    insertedInv path W h -> canonical path h -> (a < length h)%nat ->
    Forall codePointKey cs ->
    codePoints (concat (path a ++ cs)) = path a ++ cs ->
    exists path' (h' : store) (a' : nat),
      insertWalk cs h (VRef a) = Ok (h', VRef a') /\
      insertedInv path' W h' /\ (a' < length h')%nat /\
      (length h <= length h')%nat /\
      (forall y, (y < length h)%nat -> path' y = path y) /\
      path' a' = path a ++ cs /\
      canonical path' h' /\ extends h h' /\ route h' a (concat cs) a'.
Proof.
  induction cs as [|c cs IH]; intros path h a Hinv Hcan Ha Hcs Hcp.
  - exists path, h, a. rewrite app_nil_r.
    split; [reflexivity|]. split; [assumption|]. split; [assumption|].
    split; [lia|]. split; [reflexivity|]. split; [reflexivity|].
    split; [assumption|]. split; [apply extends_refl|constructor].
  - apply Forall_cons_iff in Hcs. destruct Hcs as [Hc Hcs].
    pose proof (lookup_store h a Ha) as Hl.
    cbn [insertWalk].
    destruct (insertedInv_getOwn path W h a _ c Hinv Hl Hc)
      as [E|[b [E [Hab Hpb]]]]; rewrite E.
    + unfold alloc. rewrite deref_app by assumption.
      pose proof (insertedInv_alloc path W h a _ c Hinv Hl Hc) as Hinv1.
      pose proof (extends_alloc path W h a c Hinv Ha Hc E) as Hext1.
      set (path1 := fun y => if (y =? length h)%nat then path a ++ [c] else path y) in *.
      set (h1 := <[a := setProp (deref h a) c (VRef (length h))]> (h ++ [[]])) in *.
      assert (Hlen1 : length h1 = S (length h)).
      { unfold h1. rewrite length_insert, length_app. simpl. lia. }
      assert (Hcan1 : canonical path1 h1).
      { intros y Hy. unfold path1. destruct (Nat.eqb_spec y (length h)).
        - apply (codePoints_prefix _ cs). now rewrite <- app_assoc.
        - apply Hcan. lia. }
      assert (Hnew : path1 (length h) = path a ++ [c]).
      { unfold path1. now rewrite Nat.eqb_refl. }
      destruct (IH path1 h1 (length h) Hinv1 Hcan1)
        as [path' [h' [a' [Hw [Hi [Ha' [Hlen [Hp [Hpa [Hcan' [Hext Hroute]]]]]]]]]]].
      * lia.
      * assumption.
      * rewrite Hnew, <- app_assoc. exact Hcp.
      * exists path', h', a'. split; [exact Hw|]. split; [exact Hi|].
        split; [exact Ha'|]. split; [lia|]. split.
        { intros y Hy. rewrite Hp by lia. unfold path1.
          destruct (Nat.eqb_spec y (length h)); [lia|reflexivity]. }
        split; [rewrite Hpa, Hnew, <- app_assoc; reflexivity|].
        split; [exact Hcan'|].
        split; [exact (extends_trans _ _ _ Hext1 Hext)|].
        simpl. apply route_step with (c := length h); [|exact Hroute].
        apply (proj1 Hext). unfold h1.
        rewrite deref_write_eq by (rewrite length_app; simpl; lia).
        apply getOwn_setProp_eq.
    + destruct (IH path h b Hinv Hcan)
        as [path' [h' [a' [Hw [Hi [Ha' [Hlen [Hp [Hpa [Hcan' [Hext Hroute]]]]]]]]]]];
        [lia|assumption|rewrite Hpb, <- app_assoc; exact Hcp|].
      exists path', h', a'. split; [exact Hw|]. split; [exact Hi|].
      split; [exact Ha'|]. split; [exact Hlen|]. split; [exact Hp|].
      split; [rewrite Hpa, Hpb, <- app_assoc; reflexivity|].
      split; [exact Hcan'|]. split; [exact Hext|].
      simpl. apply route_step with (c := b); [|exact Hroute].
      now apply (proj1 Hext).
Qed.

(** The store of [insert] once its walk is over: the object reached is
    marked and numbered. *)
Lemma mark_inv path W (h : store) (a : nat) (w : jsstring) (n : Z) :
  insertedInv path W h -> (a < length h)%nat -> concat (path a) = w ->
  let o2 := setProp (setProp (deref h a) k_flush VTrue) k_index (VNum n) in
  insertedInv path (w :: W) (<[a := o2]> h) /\ extends h (<[a := o2]> h) /\
  wordEnd (<[a := o2]> h) a.
Proof.
  intros Hi Ha Hpa o2.
  pose proof (lookup_store h a Ha) as Hl.
  assert (Hflush : In (k_flush, VTrue) o2).
  { apply setProp_old; [apply setProp_In_new|apply k_flush_not_index]. }
  assert (Hget : getOwn o2 k_flush = VTrue).
  { unfold o2. rewrite getOwn_setProp_ne by apply k_flush_not_index.
    apply getOwn_setProp_eq. }
  assert (Hsame : forall z, (z < length h)%nat -> path z = path z) by reflexivity.
  assert (HW : forall w', In w' W -> In w' (w :: W)) by (intros; now right).
  assert (Hlen' : (length h <= length (<[a := o2]> h))%nat)
    by (rewrite length_insert; lia).
  split; [|split].
  - intros y o' Hy. apply lookup_write in Hy. destruct Hy as [[-> [-> _]]|[Hne Hy]].
    + split; [apply setProp_NoDup, setProp_NoDup, (Hi a _ Hl)|].
      intros k v Hin. apply setProp_In in Hin. destruct Hin as [[= -> ->]|Hin].
      { simpl. split; [reflexivity|exact Hflush]. }
      apply setProp_In in Hin. destruct Hin as [[= -> ->]|Hin].
      { simpl. split; [reflexivity|]. left. now rewrite Hpa. }
      apply (insertedProp_mono path path W _ h _ a (deref h a) o2 k v);
        [apply (Hi a _ Hl); assumption | assumption | exact Hsame | exact Hlen'
        | exact HW | intros _; exact Hflush].
    + split; [apply (Hi y o' Hy)|]. intros k v Hin.
      apply (insertedProp_mono path path W _ h _ y o' o' k v);
        [apply (Hi y o' Hy); assumption | eapply lookup_lt_Some; eassumption
        | exact Hsame | exact Hlen' | exact HW | auto].
  - split.
    + intros y key c Hk. destruct (Nat.eq_dec y a) as [->|Hne];
        [|now rewrite deref_write_ne].
      rewrite deref_write_eq by assumption.
      assert (Hin : In (key, VRef c) (deref h a)).
      { rewrite <- Hk. apply getOwn_In. rewrite Hk. discriminate. }
      destruct (proj2 (Hi a _ Hl) _ _ Hin) as [_ [_ Hkey]].
      apply codePointKey_not_mark in Hkey. unfold o2.
      now rewrite !getOwn_setProp_ne by tauto.
    + intros y Hy. unfold wordEnd in *. destruct (Nat.eq_dec y a) as [->|Hne];
        [|now rewrite deref_write_ne].
      rewrite deref_write_eq by assumption. now rewrite Hget.
  - unfold wordEnd. rewrite deref_write_eq by assumption. now rewrite Hget.
Qed.

Lemma stored_extends (h h' : store) (root : nat) (w : jsstring) :
  extends h h' -> stored h root w -> stored h' root w.
Proof.
  intros [He Hf] [b [Hr Hb]]. exists b. split; [|now apply Hf].
  now apply (route_mono h h').
Qed.

Section Insertion.
Context `{CaseMapping}.

Lemma insert_routes path W (S0 : list jsstring) (tr : t) (word : jsstring) :
  insertedInv path W (heap tr) -> canonical path (heap tr) ->
  (model tr < length (heap tr))%nat -> path (model tr) = [] ->
  (forall w, In w S0 -> stored (heap tr) (model tr) w) ->
  exists path' tr',
    insert word tr = Ok tr' /\
    insertedInv path' (toLowerCase word :: W) (heap tr') /\
    canonical path' (heap tr') /\
    model tr' = model tr /\ (model tr' < length (heap tr'))%nat /\
    path' (model tr') = [] /\
    forall w, In w (toLowerCase word :: S0) -> stored (heap tr') (model tr') w.
Proof.
  intros Hinv Hcan Hroot Hpath Hst. unfold insert.
  destruct (codePoints_spec (toLowerCase word)) as [Hconcat Hall].
  destruct (insertWalk_routes W _ path (heap tr) (model tr) Hinv Hcan Hroot Hall)
    as [path' [h' [a' [Hw [Hi [Ha' [Hlen [Hp [Hpa [Hcan' [Hext Hroute]]]]]]]]]]].
  { rewrite Hpath. simpl. now rewrite Hconcat. }
  rewrite Hw. rewrite Hpath in Hpa. simpl in Hpa.
  assert (Hword : concat (path' a') = toLowerCase word) by now rewrite Hpa.
  destruct (mark_inv path' W h' a' _ (index tr + 1) Hi Ha' Hword)
    as [Hi2 [Hext2 Hend]].
  eexists path', _. split; [reflexivity|]. cbn [heap model].
  split; [exact Hi2|]. split.
  { intros y Hy. rewrite length_insert in Hy. now apply Hcan'. }
  split; [reflexivity|]. rewrite length_insert. split; [lia|].
  split; [rewrite Hp by lia; exact Hpath|].
  intros w [<-|Hw0].
  - exists a'. split; [|exact Hend].
    apply (route_mono h'); [apply Hext2|]. now rewrite Hconcat in Hroute.
  - apply (stored_extends h'); [exact Hext2|].
    apply (stored_extends (heap tr)); [exact Hext|]. now apply Hst.
Qed.

Lemma insertAll_routes (words : list jsstring) :
  forall path W (S0 : list jsstring) (tr : t),
    insertedInv path W (heap tr) -> canonical path (heap tr) ->
    (model tr < length (heap tr))%nat -> path (model tr) = [] ->
    (forall w, In w S0 -> stored (heap tr) (model tr) w) ->
    exists path' W' tr',
      insertAll words tr = Ok tr' /\ insertedInv path' W' (heap tr') /\
      canonical path' (heap tr') /\
      model tr' = model tr /\ (model tr' < length (heap tr'))%nat /\
      path' (model tr') = [] /\
      forall w, In w S0 \/ In w (map toLowerCase words) ->
        stored (heap tr') (model tr') w.
Proof.
  induction words as [|word words IH]; intros path W S0 tr Hinv Hcan Hroot Hpath Hst.
  - exists path, W, tr. simpl.
    split; [reflexivity|]. split; [assumption|]. split; [assumption|].
    split; [reflexivity|]. split; [assumption|]. split; [assumption|].
    intros w [Hw|[]]. now apply Hst.
  - destruct (insert_routes path W S0 tr word Hinv Hcan Hroot Hpath Hst)
      as [path1 [tr1 [Hins [Hinv1 [Hcan1 [Hm1 [Hroot1 [Hpath1 Hst1]]]]]]]].
    destruct (IH path1 _ _ tr1 Hinv1 Hcan1 Hroot1 Hpath1 Hst1)
      as [path' [W' [tr' [Hall [Hinv' [Hcan' [Hm' [Hroot' [Hpath' Hst']]]]]]]]].
    exists path', W', tr'. cbn [insertAll]. rewrite Hins.
    split; [exact Hall|]. split; [exact Hinv'|]. split; [exact Hcan'|].
    split; [congruence|]. split; [exact Hroot'|]. split; [exact Hpath'|].
    intros w Hw. apply Hst'. simpl in *. tauto.
Qed.

(** After the constructor's insertions every word of the input ends a
    route from the root. *)
Lemma tokenize_routes (inp : input) :
  inp <> InOther -> inp <> InNullish ->
  exists path W tr,
    tokenize inp {| heap := [[]]; model := 0; index := 0 |} = Ok tr /\
    insertedInv path W (heap tr) /\ canonical path (heap tr) /\
    model tr = 0%nat /\ (0 < length (heap tr))%nat /\ path 0%nat = [] /\
    forall w, In w (map toLowerCase (inputWords inp)) -> stored (heap tr) 0 w.
Proof.
  intros Hinp Hnull.
  set (tr0 := {| heap := [[]]; model := 0; index := 0 |}).
  assert (Hinv0 : insertedInv (fun _ => []) [] (heap tr0)).
  { intros [|a] o Hl; simpl in Hl; [|discriminate].
    injection Hl as <-. split; [constructor|intros k v []]. }
  destruct (insertAll_routes (inputWords inp) (fun _ => []) [] [] tr0 Hinv0)
    as [path [W [tr [Hall [Hinv [Hcan [Hm [Hroot [Hpath Hst]]]]]]]]];
    [intros a _; reflexivity|simpl; lia|reflexivity|intros w []|].
  exists path, W, tr. simpl in Hm. rewrite Hm in Hroot, Hpath, Hst.
  split; [|split; [exact Hinv|split; [exact Hcan|split; [exact Hm|
           split; [exact Hroot|split; [exact Hpath|]]]]]].
  - destruct inp as [s|words| |]; [|exact Hall|congruence|congruence].
    simpl in Hall |- *. destruct (insert s tr0); [congruence|discriminate].
  - intros w Hw. apply Hst. now right.
Qed.

End Insertion.

(** *** The search visits every route *)

Lemma levenshteinSearch_complete (h : store) (target : jsstring)
    (maxDistance : Z) (fuel : nat) :
  forall (node : value) (word : jsstring) (results r : list match_),
    levenshteinSearch fuel h target maxDistance node word results = Some r ->
    (forall m, In m results -> In m r) /\
    forall a w b, node = VRef a -> route h a w b -> wordEnd h b ->
      Levenshtein.levenshtein (word ++ w) target maxDistance <= maxDistance ->
      exists m, In m r /\ m_word m = word ++ w /\
        m_distance m = Levenshtein.levenshtein (word ++ w) target maxDistance.
Proof.
  induction fuel as [|fuel IH]; intros node word results r; [discriminate|].
  cbn [levenshteinSearch].
  match goal with |- context [fold_left ?f _ (Some ?r1)] =>
    set (step := f); set (results1 := r1) end.
  assert (Hnone : forall ks, fold_left step ks None = None)
    by (induction ks; simpl; auto).
  assert (Hloop : forall ks acc r',
            fold_left step ks (Some acc) = Some r' ->
            (forall m, In m acc -> In m r') /\
            forall key c w b, In key ks -> getV h node key = VRef c ->
              route h c w b -> wordEnd h b ->
              Levenshtein.levenshtein ((word ++ key) ++ w) target maxDistance
                <= maxDistance ->
              exists m, In m r' /\ m_word m = (word ++ key) ++ w /\
                m_distance m
                = Levenshtein.levenshtein ((word ++ key) ++ w) target maxDistance).
  { induction ks as [|k ks IHk]; intros acc r' Hf.
    { injection Hf as <-. split; [auto|intros key c w b []]. }
    cbn [fold_left] in Hf. unfold step at 2 in Hf. cbv beta iota in Hf.
    change (negb (isFlushField k)) with true in Hf. cbv iota in Hf.
    destruct (levenshteinSearch fuel h target maxDistance (getV h node k)
                (word ++ k) acc) as [r1|] eqn:E1;
      [|rewrite Hnone in Hf; discriminate].
    destruct (IH _ _ _ _ E1) as [Hacc Hfind].
    destruct (IHk _ _ Hf) as [Hr1 Hrest].
    split; [auto|].
    intros key c w b [<-|Hin] Hc Hr Hb Hd.
    - destruct (Hfind c w b Hc Hr Hb Hd) as [m [Hm Hrest']].
      exists m. split; [now apply Hr1|exact Hrest'].
    - now apply (Hrest key c w b). }
  intros Hf. destruct (Hloop _ _ _ Hf) as [Hres1 Hkeys].
  split.
  - intros m Hm. apply Hres1. unfold results1.
    destruct (truthy _); [|assumption].
    destruct (_ <=? _); [|assumption]. apply in_or_app. now left.
  - intros a w b -> Hr Hb Hd. inversion Hr as [a'|a' key c w' b' Hk Hr']; subst.
    + rewrite app_nil_r in *.
      exists {| m_word := word;
                m_distance := Levenshtein.levenshtein word target maxDistance;
                m_index := getV h (VRef b) k_index |}.
      split; [|split; reflexivity].
      apply Hres1. unfold results1. simpl. unfold wordEnd in Hb. rewrite Hb.
      rewrite (proj2 (Z.leb_le _ _) Hd). apply in_or_app. right. now left.
    + rewrite app_assoc in *.
      apply (Hkeys key c w' b); try assumption.
      simpl. apply getOwn_keys. rewrite Hk. discriminate.
Qed.

(** *** [compress] keeps every word reachable *)

Lemma concat_single (k : jsstring) : concat [k] = k.
Proof. simpl. apply app_nil_r. Qed.

Lemma concat_pair (k k0 : jsstring) : concat [k; k0] = k ++ k0.
Proof. simpl. now rewrite app_nil_r. Qed.

(** The merge of [compress] at the entry [key] of [x]: the other edges
    of [x] and the word-end marks stay, and an edge for the entry leads
    to the child or to its only child. *)
Lemma merge_routes path W (h0 hc : store) (x c : nat) (o_x : obj)
    (key : jsstring) :
  insertedInv path W h0 -> canonical path h0 ->
  length hc = length h0 ->
  h0 !! x = Some o_x -> In (key, VRef c) o_x -> hc !! c = h0 !! c ->
  truthy (getOwn (deref hc c) k_flush) = false ->
  getOwn (deref hc x) key = VRef c ->
  let h1 :=
    match keys (deref hc c) with
    | [k0] =>
        <[x := deleteProp
                 (setProp (deref hc x) (key ++ k0) (getOwn (deref hc c) k0))
                 key]> hc
    | _ => hc
    end in
  (forall key' p c', key' <> key -> path c' = path x ++ key' :: p ->
     (c' < length h0)%nat ->
     getOwn (deref hc x) (concat (key' :: p)) = VRef c' ->
     getOwn (deref h1 x) (concat (key' :: p)) = VRef c') /\
  (forall b, getOwn (deref h1 b) k_flush = getOwn (deref hc b) k_flush) /\
  exists p c',
    path c' = path x ++ key :: p /\ (c' < length h0)%nat /\
    getOwn (deref h1 x) (concat (key :: p)) = VRef c' /\
    ((p = [] /\ c' = c) \/
     (exists k0, p = [k0] /\ deref h0 c = [(k0, VRef c')])).
Proof.
  intros Hinv0 Hcan Hlen Hx Hin Hc Hflush Hedge.
  destruct (proj2 (Hinv0 x o_x Hx) _ _ Hin) as [[Hxc Hclt] [Hpc Hkey]].
  assert (Hlc : h0 !! c = Some (deref h0 c)) by (apply lookup_store; lia).
  assert (Hdc : deref hc c = deref h0 c) by now apply deref_same.
  rewrite Hdc in *. clear Hdc.
  assert (Hplain :
    (forall key' p c', key' <> key -> path c' = path x ++ key' :: p ->
       (c' < length h0)%nat ->
       getOwn (deref hc x) (concat (key' :: p)) = VRef c' ->
       getOwn (deref hc x) (concat (key' :: p)) = VRef c') /\
    (forall b, getOwn (deref hc b) k_flush = getOwn (deref hc b) k_flush) /\
    exists p c',
      path c' = path x ++ key :: p /\ (c' < length h0)%nat /\
      getOwn (deref hc x) (concat (key :: p)) = VRef c' /\
      ((p = [] /\ c' = c) \/
       (exists k0, p = [k0] /\ deref h0 c = [(k0, VRef c')]))).
  { split; [auto|]. split; [auto|]. exists [], c.
    split; [exact Hpc|]. split; [lia|].
    split; [now rewrite concat_single|now left]. }
  destruct (deref h0 c) as [|[k0 v0] [|e rest]] eqn:Eo; cbn [keys map fst];
    [exact Hplain| |exact Hplain].
  clear Hplain. cbn [getOwn]. rewrite str_eqb_refl.
  pose proof (proj2 (Hinv0 c _ Hlc) k0 v0 (or_introl eq_refl)) as Hp0.
  destruct v0 as [| |n|g]; simpl in Hp0.
  - contradiction.
  - destruct Hp0 as [-> _]. vm_compute in Hflush. discriminate.
  - destruct Hp0 as [_ [Hf|[]]]. discriminate.
  - destruct Hp0 as [[Hcg Hg] [Hpg Hk0]].
    assert (Hxlt : (x < length hc)%nat) by lia.
    assert (Hpg' : path g = path x ++ [key; k0])
      by (rewrite Hpg, Hpc, <- app_assoc; reflexivity).
    assert (Hne : key ++ k0 <> key).
    { intros E. apply (f_equal (@length _)) in E. rewrite length_app in E.
      destruct Hk0 as [Hk0 _]. destruct k0; [congruence|simpl in E; lia]. }
    split; [|split].
    + intros key' p c' Hk' Hpc' Hc' Hget.
      rewrite deref_write_eq by assumption.
      rewrite getOwn_deleteProp_ne, getOwn_setProp_ne; [exact Hget| |].
      * rewrite <- concat_pair. intros E.
        apply (canonical_distinct path h0 x c' g _ _ Hcan Hc' Hg Hpc' Hpg') in E.
        congruence.
      * rewrite <- (concat_single key). intros E.
        apply (canonical_distinct path h0 x c' c _ _ Hcan Hc' Hclt Hpc' Hpc) in E.
        congruence.
    + intros b. destruct (Nat.eq_dec b x) as [->|Hb];
        [|now rewrite deref_write_ne].
      rewrite deref_write_eq by assumption.
      pose proof (codePointKey_not_mark key Hkey) as [Hkf _].
      rewrite getOwn_deleteProp_ne, getOwn_setProp_ne; [reflexivity| |congruence].
      intros E. apply (f_equal (@length _)) in E. rewrite length_app in E.
      destruct Hkey as [_ Hl1]. destruct Hk0 as [_ Hl2].
      change (length k_flush) with 5%nat in E. lia.
    + exists [k0], g. split; [exact Hpg'|]. split; [exact Hg|].
      split; [|right; now exists k0].
      rewrite deref_write_eq by assumption. rewrite concat_pair.
      rewrite getOwn_deleteProp_ne by exact Hne. apply getOwn_setProp_eq.
Qed.

Lemma route_to_word_end (h : store) (c : nat) (k0 : jsstring) (g : nat)
    (w : jsstring) (b : nat) :
  deref h c = [(k0, VRef g)] -> ~ wordEnd h c -> route h c w b ->
  wordEnd h b ->
  exists w', w = k0 ++ w' /\ route h g w' b.
Proof.
  intros Hc Hnot Hr Hb. inversion Hr as [a|a key c' w' b' Hk Hr']; subst.
  - contradiction.
  - rewrite Hc in Hk. simpl in Hk.
    destruct (str_eqb k0 key) eqn:E; [|discriminate].
    apply str_eqb_eq in E. injection Hk as <-. subst key. now exists w'.
Qed.

(** [compress] on a node below which nothing was merged yet: every
    route of the inserted trie from the node, or from one of its
    children, to a word end is a route of the compressed trie, and the
    word ends are the same. *)
Lemma compress_routes path W (h0 : store) :
  insertedInv path W h0 -> canonical path h0 ->
  forall fuel (h : store) x (h' : store),
    compressedInv path W h -> length h = length h0 -> (x < length h)%nat ->
    (length h - x < fuel)%nat ->
    (forall y, below path x y -> h !! y = h0 !! y) ->
    compress fuel h x = Some h' ->
    (forall w b, route h0 x w b -> wordEnd h0 b -> route h' x w b) /\
    (forall key c w b, In (key, VRef c) (deref h0 x) ->
       route h0 c w b -> wordEnd h0 b -> route h' c w b) /\
    (forall b, getOwn (deref h' b) k_flush = getOwn (deref h b) k_flush).
Proof.
  intros Hinv0 Hcan.
  pose proof (insertedInv_compressedInv path W h0 Hinv0) as Hcinv0.
  induction fuel as [|fuel IH]; intros h x h' Hinv Hlen Hx Hfuel Horig Hcomp; [lia|].
  cbn [compress] in Hcomp.
  assert (Hx0 : h0 !! x = Some (deref h x)).
  { rewrite <- (Horig x (below_refl path x)). now apply lookup_store. }
  assert (Hdx : deref h0 x = deref h x) by now apply deref_lookup.
  set (o_x := deref h x) in *.
  destruct (Hinv0 x o_x Hx0) as [Hnd Hprops].
  match type of Hcomp with context [fold_left ?f _ _] => set (step := f) in * end.
  assert (Hnone : forall ks, fold_left step ks None = None)
    by (induction ks as [|[? ?] ?]; simpl; auto).
  set (served := fun (hc : store) (key : jsstring) (c : nat) =>
         (forall w b, route h0 c w b -> wordEnd h0 b -> route hc c w b) /\
         exists p c',
           path c' = path x ++ key :: p /\ (c' < length h0)%nat /\
           getOwn (deref hc x) (concat (key :: p)) = VRef c' /\
           forall w b, route h0 c w b -> wordEnd h0 b ->
             exists w', key ++ w = concat (key :: p) ++ w' /\ route hc c' w' b).
  assert (Hkeep : forall (hc h2 : store) keyj cj keyi ci,
            compressedInv path W hc -> length hc = length h0 ->
            In (keyj, VRef cj) o_x -> In (keyi, VRef ci) o_x -> keyi <> keyj ->
            (forall y, y <> x -> ~ below path cj y -> h2 !! y = hc !! y) ->
            (forall key' p c', key' <> keyj -> path c' = path x ++ key' :: p ->
               (c' < length h0)%nat ->
               getOwn (deref hc x) (concat (key' :: p)) = VRef c' ->
               getOwn (deref h2 x) (concat (key' :: p)) = VRef c') ->
            served hc keyi ci -> served h2 keyi ci).
  { intros hc h2 keyj cj keyi ci Hinvc Hlenc Hj Hi Hij Hfr Hedges [R1 [p [c' [Hpc' [Hc' [Hget R2]]]]]].
    destruct (Hprops keyj (VRef cj) Hj) as [_ [Hpj _]].
    destruct (Hprops keyi (VRef ci) Hi) as [[_ Hci] [Hpi _]].
    assert (Hframe : forall y, below path ci y -> h2 !! y = hc !! y).
    { intros y Hy. destruct (below_child path x ci keyi y Hpi Hy) as [_ Hne].
      apply Hfr; [exact Hne|]. intros Hyj.
      apply Hij. exact (below_disjoint path x ci cj keyi keyj y Hpi Hpj Hy Hyj). }
    split.
    - intros w b Hr Hb.
      apply (route_frame path W hc h2); [assumption|lia|exact Hframe|].
      now apply R1.
    - exists p, c'. split; [exact Hpc'|]. split; [exact Hc'|].
      split; [now apply Hedges|].
      intros w b Hr Hb. destruct (R2 w b Hr Hb) as [w' [Hw' Hr']].
      exists w'. split; [exact Hw'|].
      apply (route_frame path W hc h2); [assumption|lia| |exact Hr'].
      intros y [q Hq]. apply Hframe. exists (p ++ q).
      rewrite Hq, Hpc', Hpi, <- !app_assoc. reflexivity. }
  assert (Hloop : forall todo done, o_x = done ++ todo ->
            forall hc : store,
              compressedInv path W hc -> length hc = length h0 ->
              (forall key c y, In (key, VRef c) todo -> below path c y ->
                 hc !! y = h0 !! y) ->
              (forall key c, In (key, VRef c) todo ->
                 getOwn (deref hc x) key = VRef c) ->
              (forall key c, In (key, VRef c) done -> served hc key c) ->
              (forall b, getOwn (deref hc b) k_flush = getOwn (deref h b) k_flush) ->
              fold_left step todo (Some hc) = Some h' ->
              (forall key c, In (key, VRef c) o_x -> served h' key c) /\
              (forall b, getOwn (deref h' b) k_flush = getOwn (deref h b) k_flush)).
  { induction todo as [|[key v] todo IHt];
      intros done Hsplit hc Hinvc Hlenc Hframe Hedge Hdone Hfl Hf.
    { injection Hf as <-. rewrite app_nil_r in Hsplit. subst done.
      split; assumption. }
    assert (Hsplit' : o_x = (done ++ [(key, v)]) ++ todo)
      by (rewrite <- app_assoc; exact Hsplit).
    assert (Hhere : In (key, v) o_x)
      by (rewrite Hsplit; apply in_or_app; right; now left).
    assert (Hsub : forall e, In e todo -> In e o_x)
      by (intros e He; rewrite Hsplit; apply in_or_app; right; now right).
    assert (Hsubd : forall e, In e done -> In e o_x)
      by (intros e He; rewrite Hsplit; apply in_or_app; now left).
    assert (Hother : forall key' v', In (key', v') done \/ In (key', v') todo ->
              key' <> key).
    { intros key' v' Hin' ->. unfold keys in Hnd. rewrite Hsplit in Hnd.
      rewrite map_app in Hnd. simpl in Hnd.
      apply List.NoDup_remove_2 in Hnd. apply Hnd.
      apply in_or_app. destruct Hin' as [Hin'|Hin']; [left|right];
        apply (in_map fst _ _ Hin'). }
    assert (Hframe' : forall key' c' y, In (key', VRef c') todo ->
              below path c' y -> hc !! y = h0 !! y)
      by (intros key' c' y Hin' Hb; apply (Hframe key' c' y); [now right|exact Hb]).
    assert (Hedge' : forall key' c', In (key', VRef c') todo ->
              getOwn (deref hc x) key' = VRef c')
      by (intros key' c' Hin'; apply Hedge; now right).
    cbn [fold_left] in Hf. unfold step at 2 in Hf. cbv beta iota zeta in Hf.
    assert (Hskip :
              fold_left step todo (Some hc) = Some h' ->
              (forall c, v = VRef c -> served hc key c) ->
              (forall key c, In (key, VRef c) o_x -> served h' key c) /\
              (forall b, getOwn (deref h' b) k_flush = getOwn (deref h b) k_flush)).
    { intros Hf' Hnew.
      apply (IHt (done ++ [(key, v)]) Hsplit' hc); try assumption.
      intros key' c' Hin'. apply in_app_or in Hin'.
      destruct Hin' as [Hin'|[[= -> ->]|[]]]; [now apply Hdone|now apply Hnew]. }
    destruct v as [| |n|c];
      try (apply (Hskip Hf); intros c' [=]).
    destruct (Hprops key (VRef c) Hhere) as [[Hxc Hclt] [Hpc Hkey]].
    assert (Hcc : hc !! c = h0 !! c)
      by (apply (Hframe key c c); [now left|apply below_refl]).
    assert (Hservedc : forall (h2 : store),
              (forall w b, route h0 c w b -> wordEnd h0 b -> route h2 c w b) ->
              getOwn (deref h2 x) key = VRef c -> served h2 key c).
    { intros h2 R1 Hget. split; [exact R1|]. exists [], c.
      split; [exact Hpc|]. split; [exact Hclt|].
      split; [now rewrite concat_single|].
      intros w b Hr Hb. exists w. split; [now rewrite concat_single|now apply R1]. }
    destruct (truthy (getOwn (deref hc c) k_flush)) eqn:Hflc.
    { apply (Hskip Hf). intros c' [= <-].
      apply Hservedc; [|apply Hedge; now left].
      intros w b Hr Hb.
      apply (route_frame path W h0 hc); [assumption|exact Hclt| |exact Hr].
      intros y Hy. apply (Hframe key c y); [now left|exact Hy]. }
    pose proof (merge_inv path W h0 hc x c o_x key Hinv0 Hinvc Hlenc Hx0
                  Hhere Hcc Hflc) as Hm.
    pose proof (merge_routes path W h0 hc x c o_x key Hinv0 Hcan Hlenc Hx0
                  Hhere Hcc Hflc (Hedge key c (or_introl eq_refl))) as Hmr.
    cbv zeta in Hm, Hmr.
    match type of Hm with
    | compressedInv _ _ ?m /\ _ => set (h1 := m) in *
    end.
    destruct Hm as [Hinv1 [Hlen1 Hfr1]].
    destruct Hmr as [Hedges1 [Hfl1 [p [g [Hpg [Hg [Hgetg Hshape]]]]]]].
    assert (Horig1 : forall y, below path c y -> h1 !! y = h0 !! y).
    { intros y Hy. destruct (below_child path x c key y Hpc Hy) as [_ Hne].
      rewrite Hfr1 by assumption. apply (Hframe key c y); [now left|exact Hy]. }
    destruct (compress_inv path W h0 Hinv0 fuel h1 c Hinv1)
      as [h2 [Hc2 [Hinv2 [Hlen2 Hfr2]]]]; [congruence|lia|lia|exact Horig1|].
    rewrite Hc2 in Hf.
    destruct (IH h1 c h2 Hinv1) as [Hr1 [Hr2 Hfl2]];
      [congruence|lia|lia|exact Horig1|exact Hc2|].
    assert (Hxc2 : deref h2 x = deref h1 x).
    { apply deref_same, Hfr2. intros Hb.
      destruct (below_child path x c key x Hpc Hb) as [_ Hne]. congruence. }
    assert (Hfr : forall y, y <> x -> ~ below path c y -> h2 !! y = hc !! y).
    { intros y Hy Hyc. rewrite Hfr2, Hfr1 by assumption. reflexivity. }
    assert (Hedges2 : forall key' p' c', key' <> key ->
              path c' = path x ++ key' :: p' -> (c' < length h0)%nat ->
              getOwn (deref hc x) (concat (key' :: p')) = VRef c' ->
              getOwn (deref h2 x) (concat (key' :: p')) = VRef c').
    { intros key' p' c' Hk' Hpc' Hc' Hget. rewrite Hxc2.
      now apply Hedges1. }
    apply (IHt (done ++ [(key, VRef c)]) Hsplit' h2); try assumption.
    - congruence.
    - intros key' c' y Hin' Hb.
      destruct (Hprops key' (VRef c') (Hsub _ Hin')) as [_ [Hpc' _]].
      destruct (below_child path x c' key' y Hpc' Hb) as [_ Hne].
      rewrite Hfr; [exact (Hframe' key' c' y Hin' Hb)|exact Hne|].
      intros Hbc. apply (Hother key' (VRef c')); [now right|].
      exact (below_disjoint path x c' c key' key y Hpc' Hpc Hb Hbc).
    - intros key' c' Hin'.
      destruct (Hprops key' (VRef c') (Hsub _ Hin')) as [[_ Hc'] [Hpc' _]].
      rewrite <- (concat_single key').
      apply Hedges2; [apply (Hother key' (VRef c')); now right|exact Hpc'
                     |exact Hc'|].
      rewrite concat_single. now apply Hedge'.
    - intros key' c' Hin'. apply in_app_or in Hin'.
      destruct Hin' as [Hin'|[[= -> ->]|[]]].
      + apply (Hkeep hc h2 key c key' c'); try assumption.
        * now apply Hsubd.
        * apply (Hother key' (VRef c')). now left.
        * now apply Hdone.
      + split; [exact Hr1|]. exists p, g.
        split; [exact Hpg|]. split; [exact Hg|].
        split; [rewrite Hxc2; exact Hgetg|].
        intros w b Hr Hb. destruct Hshape as [[-> ->]|[k0 [-> Hobj]]].
        * exists w. split; [now rewrite concat_single|now apply Hr1].
        * assert (Hnot : ~ wordEnd h0 c').
          { unfold wordEnd. rewrite <- (deref_same h0 hc c' Hcc), Hflc.
            discriminate. }
          destruct (route_to_word_end h0 c' k0 g w b Hobj Hnot Hr Hb)
            as [w' [-> Hr']].
          exists w'. split; [now rewrite concat_pair, app_assoc|].
          apply (Hr2 k0 g w' b); [rewrite Hobj; now left|exact Hr'|exact Hb].
    - intros b. now rewrite Hfl2, Hfl1. }
  destruct (Hloop o_x [] eq_refl h Hinv Hlen) as [Hserved Hflush];
    [ | |intros key c []|reflexivity|exact Hcomp|].
  { intros key c y Hin Hb. apply Horig.
    destruct (Hprops key (VRef c) Hin) as [_ [Hpc _]].
    now apply (below_child path x c key y Hpc). }
  { intros key c Hin.
    assert (Hnd' : forall o : obj, List.NoDup (keys o) -> In (key, VRef c) o ->
              getOwn o key = VRef c).
    { induction o as [|[k1 v1] o IHo]; simpl; [tauto|].
      intros Hno [[= -> ->]|Hin']; [now rewrite str_eqb_refl|].
      inversion Hno as [|? ? Hnotin Hno']; subst.
      destruct (str_eqb k1 key) eqn:E; [|now apply IHo].
      apply str_eqb_eq in E. subst k1. exfalso. apply Hnotin.
      apply In_keys. eauto. }
    now apply Hnd'. }
  split; [|split; [|exact Hflush]].
  - intros w b Hr Hb. inversion Hr as [a|a key c w' b' Hk Hr']; subst;
      [constructor|].
    rewrite Hdx in Hk.
    assert (Hin : In (key, VRef c) o_x).
    { rewrite <- Hk. apply getOwn_In. rewrite Hk. discriminate. }
    destruct (Hserved key c Hin) as [_ [p [c' [_ [_ [Hget R2]]]]]].
    destruct (R2 w' b Hr' Hb) as [w2 [-> Hr2]].
    now apply route_step with (c := c').
  - intros key c w b Hin Hr Hb. rewrite Hdx in Hin.
    now apply (proj1 (Hserved key c Hin)).
Qed.

(** *** The constructed trie *)

Section Constructed.
Context `{CaseMapping}.

Lemma create_stored (inp : input) (tr : t) :
  create inp = Some (Ok tr) ->
  model tr = 0%nat /\
  exists path W,
    compressedInv path W (heap tr) /\ (0 < length (heap tr))%nat /\
    forall w, In w (map toLowerCase (inputWords inp)) -> stored (heap tr) 0 w.
Proof.
  intros Hc.
  assert (Hinp : inp <> InOther) by (intros ->; discriminate Hc).
  assert (Hnull : inp <> InNullish) by (intros ->; discriminate Hc).
  destruct (tokenize_routes inp Hinp Hnull)
    as [path [W [tr0 [Ht [Hinv [Hcan [Hm [Hlen [Hp Hst]]]]]]]]].
  pose proof (insertedInv_compressedInv path W _ Hinv) as Hcinv.
  destruct (compress_inv path W (heap tr0) Hinv (fuelOf (heap tr0)) (heap tr0) 0)
    as [h' [Hc' [Hinv' [Hlen' _]]]];
    [assumption|reflexivity|assumption|unfold fuelOf; lia|reflexivity|].
  destruct (compress_routes path W (heap tr0) Hinv Hcan (fuelOf (heap tr0))
              (heap tr0) 0 h')
    as [Hroutes [_ Hflush]];
    [assumption|reflexivity|assumption|unfold fuelOf; lia|reflexivity
    |assumption|].
  unfold create in Hc. rewrite Ht, Hm, Hc' in Hc. injection Hc as <-.
  cbn [heap model]. split; [reflexivity|]. exists path, W.
  split; [exact Hinv'|]. split; [lia|].
  intros w Hw. destruct (Hst w Hw) as [b [Hr Hb]].
  exists b. split; [now apply Hroutes|].
  unfold wordEnd in *. now rewrite Hflush.
Qed.

(** X16: [closest] misses no word of the input.  On a constructed trie
    that does not contain the target, the list has an entry for the
    lowercased form of every word of the input whose [levenshtein]
    value for the target is at most [maxDistance], with that value as
    its distance. *)
Theorem closest_complete (inp : input) (tr : t) (target : jsstring)
    (maxDistance : Z) (word : jsstring) :
  create inp = Some (Ok tr) ->
  In word (inputWords inp) ->
  contains tr target = Some false ->
  Levenshtein.levenshtein (toLowerCase word) target maxDistance <= maxDistance ->
  exists l m,
    closest tr target maxDistance = Some l /\ In m l /\
    m_word m = toLowerCase word /\
    m_distance m
    = Levenshtein.levenshtein (toLowerCase word) target maxDistance.
Proof.
  intros Hc Hword Hcontains Hd.
  destruct (create_stored inp tr Hc) as [Hm [path [W [Hinv [Hlen Hst]]]]].
  destruct (Hst (toLowerCase word)) as [b [Hr Hb]]; [now apply in_map|].
  destruct (levenshteinSearch_bounded path W (heap tr) Hinv target maxDistance
              (fuelOf (heap tr)) (VRef (model tr)) [] [])
    as [r [Hsearch _]].
  { unfold fuelOf. lia. }
  { intros a [= <-]. rewrite Hm. unfold fuelOf. lia. }
  { constructor. }
  destruct (levenshteinSearch_complete _ _ _ _ _ _ _ _ Hsearch) as [_ Hfind].
  destruct (Hfind 0%nat (toLowerCase word) b) as [m [Hin [Hw Hdist]]];
    [now rewrite Hm|exact Hr|exact Hb|exact Hd|].
  exists (sort compareMatches r), m.
  unfold closest. rewrite Hcontains, Hsearch.
  split; [reflexivity|]. split; [now apply sort_keeps|].
  split; [exact Hw|exact Hdist].
Qed.

End Constructed.

Lemma closest_complete_witness :
  exists (tr : t) l m,
    create (InArray [js "Car"; js "cat"; js "pot"]) = Some (Ok tr) /\
    closest tr (js "cab") 1 = Some l /\ In m l /\
    m_word m = toLowerCase (js "Car") /\
    m_distance m = Levenshtein.levenshtein (toLowerCase (js "Car")) (js "cab") 1.
Proof.
  assert (E : exists tr,
            create (InArray [js "Car"; js "cat"; js "pot"]) = Some (Ok tr) /\
            contains tr (js "cab") = Some false).
  { eexists. split; vm_compute; reflexivity. }
  destruct E as [tr [E Hcontains]].
  destruct (closest_complete _ tr (js "cab") 1 (js "Car") E) as [l [m Hl]].
  - left. reflexivity.
  - exact Hcontains.
  - apply Z.leb_le. vm_compute. reflexivity.
  - exists tr, l, m. split; [exact E|exact Hl].
Defined.

End TrieReach.

(** ** More about the language model *)

Module NgramMore.
Import Ngram NgramSpec NgramCount NgramFacts.

(** *** [tokenize] *)

Lemma splitRuns_free (s : jsstring) :
  forall current inRun,
    forallb (fun c => negb (isWhiteSpace c)) current = true ->
    splitRuns s current inRun <> [] /\
    Forall (fun token => forallb (fun c => negb (isWhiteSpace c)) token = true)
      (splitRuns s current inRun).
Proof.
  induction s as [|c s IH]; intros current inRun Hcur; cbn [splitRuns].
  - split; [discriminate|]. now repeat constructor.
  - destruct (isWhiteSpace c) eqn:Hc.
    + destruct inRun.
      * now apply IH.
      * destruct (IH [] true eq_refl) as [_ Hall].
        split; [discriminate|]. now constructor.
    + apply IH. rewrite forallb_app, Hcur. simpl. now rewrite Hc.
Qed.

Lemma splitRuns_token (token rest : jsstring) :
  forallb (fun c => negb (isWhiteSpace c)) token = true -> token <> [] ->
  forall current inRun,
    splitRuns (token ++ rest) current inRun
    = splitRuns rest (current ++ token) false.
Proof.
  induction token as [|c token IH]; intros Hfree Hne current inRun; [congruence|].
  simpl in Hfree. apply andb_true_iff in Hfree. destruct Hfree as [Hc Hfree].
  apply negb_true_iff in Hc. cbn [app splitRuns]. rewrite Hc.
  destruct token as [|d token].
  - reflexivity.
  - rewrite IH by (assumption || discriminate).
    now rewrite <- app_assoc.
Qed.

(** X9: [tokenize] returns at least one token and no token holds a
    white-space character; and it undoes [join(' ')]: the text of
    tokens joined by single spaces splits into these tokens. *)
Theorem tokenize_join (text : jsstring) (tokens : list jsstring) :
  (exists pieces, tokenize (JString text) = Ok pieces /\ pieces <> [] /\
     Forall (fun token => forallb (fun c => negb (isWhiteSpace c)) token = true)
       pieces) /\
  (tokens <> [] -> Forall isToken tokens ->
   tokenize (JString (join space tokens)) = Ok tokens).
Proof.
  split.
  - exists (splitWhiteSpace text). split; [reflexivity|].
    now apply splitRuns_free.
  - intros Hne Hall. cbn [tokenize]. f_equal. unfold splitWhiteSpace.
    assert (Hgen : forall ts, ts <> [] -> Forall isToken ts ->
              forall inRun, splitRuns (join space ts) [] inRun = ts).
    { induction ts as [|t ts IH]; intros Hts Hf inRun; [congruence|].
      apply Forall_cons_iff in Hf. destruct Hf as [[Ht Hfree] Hf].
      destruct ts as [|t' ts].
      - cbn [join]. rewrite <- (app_nil_r t) at 1.
        rewrite splitRuns_token by assumption. reflexivity.
      - change (join space (t :: t' :: ts))
          with (t ++ space ++ join space (t' :: ts)).
        rewrite splitRuns_token by assumption.
        unfold space at 1. cbn [app splitRuns].
        change (isWhiteSpace 32) with true. cbv iota.
        f_equal. apply IH; [discriminate|assumption]. }
    now apply Hgen.
Qed.

Lemma tokenize_join_witness :
  [js "the"; js "cat"] <> [] /\ Forall isToken [js "the"; js "cat"] /\
  tokenize (JString (join space [js "the"; js "cat"]))
  = Ok [js "the"; js "cat"].
Proof.
  assert (Hne : [js "the"; js "cat"] <> []) by discriminate.
  assert (Hall : Forall isToken [js "the"; js "cat"]).
  { repeat constructor; discriminate. }
  split; [exact Hne|]. split; [exact Hall|].
  exact (proj2 (tokenize_join [] [js "the"; js "cat"]) Hne Hall).
Defined.

(** *** The table of [tabulate] *)

Lemma tabulate_tally (tokens : list jsstring) (n : nat) :
  (1 <= n)%nat ->
  tabulate tokens (JNumber (ofNat n))
  = Ok (fold_left tally (countedWindows tokens n) []).
Proof.
  intros Hn. unfold tabulate. rewrite nle_ofNat_zero by assumption. f_equal.
  replace (seq 0 (S (length tokens)))
    with (seq 0 (length tokens + 1 - n) ++
          seq (length tokens + 1 - n) (S (length tokens) - (length tokens + 1 - n))).
  - rewrite tabulateLoop_counted.
    + rewrite tabulateLoop_stop by lia. reflexivity.
    + assumption.
    + intros i Hi. apply in_seq in Hi. lia.
  - rewrite <- seq_app. f_equal. lia.
Qed.

Lemma mapGet_mapSet {V} (m : list (jsstring * V)) (k k' : jsstring) (v : V) :
  mapGet (mapSet m k v) k' = if str_eqb k k' then Some v else mapGet m k'.
Proof.
  unfold mapGet. induction m as [|[k0 v0] m IH]; simpl.
  - destruct (str_eqb k k'); reflexivity.
  - destruct (str_eqb k0 k) eqn:E0; simpl.
    + apply str_eqb_eq in E0. subst k0.
      destruct (str_eqb k k'); reflexivity.
    + destruct (str_eqb k0 k') eqn:E1; simpl.
      * apply str_eqb_eq in E1. subst k0.
        destruct (str_eqb k k') eqn:E2; [|reflexivity].
        apply str_eqb_eq in E2. subst k'. rewrite str_eqb_refl in E0.
        discriminate.
      * exact IH.
Qed.

Lemma mapSet_keys {V} (m : list (jsstring * V)) (k : jsstring) (v : V) :
  (In k (map fst m) -> map fst (mapSet m k v) = map fst m) /\
  (~ In k (map fst m) -> mapSet m k v = m ++ [(k, v)]).
Proof.
  induction m as [|[k0 v0] m [IH1 IH2]]; simpl.
  - split; [intros []|reflexivity].
  - destruct (str_eqb k0 k) eqn:E; simpl.
    + apply str_eqb_eq in E. subst k0. split; [reflexivity|tauto].
    + apply str_eqb_neq in E. split.
      * intros [Hk|Hk]; [congruence|]. now rewrite IH1.
      * intros Hk. rewrite IH2 by tauto. reflexivity.
Qed.

Lemma mapSet_NoDup {V} (m : list (jsstring * V)) (k : jsstring) (v : V) :
  List.NoDup (map fst m) -> List.NoDup (map fst (mapSet m k v)).
Proof.
  intros Hnd.
  destruct (List.in_dec (List.list_eq_dec N.eq_dec) k (map fst m)) as [Hin|Hout].
  - now rewrite (proj1 (mapSet_keys m k v) Hin).
  - rewrite (proj2 (mapSet_keys m k v) Hout), map_app. simpl.
    apply List.NoDup_app; [exact Hnd|repeat constructor; intros []|].
    intros a Ha [<-|[]]. contradiction.
Qed.

Lemma tabulateLoop_NoDup (tokens : list jsstring) (size : number)
    (indices : list nat) (ngrams : list (jsstring * Z)) :
  List.NoDup (map fst ngrams) ->
  List.NoDup (map fst (tabulateLoop tokens size indices ngrams)).
Proof.
  revert ngrams. induction indices as [|i indices IH]; intros ngrams Hnd;
    cbn [tabulateLoop]; [assumption|].
  destruct (nle _ _); [|assumption].
  destruct (existsb _ _); [now apply IH|].
  apply IH. now apply mapSet_NoDup.
Qed.

Lemma removeFirst_absent (c : N) (s : jsstring) :
  ~ In c s -> removeFirst c s = s.
Proof.
  induction s as [|d s IH]; simpl; [reflexivity|].
  intros Hout. destruct (N.eqb_spec d c) as [->|Hne]; [tauto|].
  rewrite IH by tauto. reflexivity.
Qed.

Lemma join_In (c : N) (sep : jsstring) (l : list jsstring) :
  In c (join sep l) -> In c sep \/ exists token, In token l /\ In c token.
Proof.
  induction l as [|t l IH]; simpl; [tauto|].
  destruct l as [|t' l].
  - intros Hc. right. exists t. auto.
  - intros Hc. apply in_app_or in Hc. destruct Hc as [Hc|Hc].
    + right. exists t. auto.
    + apply in_app_or in Hc. destruct Hc as [Hc|Hc]; [now left|].
      destruct (IH Hc) as [Hs|[token [Ht Hct]]]; [now left|].
      right. exists token. split; [now right|exact Hct].
Qed.

Lemma tally_counts (windows : list jsstring) :
  (forall w, In w windows -> ~ In endMarker w) ->
  forall (ngrams : list (jsstring * Z)) (key : jsstring),
    default 0 (mapGet (fold_left tally windows ngrams) key)
    = default 0 (mapGet ngrams key) + countOf key windows.
Proof.
  unfold countOf.
  induction windows as [|w windows IH]; intros Hfree ngrams key; simpl.
  - lia.
  - rewrite IH by (intros w' Hw'; apply Hfree; now right).
    unfold tally. rewrite removeFirst_absent by (apply Hfree; now left).
    rewrite mapGet_mapSet.
    destruct (str_eqb w key) eqn:E; simpl.
    + apply str_eqb_eq in E. subst w. lia.
    + lia.
Qed.

Lemma window_In (tokens : list jsstring) (n i : nat) (token : jsstring) :
  In token (window tokens n i) -> In token tokens.
Proof.
  unfold window. intros Hin.
  rewrite <- (take_drop i tokens). apply in_or_app. right.
  rewrite <- (take_drop n (drop i tokens)). apply in_or_app. now left.
Qed.

Lemma tally_NoDup (windows : list jsstring) :
  forall ngrams : list (jsstring * Z),
    List.NoDup (map fst ngrams) ->
    List.NoDup (map fst (fold_left tally windows ngrams)).
Proof.
  induction windows as [|w windows IH]; intros ngrams Hnd; simpl; [exact Hnd|].
  apply IH. unfold tally. now apply mapSet_NoDup.
Qed.

(** X10: for a window size [n >= 1] and tokens without the end marker
    the table of [tabulate] is an exact tally: its keys are distinct,
    and the count under a key is the number of counted windows that
    spell it (none under any other string). *)
Theorem tabulate_exact (tokens : list jsstring) (n : nat) :
  (1 <= n)%nat ->
  (forall token, In token tokens -> ~ In endMarker token) ->
  exists grams,
    tabulate tokens (JNumber (ofNat n)) = Ok grams /\
    List.NoDup (map fst grams) /\
    forall key, default 0 (mapGet grams key) = countOf key (countedWindows tokens n).
Proof.
  intros Hn Hfree. eexists. split; [now apply tabulate_tally|]. split.
  - apply tally_NoDup. constructor.
  - intros key. rewrite tally_counts; [reflexivity|].
    intros w Hw. unfold countedWindows in Hw. apply in_map_iff in Hw.
    destruct Hw as [i [<- _]]. intros Hc. apply join_In in Hc.
    destruct Hc as [[Hc|[]]|[token [Ht Hct]]]; [discriminate Hc|].
    apply (Hfree token); [|exact Hct].
    now apply window_In in Ht.
Qed.

Lemma tabulate_exact_witness :
  (1 <= 2)%nat /\
  (forall token, In token [js "a"; js "b"; js "a"; js "b"] ->
     ~ In endMarker token) /\
  exists grams,
    tabulate [js "a"; js "b"; js "a"; js "b"] (JNumber (ofNat 2)) = Ok grams /\
    List.NoDup (map fst grams) /\
    forall key, default 0 (mapGet grams key)
                = countOf key (countedWindows [js "a"; js "b"; js "a"; js "b"] 2).
Proof.
  assert (Hfree : forall token, In token [js "a"; js "b"; js "a"; js "b"] ->
            ~ In endMarker token).
  { intros token [<-|[<-|[<-|[<-|[]]]]] [Hc|[]]; discriminate Hc. }
  split; [lia|]. split; [exact Hfree|].
  apply (tabulate_exact [js "a"; js "b"; js "a"; js "b"] 2); [lia|exact Hfree].
Defined.

(** *** The probabilities *)

Lemma probabilities_fresh {V} (f : jsstring * Z -> V) (grams : list (jsstring * Z)) :
  forall acc : list (jsstring * V),
    List.NoDup (map fst acc ++ map fst grams) ->
    fold_left (fun m e => mapSet m (fst e) (f e)) grams acc
    = acc ++ map (fun e => (fst e, f e)) grams.
Proof.
  induction grams as [|[k c] grams IH]; intros acc Hnd; simpl.
  - now rewrite app_nil_r.
  - simpl in Hnd.
    assert (Hout : ~ In k (map fst acc)).
    { apply List.NoDup_remove_2 in Hnd. intros Hin. apply Hnd.
      apply in_or_app. now left. }
    rewrite (proj2 (mapSet_keys acc k (f (k, c))) Hout).
    rewrite IH.
    + now rewrite <- app_assoc.
    + rewrite map_app, <- app_assoc. exact Hnd.
Qed.

Lemma sum_shift (counts : list Z) (acc : Z) :
  fold_left (fun sum count => sum + count) counts acc
  = acc + fold_left (fun sum count => sum + count) counts 0.
Proof.
  revert acc. induction counts as [|c counts IH]; intros acc; simpl; [lia|].
  rewrite (IH (acc + c)), (IH (0 + c)). lia.
Qed.

Lemma total_quotients (counts : list Z) (T : Q) :
  (total (map (fun c => inject_Z c / T) counts)
   == inject_Z (fold_left (fun sum count => (sum + count)%Z) counts 0%Z) / T)%Q.
Proof.
  induction counts as [|c counts IH]; simpl.
  - unfold Qdiv. ring.
  - rewrite IH, (sum_shift counts (0 + c)), !inject_Z_plus. unfold Qdiv. ring.
Qed.

(** The quotients of a constructed model that is not empty sum to 1. *)
Lemma quotients_sum (input size : jsvalue) (this : t) :
  create input size = Ok this -> model this <> [] ->
  (total (map snd (model this)) == 1)%Q.
Proof.
  unfold create. destruct (tokenize input) as [tokens|]; [|discriminate].
  destruct (match size with JUndefined => JNumber (Fin 4) | v => v end)
    as [| |n| |]; cbn [tabulate]; try discriminate.
  destruct (nle n (Fin 0)); [discriminate|].
  remember (tabulateLoop tokens n (seq 0 (S (length tokens))) []) as grams
    eqn:Hgrams.
  intros [= <-]. cbn [model]. intros Hne.
  assert (Hnd : List.NoDup (map fst grams)).
  { rewrite Hgrams. apply tabulateLoop_NoDup. constructor. }
  assert (Hpos : forall c, In c (map snd grams) -> 1 <= c).
  { intros c Hc. apply in_map_iff in Hc. destruct Hc as [g [<- Hg]].
    rewrite Hgrams in Hg. revert Hg. apply tabulateLoop_positive. intros ? []. }
  unfold probabilities in *.
  set (T := fold_left (fun sum count => sum + count) (map snd grams) 0) in *.
  rewrite probabilities_fresh in * by exact Hnd.
  cbn [app] in *. rewrite map_map. cbn [snd].
  rewrite <- (map_map snd (fun c => (inject_Z c / inject_Z T)%Q)).
  rewrite total_quotients. fold T.
  assert (HT : 1 <= T).
  { destruct grams as [|[k c] grams]; [now elim Hne|].
    pose proof (sum_bounds _ Hpos 0 c (or_introl eq_refl)) as Hs. fold T in Hs.
    specialize (Hpos c (or_introl eq_refl)). lia. }
  unfold Qdiv. apply Qmult_inv_r.
  intros H0. unfold Qeq in H0. simpl in H0. lia.
Qed.

(** Rounding each of a list of positive numbers moves their sum by at
    most 2^-53 of it. *)
Lemma rounded_sum (ps : list Q) :
  (forall p, In p ps -> (0 < p)%Q) ->
  (Qabs (total (map Float64.round ps) - total ps)
   <= total ps * (1 # 2 ^ 53))%Q.
Proof.
  induction ps as [|p ps IH]; intros Hpos.
  - discriminate.
  - change (Qabs (Float64.round p + total (map Float64.round ps)
                  - (p + total ps))
            <= (p + total ps) * (1 # 2 ^ 53))%Q.
    specialize (IH (fun x Hx => Hpos x (or_intror Hx))).
    pose proof (Float64Facts.round_error p) as Hp.
    rewrite (Qabs_pos p) in Hp
      by (apply Qlt_le_weak, Hpos; now left).
    apply Qabs_Qle_condition in IH. apply Qabs_Qle_condition in Hp.
    apply Qabs_Qle_condition. split; lra.
Qed.

(** X11: the doubles stored as the probabilities of a constructed
    model that is not empty, added exactly, differ from 1 by at most
    2^-53, whatever the text and the window size: each division rounds
    its quotient once, and the quotients sum to 1. *)
Theorem stored_doubles_near_one (input size : jsvalue) (this : t) :
  create input size = Ok this -> model this <> [] ->
  (Qabs (total (storedDoubles (model this)) - 1) <= 1 # 2 ^ 53)%Q.
Proof.
  intros Hc Hne.
  pose proof (quotients_sum input size this Hc Hne) as Hsum.
  pose proof (rounded_sum (map snd (model this))) as Hr.
  unfold storedDoubles, storedModel. rewrite map_map. cbn [snd].
  rewrite <- (map_map snd Float64.round).
  assert (Hpos : forall p, In p (map snd (model this)) -> (0 < p)%Q).
  { intros p Hp. apply in_map_iff in Hp. destruct Hp as [e [<- He]].
    exact (proj1 (create_probabilities _ _ _ Hc e He)). }
  specialize (Hr Hpos).
  rewrite Hsum, Qmult_1_l in Hr. exact Hr.
Qed.

Lemma stored_doubles_near_one_witness :
  exists this,
    create (JString (js "a b a c a b a c")) (JNumber (ofNat 2)) = Ok this /\
    model this <> [] /\
    (Qabs (total (storedDoubles (model this)) - 1) <= 1 # 2 ^ 53)%Q.
Proof.
  assert (E : exists this,
            create (JString (js "a b a c a b a c")) (JNumber (ofNat 2)) = Ok this /\
            model this <> [])
    by (eexists; split; [vm_compute; reflexivity|discriminate]).
  destruct E as [this [E Hne]].
  exists this. split; [exact E|]. split; [exact Hne|].
  exact (stored_doubles_near_one _ _ this E Hne).
Defined.

(** The doubles of six sixths do not sum to 1. *)
Lemma six_sixths :
  exists this,
    create (JString (js "a b c d e f")) (JNumber (ofNat 1)) = Ok this /\
    map snd (model this) = [1 # 6; 1 # 6; 1 # 6; 1 # 6; 1 # 6; 1 # 6] /\
    (total (storedDoubles (model this)) < 1)%Q.
Proof.
  eexists. split; [vm_compute; reflexivity|].
  split; vm_compute; reflexivity.
Qed.

(** *** The suggestions are those of the stored doubles *)

Lemma roundPositive_same (t : positive) :
  (Float64.roundPositive t t == 1)%Q.
Proof.
  unfold Float64.roundPositive.
  replace (Z.log2 (Z.pos t) - Z.log2 (Z.pos t) - 53) with (-53) by lia.
  assert (Hq : ((Z.pos t # t) == 1)%Q).
  { unfold Qeq. simpl. lia. }
  assert (E : Qle_bool (2 ^ 53) ((Z.pos t # t) * 2 ^ (- -53)) = true).
  { apply Qle_bool_iff. rewrite Hq, Qmult_1_l. apply Qle_refl. }
  rewrite E.
  change (2 ^ (- (-53 + 1)))%Q with (4503599627370496 # 1)%Q.
  change (2 ^ (-53 + 1))%Q with (1 # 4503599627370496)%Q.
  cbn [Qmult Qnum Qden]. rewrite Pos.mul_1_r.
  unfold Float64.roundHalfEven.
  rewrite (Z.mul_comm (Z.pos t) 4503599627370496), Z.div_mul, Z.mod_mul by lia.
  reflexivity.
Qed.

Section Quotients.
Variable T : Z.
Hypothesis HT : 1 <= T < 2 ^ 52.

Lemma quotient_facts (c : Z) :
  1 <= c <= T ->
  (0 < / inject_Z T)%Q /\ (1 # 2 ^ 52 < / inject_Z T)%Q /\
  (quotient T c == inject_Z c * / inject_Z T)%Q /\
  (inject_Z T * / inject_Z T == 1)%Q.
Proof.
  intros Hc.
  assert (HTq : (0 < inject_Z T)%Q)
    by (change 0%Q with (inject_Z 0); rewrite <- Zlt_Qlt; lia).
  assert (Hinv : (0 < / inject_Z T)%Q) by now apply Qinv_lt_0_compat.
  assert (Hone : (inject_Z T * / inject_Z T == 1)%Q).
  { apply Qmult_inv_r. intros E. rewrite E in HTq. discriminate. }
  split; [exact Hinv|]. split; [|split; [reflexivity|exact Hone]].
  assert (Hlt : (inject_Z T < inject_Z (2 ^ 52))%Q) by (rewrite <- Zlt_Qlt; lia).
  apply (Qmult_lt_r _ _ (/ inject_Z T)) in Hlt; [|exact Hinv].
  rewrite Hone in Hlt.
  change (inject_Z (2 ^ 52)) with (4503599627370496 # 1)%Q in Hlt.
  change (1 # 2 ^ 52)%Q with (1 # 4503599627370496)%Q.
  lra.
Qed.

Lemma quotient_step (c1 c2 : Z) :
  1 <= c1 -> c1 < c2 -> c2 <= T ->
  (quotient T c1 + / inject_Z T <= quotient T c2)%Q /\
  (0 < quotient T c1)%Q /\ (quotient T c2 <= 1)%Q.
Proof.
  intros H1 H12 H2.
  destruct (quotient_facts c1 ltac:(lia)) as [Hinv [_ [E1 Hone]]].
  destruct (quotient_facts c2 ltac:(lia)) as [_ [_ [E2 _]]].
  rewrite E1, E2. split; [|split].
  - setoid_replace (inject_Z c1 * / inject_Z T + / inject_Z T)%Q
      with ((inject_Z c1 + 1) * / inject_Z T)%Q using relation Qeq by ring.
    apply Qmult_le_compat_r; [|lra].
    change 1%Q with (inject_Z 1). rewrite <- inject_Z_plus, <- Zle_Qle. lia.
  - apply Qmult_lt_0_compat; [|exact Hinv].
    change 0%Q with (inject_Z 0). rewrite <- Zlt_Qlt. lia.
  - rewrite <- Hone. apply Qmult_le_compat_r; [|lra].
    rewrite <- Zle_Qle. lia.
Qed.

Lemma round_quotient_lt (c1 c2 : Z) :
  1 <= c1 -> c1 < c2 -> c2 <= T ->
  (Float64.round (quotient T c1) < Float64.round (quotient T c2))%Q.
Proof.
  intros H1 H12 H2.
  destruct (quotient_step c1 c2 H1 H12 H2) as [Hstep [Hpos Hle]].
  destruct (quotient_facts c1 ltac:(lia)) as [_ [Hbig _]].
  pose proof (Float64Facts.round_error (quotient T c1)) as He1.
  pose proof (Float64Facts.round_error (quotient T c2)) as He2.
  change (1 # 2 ^ 53)%Q with (1 # 9007199254740992)%Q in *.
  change (1 # 2 ^ 52)%Q with (1 # 4503599627370496)%Q in *.
  rewrite (Qabs_pos (quotient T c1)) in He1 by lra.
  rewrite (Qabs_pos (quotient T c2)) in He2 by lra.
  apply Qabs_Qle_condition in He1. apply Qabs_Qle_condition in He2.
  lra.
Qed.

Lemma round_quotient_one (c : Z) :
  1 <= c <= T ->
  Qeq_bool (Float64.round (quotient T c)) 1 = Qeq_bool (quotient T c) 1.
Proof.
  intros Hc. destruct (Z.eq_dec c T) as [->|Hne].
  - assert (E1 : (quotient T T == 1)%Q).
    { destruct (quotient_facts T Hc) as [_ [_ [E Hone]]]. now rewrite E. }
    assert (E2 : (Float64.round (quotient T T) == 1)%Q).
    { unfold quotient. destruct T as [|t|t]; try lia.
      unfold Float64.round. cbn [Qdiv Qinv Qmult inject_Z Qnum Qden].
      rewrite Z.mul_1_r. change (1 * t)%positive with t.
      apply roundPositive_same. }
    apply Qeq_bool_iff in E1, E2. now rewrite E1, E2.
  - destruct (quotient_step c T ltac:(lia) ltac:(lia) ltac:(lia))
      as [Hstep [Hpos _]].
    destruct (quotient_facts c Hc) as [_ [Hbig _]].
    destruct (quotient_facts T ltac:(lia)) as [_ [_ [ET Hone]]].
    rewrite ET, Hone in Hstep.
    pose proof (Float64Facts.round_error (quotient T c)) as He.
    rewrite (Qabs_pos (quotient T c)) in He by lra.
    apply Qabs_Qle_condition in He.
    change (1 # 2 ^ 53)%Q with (1 # 9007199254740992)%Q in *.
    change (1 # 2 ^ 52)%Q with (1 # 4503599627370496)%Q in *.
    assert (F1 : Qeq_bool (quotient T c) 1 = false).
    { destruct (Qeq_bool (quotient T c) 1) eqn:E; [|reflexivity].
      apply Qeq_bool_iff in E. lra. }
    assert (F2 : Qeq_bool (Float64.round (quotient T c)) 1 = false).
    { destruct (Qeq_bool (Float64.round (quotient T c)) 1) eqn:E; [|reflexivity].
      apply Qeq_bool_iff in E. lra. }
    now rewrite F1, F2.
Qed.

Lemma round_quotient_le (c1 c2 : Z) :
  1 <= c1 <= T -> 1 <= c2 <= T ->
  Qle_bool (Float64.round (quotient T c1)) (Float64.round (quotient T c2))
  = Qle_bool (quotient T c1) (quotient T c2).
Proof.
  intros H1 H2.
  destruct (Z.lt_trichotomy c1 c2) as [Hlt|[->|Hgt]].
  - pose proof (round_quotient_lt c1 c2 ltac:(lia) Hlt ltac:(lia)) as Hr.
    destruct (quotient_step c1 c2 ltac:(lia) Hlt ltac:(lia)) as [Hstep _].
    destruct (quotient_facts c1 H1) as [Hinv _].
    rewrite (proj2 (Qle_bool_iff _ _)) by lra.
    rewrite (proj2 (Qle_bool_iff _ _)) by lra. reflexivity.
  - rewrite !(proj2 (Qle_bool_iff _ _)) by apply Qle_refl. reflexivity.
  - pose proof (round_quotient_lt c2 c1 ltac:(lia) Hgt ltac:(lia)) as Hr.
    destruct (quotient_step c2 c1 ltac:(lia) Hgt ltac:(lia)) as [Hstep _].
    destruct (quotient_facts c1 H1) as [Hinv _].
    assert (F1 : Qle_bool (quotient T c1) (quotient T c2) = false).
    { destruct (Qle_bool (quotient T c1) (quotient T c2)) eqn:E; [|reflexivity].
      apply Qle_bool_iff in E. lra. }
    assert (F2 : Qle_bool (Float64.round (quotient T c1))
                   (Float64.round (quotient T c2)) = false).
    { destruct (Qle_bool (Float64.round (quotient T c1))
                  (Float64.round (quotient T c2))) eqn:E; [|reflexivity].
      apply Qle_bool_iff in E. lra. }
    now rewrite F1, F2.
Qed.

Lemma round_quotient_zero (c : Z) :
  1 <= c <= T ->
  Qle_bool (Float64.round (quotient T c)) 0 = Qle_bool (quotient T c) 0.
Proof.
  intros Hc.
  assert (Hpos : (0 < quotient T c)%Q).
  { destruct (quotient_facts c Hc) as [Hinv [_ [E _]]]. rewrite E.
    apply Qmult_lt_0_compat; [|exact Hinv].
    change 0%Q with (inject_Z 0). rewrite <- Zlt_Qlt. lia. }
  pose proof (Float64Facts.round_positive _ Hpos) as Hr.
  assert (F1 : Qle_bool (quotient T c) 0 = false).
  { destruct (Qle_bool (quotient T c) 0) eqn:E; [|reflexivity].
    apply Qle_bool_iff in E. lra. }
  assert (F2 : Qle_bool (Float64.round (quotient T c)) 0 = false).
  { destruct (Qle_bool (Float64.round (quotient T c)) 0) eqn:E; [|reflexivity].
    apply Qle_bool_iff in E. lra. }
  now rewrite F1, F2.
Qed.

Section Scan.
Context `{CaseMapping}.

(** The scan makes the same choices on the doubles as on the
    quotients. *)
Lemma suggestLoop_stored (sequence : jsstring) (entries : list (jsstring * Q)) :
  (forall e, In e entries -> exists c, 1 <= c <= T /\ snd e = quotient T c) ->
  forall (best : Q) (word : jsstring),
    best = 0%Q \/ (exists c, 1 <= c <= T /\ best = quotient T c) ->
    suggestLoop (storedModel entries) sequence (Float64.round best) word
    = suggestLoop entries sequence best word.
Proof.
  induction entries as [|[ngram p] entries IH]; intros Hall best word Hbest;
    [reflexivity|].
  destruct (Hall (ngram, p) (or_introl eq_refl)) as [c [Hc Hp]].
  simpl in Hp. subst p.
  assert (Hall' : forall e, In e entries ->
            exists c, 1 <= c <= T /\ snd e = quotient T c)
    by (intros e He; apply Hall; now right).
  change (storedModel ((ngram, quotient T c) :: entries))
    with ((ngram, Float64.round (quotient T c)) :: storedModel entries).
  cbn [suggestLoop].
  assert (Hle : Qle_bool (Float64.round (quotient T c)) (Float64.round best)
                = Qle_bool (quotient T c) best).
  { destruct Hbest as [->|[c' [Hc' ->]]].
    - now apply round_quotient_zero.
    - now apply round_quotient_le. }
  rewrite Hle, (round_quotient_one c Hc).
  destruct (Qle_bool (quotient T c) best); [now apply IH|].
  destruct (endsWith _ _); [|now apply IH].
  destruct (Qeq_bool (quotient T c) 1); [reflexivity|].
  apply IH; [exact Hall'|]. right. now exists c.
Qed.

End Scan.

End Quotients.

(** X17: the suggestions are those of the doubles.  For a model whose
    table counts fewer than 2^52 n-grams, [suggestNextWord] returns the
    same word on the instance that holds the doubles the divisions
    yield as on the instance that holds the exact quotients: distinct
    quotients of one total round to distinct doubles in the same order,
    and only the quotient 1 rounds to 1. *)
Theorem doubles_same_suggestion `{CaseMapping} (text : jsstring) (n : number)
    (this : t) (grams : list (jsstring * Z)) (sequence : jsstring)
    (sanitize : bool) :
  create (JString text) (JNumber n) = Ok this ->
  tabulate (splitWhiteSpace text) (JNumber n) = Ok grams ->
  counted grams < 2 ^ 52 ->
  suggestNextWord (withDoubles this) sequence sanitize
  = suggestNextWord this sequence sanitize.
Proof.
  intros Hc Htab Hsmall.
  unfold create in Hc. cbn [tokenize] in Hc. rewrite Htab in Hc.
  injection Hc as <-.
  unfold suggestNextWord, withDoubles. cbn [model].
  assert (Hpos : forall c, In c (map snd grams) -> 1 <= c).
  { intros c Hc. apply in_map_iff in Hc. destruct Hc as [g [<- Hg]].
    unfold tabulate in Htab. destruct (nle n (Fin 0)); [discriminate|].
    assert (Hg' : In g (tabulateLoop (splitWhiteSpace text) n
                          (seq 0 (S (length (splitWhiteSpace text)))) []))
      by congruence.
    revert Hg'. apply tabulateLoop_positive. intros ? []. }
  assert (Hscan : suggestLoop (storedModel (probabilities grams)) sequence 0 []
                  = suggestLoop (probabilities grams) sequence 0 []).
  { destruct grams as [|g grams]; [reflexivity|].
    assert (HT : 1 <= counted (g :: grams) < 2 ^ 52).
    { split; [|exact Hsmall].
      pose proof (sum_bounds _ Hpos 0 (snd g) (or_introl eq_refl)) as Hs.
      specialize (Hpos (snd g) (or_introl eq_refl)). unfold counted. lia. }
    change 0%Q with (Float64.round 0) at 1.
    apply (suggestLoop_stored (counted (g :: grams)) HT); [|now left].
    intros e He. apply probabilities_In in He. destruct He as [c [Hc He]].
    exists c. split; [|exact He]. split; [now apply Hpos|].
    pose proof (sum_bounds _ Hpos 0 c Hc) as Hs. unfold counted. lia. }
  now rewrite Hscan.
Qed.

Lemma doubles_same_suggestion_witness :
  exists this,
    create (JString (js "a b a c a b a c")) (JNumber (ofNat 2)) = Ok this /\
    suggestNextWord (withDoubles this) (js "a") false
    = suggestNextWord this (js "a") false.
Proof.
  eexists. split; [vm_compute; reflexivity|].
  eapply (doubles_same_suggestion (js "a b a c a b a c") (ofNat 2)).
  - vm_compute. reflexivity.
  - vm_compute. reflexivity.
  - vm_compute. reflexivity.
Defined.

(** *** The n-grams stored *)

Lemma splitAt_token (token rest : jsstring) :
  ~ In 32%N token ->
  forall current,
    splitAt 32 (token ++ rest) current = splitAt 32 rest (current ++ token).
Proof.
  induction token as [|c token IH]; intros Hfree current; simpl.
  - now rewrite app_nil_r.
  - destruct (N.eqb_spec c 32) as [->|Hne]; [exfalso; apply Hfree; now left|].
    rewrite IH by (intros Hin; apply Hfree; now right).
    now rewrite <- app_assoc.
Qed.

Lemma splitSpace_join (tokens : list jsstring) :
  tokens <> [] -> (forall token, In token tokens -> ~ In 32%N token) ->
  splitSpace (join space tokens) = tokens.
Proof.
  intros Hne Hfree. unfold splitSpace.
  destruct tokens as [|t ts]; [congruence|]. clear Hne.
  change (t :: ts) with (([] ++ t) :: ts) at 2.
  generalize (@nil N) as current. revert t Hfree.
  induction ts as [|t' ts IH]; intros t Hfree current.
  - cbn [join]. rewrite <- (app_nil_r t) at 1.
    rewrite splitAt_token by (apply Hfree; now left). reflexivity.
  - change (join space (t :: t' :: ts))
      with (t ++ space ++ join space (t' :: ts)).
    rewrite splitAt_token by (apply Hfree; now left).
    unfold space at 1. cbn [app splitAt]. change (32 =? 32)%N with true.
    cbv iota. f_equal. rewrite IH.
    + reflexivity.
    + intros token Hin. apply Hfree. now right.
Qed.

Lemma splitRuns_In (c : N) (s : jsstring) :
  forall current inRun token,
    In token (splitRuns s current inRun) -> In c token ->
    In c current \/ In c s.
Proof.
  induction s as [|d s IH]; intros current inRun token; cbn [splitRuns].
  - intros [<-|[]] Hc. now left.
  - destruct (isWhiteSpace d).
    + destruct inRun.
      * intros Hin Hc. destruct (IH _ _ _ Hin Hc) as [[]|Hs]. right. now right.
      * intros [<-|Hin] Hc; [now left|].
        destruct (IH _ _ _ Hin Hc) as [[]|Hs]. right. now right.
    + intros Hin Hc. destruct (IH _ _ _ Hin Hc) as [Hcur|Hs].
      * apply in_app_or in Hcur. destruct Hcur as [Hcur|[<-|[]]];
          [now left|right; now left].
      * right. now right.
Qed.

Lemma token_no_space (text token : jsstring) :
  In token (splitWhiteSpace text) -> ~ In 32%N token.
Proof.
  intros Hin Hc.
  destruct (splitRuns_free text [] false eq_refl) as [_ Hall].
  rewrite List.Forall_forall in Hall. specialize (Hall token Hin).
  rewrite forallb_forall in Hall. specialize (Hall _ Hc). discriminate Hall.
Qed.

Lemma slice_leading (tokens : list jsstring) :
  slice tokens (Fin 0) (Fin (-1)) = take (length tokens - 1) tokens.
Proof.
  unfold slice.
  change (toIntegerOrInfinity (Fin 0)) with (Int 0).
  change (toIntegerOrInfinity (Fin (-1))) with (Int (-1)).
  unfold clampIndex. change (0 <? 0) with false. change (-1 <? 0) with true.
  cbv iota. rewrite Z.min_l by lia. change (Z.to_nat 0) with 0%nat.
  rewrite drop_0, Nat.sub_0_r. f_equal. lia.
Qed.

Lemma tally_keys (windows : list jsstring) :
  forall (ngrams : list (jsstring * Z)) e,
    In e (fold_left tally windows ngrams) ->
    In e ngrams \/ In (fst e) (map (removeFirst endMarker) windows).
Proof.
  induction windows as [|w windows IH]; intros ngrams e Hin; simpl in *;
    [now left|].
  apply IH in Hin. destruct Hin as [Hin|Hin]; [|right; now right].
  unfold tally in Hin.
  assert (Hk : forall (m : list (jsstring * Z)) k v,
            In e (mapSet m k v) -> fst e = k \/ In e m).
  { clear. induction m as [|[k0 v0] m IHm]; intros k v; simpl.
    - intros [<-|[]]. now left.
    - destruct (str_eqb k0 k) eqn:E; simpl.
      + apply str_eqb_eq in E. subst k0.
        intros [<-|He]; [now left|right; now right].
      + intros [<-|He]; [right; now left|].
        destruct (IHm _ _ He); [now left|right; now right]. }
  apply Hk in Hin. destruct Hin as [<-|Hin]; [right; now left|now left].
Qed.

(** X15: in a model built from a text without the end marker and a
    window size [n >= 1], every stored n-gram is a window of the text:
    split at spaces it has exactly [n] tokens, and none of its leading
    [n - 1] tokens (the part [suggestNextWord] matches) ends a
    sentence. *)
Theorem stored_ngrams (text : jsstring) (n : nat) (this : t) :
  (1 <= n)%nat -> ~ In endMarker text ->
  create (JString text) (JNumber (ofNat n)) = Ok this ->
  forall key p, In (key, p) (model this) ->
    (exists i, key = join space (window (splitWhiteSpace text) n i)) /\
    length (splitSpace key) = n /\
    existsb isEndOfSentence (slice (splitSpace key) (Fin 0) (Fin (-1))) = false.
Proof.
  intros Hn Hfree Hc key p Hin.
  unfold create in Hc. cbn [tokenize] in Hc.
  rewrite tabulate_tally in Hc by assumption.
  injection Hc as <-. cbn [model] in Hin.
  set (tokens := splitWhiteSpace text) in *.
  assert (Htok : forall token, In token tokens -> ~ In endMarker token).
  { intros token Ht Hm. destruct (splitRuns_In endMarker text [] false token Ht Hm)
      as [[]|Hs]. contradiction. }
  unfold probabilities in Hin.
  rewrite probabilities_fresh in Hin by (apply tally_NoDup; constructor).
  cbn [app] in Hin. apply in_map_iff in Hin. destruct Hin as [[k c] [[= <- _] Hin]].
  apply tally_keys in Hin. destruct Hin as [[]|Hin]. cbn [fst] in Hin.
  apply in_map_iff in Hin. destruct Hin as [w [<- Hw]].
  unfold countedWindows in Hw. apply in_map_iff in Hw.
  destruct Hw as [i [<- Hi]]. apply filter_In in Hi. destruct Hi as [Hseq Hctx].
  apply in_seq in Hseq. apply negb_true_iff in Hctx.
  assert (Hw : forall token, In token (window tokens n i) -> In token tokens)
    by (intros token; apply window_In).
  rewrite removeFirst_absent.
  2:{ intros Hm. apply join_In in Hm. destruct Hm as [[Hm|[]]|[token [Ht Hm]]];
        [discriminate Hm|]. exact (Htok token (Hw token Ht) Hm). }
  assert (Hlen : length (window tokens n i) = n).
  { unfold window. rewrite length_take, length_drop. lia. }
  rewrite splitSpace_join.
  - split; [now exists i|]. split; [exact Hlen|].
    rewrite slice_leading, Hlen. unfold window. rewrite take_take.
    rewrite Nat.min_l by lia. exact Hctx.
  - intros Hnil. rewrite Hnil in Hlen. simpl in Hlen. lia.
  - intros token Ht. apply (token_no_space text). now apply Hw.
Qed.

Lemma stored_ngrams_witness :
  exists this,
    (1 <= 2)%nat /\ ~ In endMarker (js "hi there. hi friend.") /\
    create (JString (js "hi there. hi friend.")) (JNumber (ofNat 2)) = Ok this /\
    forall key p, In (key, p) (model this) ->
      (exists i, key = join space
                         (window (splitWhiteSpace (js "hi there. hi friend.")) 2 i)) /\
      length (splitSpace key) = 2%nat /\
      existsb isEndOfSentence (slice (splitSpace key) (Fin 0) (Fin (-1))) = false.
Proof.
  assert (Hfree : ~ In endMarker (js "hi there. hi friend.")).
  { intros Hin. vm_compute in Hin.
    repeat (destruct Hin as [Hin|Hin]; [discriminate Hin|]). exact Hin. }
  assert (E : exists this,
            create (JString (js "hi there. hi friend.")) (JNumber (ofNat 2)) = Ok this)
    by (eexists; vm_compute; reflexivity).
  destruct E as [this E].
  exists this. split; [lia|]. split; [exact Hfree|]. split; [exact E|].
  exact (stored_ngrams _ 2 this (le_S 1 1 (le_n 1)) Hfree E).
Defined.

(** *** [complete] *)

Section Completion.
Context `{CaseMapping}.

Lemma completeLoop_appends (this : t) (n : nat) :
  forall words seenSequences,
    exists added,
      completeLoop this n words seenSequences = words ++ added /\
      (length added <= n)%nat /\ Forall (fun w => w <> []) added.
Proof.
  induction n as [|n IH]; intros words seen; cbn [completeLoop].
  - exists []. rewrite app_nil_r. split; [reflexivity|].
    split; [simpl; lia|constructor].
  - destruct (existsb _ seen).
    { exists []. rewrite app_nil_r. split; [reflexivity|].
      split; [simpl; lia|constructor]. }
    set (nextWord := suggestNextWord this _ true).
    destruct (isEndOfSentence nextWord) eqn:Hend.
    { exists [nextWord]. split; [reflexivity|]. split; [simpl; lia|].
      constructor; [|constructor]. intros Hn. rewrite Hn in Hend. discriminate. }
    destruct (str_eqb nextWord []) eqn:Hempty.
    { exists []. rewrite app_nil_r. split; [reflexivity|].
      split; [simpl; lia|constructor]. }
    match goal with |- context [completeLoop this n ?ws ?ss] =>
      destruct (IH ws ss) as [added [Heq [Hlen Hall]]] end.
    exists (nextWord :: added). rewrite Heq, <- app_assoc.
    split; [reflexivity|]. split; [simpl; lia|].
    constructor; [now apply str_eqb_neq|exact Hall].
Qed.

(** X12: [complete] never drops or alters a typed token: for a prefix
    that is not empty it returns either the cached suggestion (which
    then is not empty and starts with the prefix) or the tokens of the
    prefix joined by single spaces and followed by at most [maxWords]
    predicted words, none of them empty. *)
Theorem complete_keeps_tokens (this : t) (prefix : jsstring) (maxWords : nat) :
  prefix <> [] ->
  exists added,
    (length added <= maxWords)%nat /\ Forall (fun w => w <> []) added /\
    (fst (complete this prefix maxWords)
     = join space (splitWhiteSpace prefix ++ added) \/
     (lookup this <> [] /\ startsWith (lookup this) prefix = true /\
      fst (complete this prefix maxWords) = lookup this)).
Proof.
  intros Hne. unfold complete. apply str_eqb_neq in Hne. rewrite Hne.
  destruct (completeLoop_appends this maxWords (splitWhiteSpace prefix) [])
    as [added [Heq [Hlen Hall]]].
  exists added. split; [exact Hlen|]. split; [exact Hall|].
  rewrite Heq.
  set (suggestion := join space (splitWhiteSpace prefix ++ added)).
  destruct (negb (str_eqb suggestion prefix) &&
            negb (str_eqb suggestion (lookup this)) &&
            startsWith suggestion prefix).
  - left. destruct (_ && _); reflexivity.
  - destruct (negb (str_eqb (lookup this) [])) eqn:Hl; simpl.
    + destruct (startsWith (lookup this) prefix) eqn:Hs; [|now left].
      right. split; [|split; reflexivity].
      apply negb_true_iff in Hl. now apply str_eqb_neq.
    + now left.
Qed.

(** X13: when the text has fewer tokens than the window size [n], the
    model is empty, [suggestNextWord] returns the empty string for
    every sequence, and [complete] returns the tokens of a non-empty
    prefix joined by single spaces. *)
Theorem short_text_model (text : jsstring) (n : nat) :
  (length (splitWhiteSpace text) < n)%nat ->
  exists this,
    create (JString text) (JNumber (ofNat n)) = Ok this /\
    model this = [] /\
    (forall sequence sanitize, suggestNextWord this sequence sanitize = []) /\
    (forall prefix maxWords, prefix <> [] ->
       fst (complete this prefix maxWords) = join space (splitWhiteSpace prefix)).
Proof.
  intros Hshort.
  assert (Hc : create (JString text) (JNumber (ofNat n))
               = Ok {| size := ofNat n; model := []; lookup := [] |}).
  { unfold create. cbn [tokenize]. rewrite tabulate_tally by lia.
    unfold countedWindows.
    replace (length (splitWhiteSpace text) + 1 - n)%nat with 0%nat by lia.
    reflexivity. }
  eexists. split; [exact Hc|]. split; [reflexivity|].
  assert (Hs : forall sequence sanitize,
            suggestNextWord {| size := ofNat n; model := []; lookup := [] |}
              sequence sanitize = []).
  { intros sequence [|]; reflexivity. }
  split; [exact Hs|].
  intros prefix maxWords Hne.
  assert (Hloop : forall k words seen,
            completeLoop {| size := ofNat n; model := []; lookup := [] |}
              k words seen = words).
  { intros [|k] words seen; cbn [completeLoop]; [reflexivity|].
    destruct (existsb _ seen); [reflexivity|]. rewrite Hs. reflexivity. }
  unfold complete. apply str_eqb_neq in Hne. rewrite Hne, Hloop.
  cbn [lookup].
  set (suggestion := join space (splitWhiteSpace prefix)).
  destruct (negb (str_eqb suggestion prefix) &&
            negb (str_eqb suggestion []) &&
            startsWith suggestion prefix); simpl.
  - destruct (_ && _); reflexivity.
  - reflexivity.
Qed.

Lemma completeLoop_ext (this this' : t) :
  size this = size this' -> model this = model this' ->
  forall n words seen,
    completeLoop this n words seen = completeLoop this' n words seen.
Proof.
  intros Hs Hm. induction n as [|n IH]; intros words seen; cbn [completeLoop];
    [reflexivity|].
  unfold suggestNextWord. rewrite Hs, Hm.
  destruct (existsb _ seen); [reflexivity|].
  destruct (isEndOfSentence _); [reflexivity|].
  destruct (str_eqb _ []); [reflexivity|]. apply IH.
Qed.

(** X14: with an empty cache (as after construction or after
    [complete('')], which empties it) [complete] returns the candidate
    it computes, and caches it exactly when it differs from the prefix
    and starts with it. *)
Theorem complete_after_reset (this : t) (prefix : jsstring) (maxWords k : nat) :
  prefix <> [] ->
  let reset := snd (complete this [] k) in
  let candidate :=
    join space (completeLoop this maxWords (splitWhiteSpace prefix) []) in
  lookup reset = [] /\ model reset = model this /\ size reset = size this /\
  fst (complete reset prefix maxWords) = candidate /\
  lookup (snd (complete reset prefix maxWords))
  = (if negb (str_eqb candidate prefix) && startsWith candidate prefix
     then candidate else []).
Proof.
  intros Hne reset candidate.
  assert (Hreset : reset = {| size := size this; model := model this; lookup := [] |})
    by reflexivity.
  split; [now rewrite Hreset|]. split; [now rewrite Hreset|].
  split; [now rewrite Hreset|].
  assert (Hloop : forall n words seen,
            completeLoop reset n words seen = completeLoop this n words seen).
  { intros n words seen. apply completeLoop_ext; now rewrite Hreset. }
  unfold complete. apply str_eqb_neq in Hne. rewrite Hne, Hloop.
  fold candidate. rewrite Hreset. cbn [lookup size model].
  destruct (str_eqb candidate prefix) eqn:E1;
    destruct (str_eqb candidate []) eqn:E2;
    destruct (startsWith candidate prefix) eqn:E3;
    simpl; rewrite ?E2, ?E3; simpl; split; try reflexivity.
  apply str_eqb_eq in E2. now rewrite E2.
Qed.

End Completion.

Lemma complete_after_reset_witness :
  let this := {| size := ofNat 2;
                 model := [(js "a b", 1 # 2); (js "b c", 1 # 2)];
                 lookup := js "a b c" |} in
  js "b" <> [] /\
  fst (complete (snd (complete this [] 1)) (js "b") 1) = js "b c".
Proof.
  intros this. split; [discriminate|].
  destruct (complete_after_reset this (js "b") 1 1) as [_ [_ [_ [Hr _]]]];
    [discriminate|].
  rewrite Hr. vm_compute. reflexivity.
Defined.

Lemma complete_keeps_tokens_witness :
  let this := {| size := ofNat 2;
                 model := [(js "a b", 1 # 2); (js "b c", 1 # 2)];
                 lookup := [] |} in
  js "a" <> [] /\
  exists added,
    (length added <= 2)%nat /\ Forall (fun w => w <> []) added /\
    (fst (complete this (js "a") 2) = join space (splitWhiteSpace (js "a") ++ added) \/
     (lookup this <> [] /\ startsWith (lookup this) (js "a") = true /\
      fst (complete this (js "a") 2) = lookup this)).
Proof.
  intros this. split; [discriminate|].
  apply (complete_keeps_tokens this (js "a") 2). discriminate.
Defined.

Lemma short_text_model_witness :
  (length (splitWhiteSpace (js "hello world")) < 3)%nat /\
  exists this,
    create (JString (js "hello world")) (JNumber (ofNat 3)) = Ok this /\
    model this = [] /\
    (forall sequence sanitize, suggestNextWord this sequence sanitize = []) /\
    (forall prefix maxWords, prefix <> [] ->
       fst (complete this prefix maxWords) = join space (splitWhiteSpace prefix)).
Proof.
  assert (Hlen : (length (splitWhiteSpace (js "hello world")) < 3)%nat)
    by (vm_compute; lia).
  split; [exact Hlen|].
  exact (short_text_model (js "hello world") 3 Hlen).
Defined.

End NgramMore.
